(** * The safe mutation pipeline of the SEO checker backend

    A shallow embedding of the services under [backend/app/services]
    ([circuit_breaker.py], [deduplicator.py], [chunker.py],
    [patch_engine.py], [patch_sandbox.py], [memory_guard.py]), of the
    approval and rollback routes of [backend/app/routers/patches.py] and
    of the route of [backend/app/routers/deduplication.py], followed by
    the properties the specification states about them and by further
    properties of the same code.

    Conventions.  Python [int] is [Z].  Python [str] is [string], read as a
    sequence of code points below 256.  A [dict] used as a map is a [gmap];
    a [dict] whose iteration order matters is an association list.  Code
    that raises is modelled with the sum type [Exc]; code that mutates the
    file system, the database or a process-wide singleton threads the
    corresponding state explicitly. *)

From Stdlib Require Import ZArith Ascii String List Bool Lia Permutation.
From stdpp Require Import base option list gmap strings sets fin_sets.

#[local] Open Scope string_scope.
#[local] Open Scope list_scope.
#[local] Open Scope Z_scope.

(** ** Results of code that may raise *)

Inductive Exc (E A : Type) : Type :=
| Ok (a : A)
| Raise (e : E).
Arguments Ok {E A} a.
Arguments Raise {E A} e.

(** ** Python strings *)

Module PyStr.

Definition chars (s : string) : list ascii := list_ascii_of_string s.
Definition of_chars (l : list ascii) : string := string_of_list_ascii l.

Definition code (c : ascii) : Z := Z.of_nat (nat_of_ascii c).

(** [str.isspace] on a single code point below 256. *)
Definition isspace (c : ascii) : bool :=
  let n := code c in
  ((9 <=? n) && (n <=? 13)) || ((28 <=? n) && (n <=? 32))
  || (n =? 133) || (n =? 160).

(** The line boundaries of [str.splitlines] below 256: LF, VT, FF, CR,
    FS, GS, RS and NEL; a CR immediately followed by LF is one
    boundary. *)
Definition is_linebreak (c : ascii) : bool :=
  let n := code c in
  ((10 <=? n) && (n <=? 13)) || ((28 <=? n) && (n <=? 30)) || (n =? 133).

Definition is_cr (c : ascii) : bool := code c =? 13.
Definition is_lf (c : ascii) : bool := code c =? 10.

Definition LF : ascii := ascii_of_nat 10.
Definition newline : string := String LF EmptyString.

Fixpoint splitlines_go (keepends : bool) (cur : list ascii) (s : list ascii)
  : list (list ascii) :=
  match s with
  | [] => match cur with [] => [] | _ => [rev cur] end
  | c :: s' =>
      if is_linebreak c then
        match s' with
        | d :: s'' =>
            if is_cr c && is_lf d then
              (rev cur ++ (if keepends then [c; d] else []))
                :: splitlines_go keepends [] s''
            else
              (rev cur ++ (if keepends then [c] else []))
                :: splitlines_go keepends [] s'
        | [] => [rev cur ++ (if keepends then [c] else [])]
        end
      else splitlines_go keepends (c :: cur) s'
  end.

(** [s.splitlines(keepends)] *)
Definition splitlines (keepends : bool) (s : string) : list string :=
  map of_chars (splitlines_go keepends [] (chars s)).

(** [sep.join(l)] *)
Fixpoint join (sep : string) (l : list string) : string :=
  match l with
  | [] => ""
  | [x] => x
  | x :: rest => x +:+ sep +:+ join sep rest
  end.

Fixpoint lstrip_chars (l : list ascii) : list ascii :=
  match l with
  | c :: l' => if isspace c then lstrip_chars l' else l
  | [] => []
  end.

(** [s.lstrip()] *)
Definition lstrip (s : string) : string := of_chars (lstrip_chars (chars s)).

(** [len(s)] *)
Definition len (s : string) : Z := Z.of_nat (String.length s).

(** [c * n] for a one-character string [c] *)
Definition repeat_char (c : ascii) (n : Z) : string :=
  of_chars (repeat c (Z.to_nat n)).

(** The leading whitespace of [s]: what [lstrip] removes. *)
Fixpoint leading_ws_chars (l : list ascii) : list ascii :=
  match l with
  | c :: l' => if isspace c then c :: leading_ws_chars l' else []
  | [] => []
  end.
Definition leading_ws (s : string) : string :=
  of_chars (leading_ws_chars (chars s)).

(** ASCII lower-casing: the case folding [re.IGNORECASE] applies to the
    letters of the patterns used here. *)
Definition lower (c : ascii) : ascii :=
  let n := code c in
  if (65 <=? n) && (n <=? 90) then ascii_of_nat (nat_of_ascii c + 32) else c.

Definition eq_ci (a b : ascii) : bool :=
  bool_decide (lower a = lower b).

(** [s] starts with the literal [p], ignoring case. *)
Fixpoint prefix_ci (p s : list ascii) : option (list ascii) :=
  match p with
  | [] => Some s
  | a :: p' =>
      match s with
      | b :: s' => if eq_ci a b then prefix_ci p' s' else None
      | [] => None
      end
  end.

(** [s.count("\n")] *)
Definition count_newlines (l : list ascii) : Z :=
  Z.of_nat (length (filter (fun c => is_lf c = true) l)).

End PyStr.

(** ** Python lists *)

Module PyList.
Section ops.
Context {A : Type}.

Definition len (l : list A) : Z := Z.of_nat (length l).

(** Index normalisation of slices and of [list.insert]: a negative
    index counts from the end, and the result is clamped to
    [0 .. len]. *)
Definition clamp (l : list A) (i : Z) : nat :=
  Z.to_nat (if i <? 0 then Z.max 0 (i + len l) else Z.min i (len l)).

(** [l[a:b]] *)
Definition slice (l : list A) (a b : Z) : list A :=
  let lo := clamp l a in
  let hi := clamp l b in
  take (hi - lo)%nat (drop lo l).

(** [l.insert(i, x)] *)
Definition insert (l : list A) (i : Z) (x : A) : list A :=
  let p := clamp l i in
  take p l ++ x :: drop p l.

(** [l[i]] for an index the caller has checked: [None] is IndexError. *)
Definition getitem (l : list A) (i : Z) : option A :=
  if i <? 0 then
    if i + len l <? 0 then None else l !! Z.to_nat (i + len l)
  else l !! Z.to_nat i.

(** [l[i] = x] *)
Definition setitem (l : list A) (i : Z) (x : A) : option (list A) :=
  let j := if i <? 0 then i + len l else i in
  if (0 <=? j) && (j <? len l) then Some (<[Z.to_nat j := x]> l) else None.
End ops.
End PyList.

(** ** circuit_breaker.py *)

Module CircuitBreaker.

Definition FAILURE_THRESHOLD : Z := 5.

(** The two [defaultdict]s of the singleton. *)
Record t : Type := mk {
  failures : gmap string Z;
  tripped : gmap string bool;
}.

(** [CircuitBreaker()] *)
Definition init : t := {| failures := ∅; tripped := ∅ |}.

(** [d[k]] on a [defaultdict]: a missing key is inserted with the default
    before it is read. *)
Definition dd_get {V} (dflt : V) (d : gmap string V) (k : string)
  : V * gmap string V :=
  match d !! k with
  | Some v => (v, d)
  | None => (dflt, <[k := dflt]> d)
  end.

Definition record_failure (job_id : string) (b : t) : bool * t :=
  let '(n, fs) := dd_get 0 (failures b) job_id in
  let fs := <[job_id := n + 1]> fs in
  if FAILURE_THRESHOLD <=? n + 1 then
    let '(tr, ts) := dd_get false (tripped b) job_id in
    let ts := if negb tr then <[job_id := true]> ts else ts in
    (true, {| failures := fs; tripped := ts |})
  else (false, {| failures := fs; tripped := tripped b |}).

Definition record_success (job_id : string) (b : t) : t :=
  let '(n, fs) := dd_get 0 (failures b) job_id in
  if 0 <? n then {| failures := <[job_id := 0]> fs; tripped := tripped b |}
  else {| failures := fs; tripped := tripped b |}.

(** [self.tripped.get(job_id, False)] *)
Definition is_tripped (b : t) (job_id : string) : bool :=
  default false (tripped b !! job_id).

(** [self.failures.get(job_id, 0)] *)
Definition get_failure_count (b : t) (job_id : string) : Z :=
  default 0 (failures b !! job_id).

Definition reset (job_id : string) (b : t) : t :=
  {| failures := <[job_id := 0]> (failures b);
     tripped := <[job_id := false]> (tripped b) |}.

Record status : Type := mk_status {
  st_job_id : string;
  st_failures : Z;
  st_threshold : Z;
  st_tripped : bool;
  st_remaining_attempts : Z;
}.

Definition get_status (b : t) (job_id : string) : status :=
  {| st_job_id := job_id;
     st_failures := get_failure_count b job_id;
     st_threshold := FAILURE_THRESHOLD;
     st_tripped := is_tripped b job_id;
     st_remaining_attempts :=
       Z.max 0 (FAILURE_THRESHOLD - get_failure_count b job_id) |}.

(** The calls a client can make on the singleton, and their effect on
    its state.  The three queries read with [dict.get] and change
    nothing. *)
Inductive call : Type :=
| RecordFailure (job_id : string)
| RecordSuccess (job_id : string)
| IsTripped (job_id : string)
| GetFailureCount (job_id : string)
| GetStatus (job_id : string)
| ResetJob (job_id : string).

Definition step (b : t) (c : call) : t :=
  match c with
  | RecordFailure k => snd (record_failure k b)
  | RecordSuccess k => record_success k b
  | IsTripped _ | GetFailureCount _ | GetStatus _ => b
  | ResetJob k => reset k b
  end.

(** The state after a sequence of calls on a fresh breaker. *)
Definition run (cs : list call) : t := foldl step init cs.

End CircuitBreaker.

(** ** deduplicator.py *)

Module Deduplicator.

(** An issue as the router hands it over: one [dict] per database row,
    with the keys the deduplicator reads and writes.  [conflict_with] and
    [superseded_by] are [None] while the key is absent.  The rows have
    distinct ids, so the dicts are distinct objects and the in-place
    updates of one cannot be observed through another: the model updates
    values. *)
Record issue : Type := mk_issue {
  id : Z;
  file_path : string;
  line_number : Z;
  action : string;
  code : string;
  severity : string;
  status : string;
  conflict_with : option (list Z);
  superseded_by : option Z;
}.

#[global] Instance issue_eq_dec : EqDecision issue.
Proof. solve_decision. Defined.

Definition SEVERITY_ORDER : list (string * Z) :=
  [("critical", 4); ("high", 3); ("medium", 2); ("low", 1)].

(** [d.get(k)] on a dict literal *)
Fixpoint dict_get (k : string) (d : list (string * Z)) : option Z :=
  match d with
  | [] => None
  | (k', v) :: d' => if decide (k = k') then Some v else dict_get k d'
  end.

(** [SEVERITY_ORDER.get(x['severity'], 0)], the sort key ([severity] is
    the enum's value when the caller passes the enum). *)
Definition severity_rank (x : issue) : Z :=
  default 0 (dict_get (severity x) SEVERITY_ORDER).

Definition key : Type := string * Z.
Definition key_of (x : issue) : key := (file_path x, line_number x).

(** [grouped[key].append(issue)] on the [defaultdict(list)]: keys keep
    the order of their first insertion. *)
Fixpoint group_add (k : key) (x : issue) (g : list (key * list issue))
  : list (key * list issue) :=
  match g with
  | [] => [(k, [x])]
  | (k', xs) :: g' =>
      if decide (k = k') then (k', xs ++ [x]) :: g'
      else (k', xs) :: group_add k x g'
  end.

Definition grouped (issues : list issue) : list (key * list issue) :=
  foldl (fun g x => group_add (key_of x) x g) [] issues.

Definition _check_patch_conflict (issues : list issue) : bool :=
  let '(actions, codes) :=
    foldl (fun (acc : gset string * gset string) x =>
             if decide (action x = "replace_line")
             then ({[action x]} ∪ acc.1, {[code x]} ∪ acc.2)
             else acc)
          (∅, ∅) issues in
  bool_decide ("replace_line" ∈ actions) && bool_decide (1 < size codes)%nat.

(** [sorted(l, key=rank, reverse=True)]: Python's sort is stable, also
    with [reverse=True], so elements of equal rank keep their order in
    [l].  The stable descending insertion sort computes that list. *)
Fixpoint insert_desc (x : issue) (l : list issue) : list issue :=
  match l with
  | [] => [x]
  | y :: l' =>
      if severity_rank x <? severity_rank y then y :: insert_desc x l'
      else x :: l
  end.

Definition sorted_desc (l : list issue) : list issue :=
  foldr insert_desc [] l.

Definition mark_conflict (conflict_ids : list Z) (x : issue) : issue :=
  {| id := id x; file_path := file_path x; line_number := line_number x;
     action := action x; code := code x; severity := severity x;
     status := "conflict";
     conflict_with := Some (filter (fun i => i ≠ id x) conflict_ids);
     superseded_by := superseded_by x |}.

Definition mark_superseded (highest : issue) (x : issue) : issue :=
  {| id := id x; file_path := file_path x; line_number := line_number x;
     action := action x; code := code x; severity := severity x;
     status := "superseded";
     conflict_with := conflict_with x;
     superseded_by := Some (id highest) |}.

(** The body of the loop over [grouped.items()]: what one group appends
    to [deduplicated]. *)
Definition resolve_group (line_issues : list issue) : list issue :=
  if decide (length line_issues = 1%nat) then line_issues
  else if _check_patch_conflict line_issues then
    let conflict_ids := map id line_issues in
    map (mark_conflict conflict_ids) line_issues
  else
    match sorted_desc line_issues with
    | highest :: rest => highest :: map (mark_superseded highest) rest
    | [] => []
    end.

Definition deduplicate_issues (issues : list issue) : list issue :=
  flat_map (fun g => resolve_group (snd g)) (grouped issues).

(** One entry of [summary['conflicts']]. *)
Record conflict_entry : Type := mk_entry {
  ce_file_path : string;
  ce_line_number : Z;
  ce_issue_count : Z;
  ce_issue_ids : list Z;
  ce_actions : list string;
  ce_severities : list string;
}.

Record summary : Type := mk_summary {
  total_conflicts : Z;
  conflicts : list conflict_entry;
}.

(** The dictionary appended for one item of [conflict_groups.items()]. *)
Definition summary_entry (g : key * list issue) : conflict_entry :=
  {| ce_file_path := fst (fst g);
     ce_line_number := snd (fst g);
     ce_issue_count := Z.of_nat (length (snd g));
     ce_issue_ids := map id (snd g);
     ce_actions := map action (snd g);
     ce_severities := map severity (snd g) |}.

Definition get_conflict_summary (issues : list issue) : summary :=
  let conflicts := filter (fun x => status x = "conflict") issues in
  let conflict_groups := grouped conflicts in
  {| total_conflicts := Z.of_nat (length conflict_groups);
     conflicts := map summary_entry conflict_groups |}.

End Deduplicator.

(** ** chunker.py *)

Module Chunker.
Import PyStr.

(** *** The regular expressions of [BLOCK_PATTERNS]

    Every use passes [re.IGNORECASE].  The opening patterns have one of
    two shapes; the closing patterns are literal texts. *)
Inductive open_pattern : Type :=
| OpenTag (name : string)  (* <name[^>]*> *)
| OpenJsonLd.              (* <script\s+type=["']application/ld\+json["'][^>]*> *)

Definition BLOCK_PATTERNS : list (string * (open_pattern * string)) :=
  [ ("script", (OpenTag "script", "</script>"));
    ("head", (OpenTag "head", "</head>"));
    ("json_ld", (OpenJsonLd, "</script>"));
    ("style", (OpenTag "style", "</style>")) ].

Definition is_gt (c : ascii) : bool := code c =? 62.
Definition is_quote (c : ascii) : bool := (code c =? 34) || (code c =? 39).

(** [[^>]*>] at the start of [s]: the text up to and including the
    first [>]. *)
Fixpoint match_to_gt (s : list ascii) : option (list ascii) :=
  match s with
  | [] => None
  | c :: s' => if is_gt c then Some s' else match_to_gt s'
  end.

Definition match_quote (s : list ascii) : option (list ascii) :=
  match s with
  | c :: s' => if is_quote c then Some s' else None
  | [] => None
  end.

(** [\s+] is greedy, and what follows it in the pattern is no space. *)
Definition match_spaces (s : list ascii) : option (list ascii) :=
  match s with
  | c :: _ => if isspace c then Some (lstrip_chars s) else None
  | [] => None
  end.

(** The match of the pattern at the start of [s], as the text left after
    it. *)
Definition match_open (p : open_pattern) (s : list ascii)
  : option (list ascii) :=
  match p with
  | OpenTag name =>
      r ← prefix_ci (chars ("<" +:+ name)) s; match_to_gt r
  | OpenJsonLd =>
      r ← prefix_ci (chars "<script") s;
      r ← match_spaces r;
      r ← prefix_ci (chars "type=") r;
      r ← match_quote r;
      r ← prefix_ci (chars "application/ld+json") r;
      r ← match_quote r;
      match_to_gt r
  end.

(** [re.finditer]: the start offsets of the successive non-overlapping
    matches, leftmost first.  [skip] counts the characters of the last
    match still to be passed over. *)
Fixpoint finditer_go (p : open_pattern) (s : list ascii) (pos skip : nat)
  : list nat :=
  match s with
  | [] => []
  | _ :: s' =>
      match skip with
      | S k => finditer_go p s' (S pos) k
      | O =>
          match match_open p s with
          | Some rest =>
              pos :: finditer_go p s' (S pos) (length s - length rest - 1)
          | None => finditer_go p s' (S pos) 0
          end
      end
  end.

Definition finditer (p : open_pattern) (s : list ascii) : list nat :=
  finditer_go p s 0 0.

(** [re.search(literal, s, re.IGNORECASE)] as a truth value *)
Fixpoint search_ci (p : list ascii) (s : list ascii) : bool :=
  match prefix_ci p s with
  | Some _ => true
  | None => match s with
            | [] => false
            | _ :: s' => search_ci p s'
            end
  end.

(** *** The chunker *)

Record config : Type := mk_config {
  chunk_size : Z;
  overlap : Z;
  context_lines : Z;
}.

(** The singleton [chunker = Chunker(chunk_size=180, overlap=20,
    context_lines=10)]. *)
Definition chunker : config :=
  {| chunk_size := 180; overlap := 20; context_lines := 10 |}.

Record chunk : Type := mk_chunk {
  file_path : string;
  start_line : Z;
  end_line : Z;
  content : string;
  context_head : option string;
  context_tail : option string;
  line_count : Z;
}.

(** [for i in range(start_line, search_end): if re.search(close_pattern,
    lines[i]): return i].  The callers pass [0 <= start_line] and
    [total_lines = len(lines)], so [lines[i]] is always in range; an
    index out of range is read as a line without the marker. *)
Definition _find_closing_tag (lines : list string) (start_line : Z)
    (close_pattern : string) (total_lines : Z) (max_search : Z) : option Z :=
  let search_end := Z.min (start_line + max_search) total_lines in
  find (fun i => match PyList.getitem lines i with
                 | Some l => search_ci (chars close_pattern) (chars l)
                 | None => false
                 end)
       (seqZ start_line (search_end - start_line)).

Definition max_search_default : Z := 100.

(** The update of [end] for one opening match. *)
Definition expand_step (lines : list string) (start total_lines : Z)
    (chunk_content : list ascii) (close_pattern : string)
    (end_ : Z) (match_start : nat) : Z :=
  let lines_before_match := count_newlines (take match_start chunk_content) in
  let open_line := start + lines_before_match in
  match _find_closing_tag lines open_line close_pattern total_lines
          max_search_default with
  | Some close_line =>
      if close_line >=? end_ then Z.min (close_line + 1) total_lines
      else end_
  | None => end_
  end.

Definition _expand_for_semantic_blocks (lines : list string)
    (start end_ total_lines : Z) : Z :=
  let chunk_content := chars (join newline (PyList.slice lines start end_)) in
  foldl (fun end_ (block : string * (open_pattern * string)) =>
           let '(_, (open_pattern, close_pattern)) := block in
           foldl (expand_step lines start total_lines chunk_content
                              close_pattern)
                 end_ (finditer open_pattern chunk_content))
        end_ BLOCK_PATTERNS.

(** [join] of a slice, or [None] when the slice is empty. *)
Definition context_of (context_lines : list string) : option string :=
  match context_lines with
  | [] => None
  | _ => Some (join newline context_lines)
  end.

Section loop.
Variable cfg : config.
Variable path : string.
Variable lines : list string.

Let total_lines : Z := PyList.len lines.

(** The chunk built in one iteration, given its boundaries. *)
Definition make_chunk (start end_ : Z) : chunk :=
  let chunk_lines := PyList.slice lines start end_ in
  let context_head_start := Z.max 0 (start - context_lines cfg) in
  let context_tail_end := Z.min total_lines (end_ + context_lines cfg) in
  {| file_path := path;
     start_line := start + 1;
     end_line := end_;
     content := join newline chunk_lines;
     context_head :=
       context_of (PyList.slice lines context_head_start start);
     context_tail :=
       context_of (PyList.slice lines end_ context_tail_end);
     line_count := PyList.len chunk_lines |}.

(** The [while start < total_lines] loop; [None] when [fuel]
    iterations did not end it. *)
Fixpoint chunk_loop (fuel : nat) (start : Z) : option (list chunk) :=
  match fuel with
  | O => None
  | S fuel' =>
      if start <? total_lines then
        let end_ := Z.min (start + chunk_size cfg) total_lines in
        let end_ := _expand_for_semantic_blocks lines start end_ total_lines in
        let c := make_chunk start end_ in
        let start' := end_ - overlap cfg in
        if (start' >=? total_lines) || (end_ >=? total_lines)
        then Some [c]
        else cons c <$> chunk_loop fuel' start'
      else Some []
  end.
End loop.

(** [chunk_file(file_path, content)] with the content given.  Every
    iteration of the configured chunker moves [start] forward, so
    [len(lines)] iterations always suffice (lemma [chunk_file_total]). *)
Definition chunk_file (cfg : config) (path : string) (text : string)
  : option (list chunk) :=
  let lines := splitlines false text in
  let total_lines := PyList.len lines in
  if total_lines =? 0 then Some []
  else chunk_loop cfg path lines (S (Z.to_nat total_lines)) 0.

End Chunker.

(** ** Exceptions and the file system *)

Inductive exn : Type :=
| FileNotFoundError (path : string)
| SameFileError (src dst : string)
| ValueError (line_number : Z)  (* "Line number {line_number} out of range" *)
| IndexError
| MultipleResultsFound
| DatabaseError
| HTTPException (status_code : Z).

(** The text of an error message, kept as the value it is formatted from. *)
Inductive message : Type :=
| Text (s : string)
| FailedToApplyPatch (e : exn)   (* f"Failed to apply patch: {e}" *)
| SandboxPatchFailed (e : exn)   (* f"Sandbox patch failed: {e}" *)
| DomCheckFailed (e : exn)       (* f"DOM integrity check failed: {str(e)}" *)
| StrOf (e : exn).               (* str(e) *)

Module FS.

(** The files by path, and the log of the paths written so far, oldest
    first: every write or copy appends its destination. *)
Record t : Type := mk {
  files : gmap string string;
  written : list string;
}.

(** [open(path, 'r').read()] *)
Definition read (path : string) (fs : t) : Exc exn string :=
  match files fs !! path with
  | Some c => Ok c
  | None => Raise (FileNotFoundError path)
  end.

(** [open(path, 'w').write(text)] *)
Definition write (path text : string) (fs : t) : t :=
  {| files := <[path := text]> (files fs);
     written := written fs ++ [path] |}.

(** [shutil.copy2(src, dst)]: the source must exist, and copying a file
    onto itself raises before anything is written. *)
Definition copy2 (src dst : string) (fs : t) : Exc exn unit * t :=
  match files fs !! src with
  | None => (Raise (FileNotFoundError src), fs)
  | Some c =>
      if decide (src = dst) then (Raise (SameFileError src dst), fs)
      else (Ok tt, write dst c fs)
  end.

(** [Path(path).exists()] and [Path(path).unlink()] *)
Definition exists_ (path : string) (fs : t) : bool :=
  bool_decide (is_Some (files fs !! path)).

Definition unlink (path : string) (fs : t) : t :=
  {| files := delete path (files fs); written := written fs |}.

(** How often [path] was written. *)
Definition writes_to (path : string) (fs : t) : nat :=
  length (filter (fun p => p = path) (written fs)).

End FS.

(** ** pathlib *)

Module PyPath.
Import PyStr.

Definition is_slash (c : ascii) : bool := code c =? 47.
Definition is_dot (c : ascii) : bool := code c =? 46.

(** The text after the last character satisfying [f], or all of it. *)
Fixpoint after_last (f : ascii -> bool) (l : list ascii) : list ascii :=
  match l with
  | [] => []
  | c :: l' =>
      if existsb f l' then after_last f l'
      else if f c then l' else l
  end.

(** [Path(p).name]: the final component. *)
Definition name_chars (p : string) : list ascii := after_last is_slash (chars p).

(** [Path(p).suffix]: from the last dot of the name on, unless that dot
    is the first or the last character of the name. *)
Definition suffix_chars (p : string) : list ascii :=
  let n := name_chars p in
  match n with
  | [] => []
  | c0 :: rest =>
      if existsb is_dot rest then
        match after_last is_dot rest with
        | [] => []
        | ext => ascii_of_nat 46 :: ext
        end
      else []
  end.

Definition suffix (p : string) : string := of_chars (suffix_chars p).

(** [Path(p).stem]: the name without its suffix. *)
Definition stem (p : string) : string :=
  let n := name_chars p in
  of_chars (take (length n - length (suffix_chars p)) n).

(** [str(Path(dir) / name)] *)
Definition div (dir name : string) : string := dir +:+ "/" +:+ name.

(** [s.lower()] on the letters A to Z *)
Definition lower_str (s : string) : string := of_chars (map lower (chars s)).

(** [s.split('.')[-1]] *)
Definition after_last_dot (s : string) : string :=
  of_chars (after_last is_dot (chars s)).

End PyPath.

(** ** patch_engine.py *)

Module PatchEngine.

(** [''.join(lines)] *)
Definition concat_lines (lines : list string) : string :=
  foldr String.append "" lines.

Definition in_range (line_number : Z) (lines : list string) : bool :=
  (0 <? line_number) && (line_number <=? PyList.len lines).

Definition _apply_dom_patch (content : string) (line_number : Z)
    (action code : string) : Exc exn string :=
  let lines := PyStr.splitlines true content in
  if decide (action = "insert_after_line") then
    if line_number <=? PyList.len lines then
      Ok (concat_lines (PyList.insert lines line_number (code +:+ PyStr.newline)))
    else Raise (ValueError line_number)
  else if decide (action = "replace_line") then
    if in_range line_number lines then
      match PyList.setitem lines (line_number - 1) (code +:+ PyStr.newline) with
      | Some lines' => Ok (concat_lines lines')
      | None => Raise IndexError
      end
    else Raise (ValueError line_number)
  else if decide (action = "annotate") then
    if in_range line_number lines then
      let comment := "<!-- SEO NOTE: " +:+ code +:+ " -->" +:+ PyStr.newline in
      Ok (concat_lines (PyList.insert lines line_number comment))
    else Raise (ValueError line_number)
  else Ok (concat_lines lines).

Definition SPACE : ascii := ascii_of_nat 32.

Definition _apply_line_patch (content : string) (line_number : Z)
    (action code : string) : Exc exn string :=
  let lines := PyStr.splitlines true content in
  if decide (action = "insert_after_line") then
    if line_number <=? PyList.len lines then
      Ok (concat_lines (PyList.insert lines line_number (code +:+ PyStr.newline)))
    else Raise (ValueError line_number)
  else if decide (action = "replace_line") then
    if in_range line_number lines then
      match PyList.getitem lines (line_number - 1) with
      | Some original_line =>
          let indent :=
            PyStr.len original_line - PyStr.len (PyStr.lstrip original_line) in
          let indented_code :=
            PyStr.repeat_char SPACE indent +:+ PyStr.lstrip code in
          match PyList.setitem lines (line_number - 1)
                  (indented_code +:+ PyStr.newline) with
          | Some lines' => Ok (concat_lines lines')
          | None => Raise IndexError
          end
      | None => Raise IndexError
      end
    else Raise (ValueError line_number)
  else if decide (action = "annotate") then
    if in_range line_number lines then
      let comment := "// SEO NOTE: " +:+ code +:+ PyStr.newline in
      Ok (concat_lines (PyList.insert lines line_number comment))
    else Raise (ValueError line_number)
  else Ok (concat_lines lines).

(** What the engine takes from its surroundings: the directory of the
    backups, the timestamp [datetime.now().strftime("%Y%m%d_%H%M%S")]
    read at the [n]-th backup, and the verdicts of the programs and
    parsers the validators call ([php -l], and BeautifulSoup's count of
    the elements of a tag). *)
Record env : Type := mk_env {
  backup_dir : string;
  timestamp : nat -> string;
  php_lint : string -> option string;
  find_all : string -> string -> nat;
}.

(** The file system with the number of backups taken so far. *)
Record world : Type := mk_world {
  fs : FS.t;
  backups : nat;
}.

Definition with_fs (w : world) (f : FS.t) : world :=
  {| fs := f; backups := backups w |}.

Section engine.
Variable E : env.

Definition create_backup (file_path : string) (w : world)
  : Exc exn string * world :=
  let ts := timestamp E (backups w) in
  let backup_name :=
    PyPath.stem file_path +:+ "_" +:+ ts +:+ PyPath.suffix file_path +:+ ".bak" in
  let backup_path := PyPath.div (backup_dir E) backup_name in
  let w := {| fs := fs w; backups := S (backups w) |} in
  match FS.copy2 file_path backup_path (fs w) with
  | (Ok _, f) => (Ok backup_path, with_fs w f)
  | (Raise e, f) => (Raise e, with_fs w f)
  end.

Definition rollback (file_path backup_path : string) (w : world)
  : bool * world :=
  match FS.copy2 backup_path file_path (fs w) with
  | (Ok _, f) => (true, with_fs w f)
  | (Raise _, f) => (false, with_fs w f)
  end.

Definition dom_types : list string := [".php"; ".html"; ".htm"].
Definition line_types : list string := [".js"; ".jsx"; ".ts"; ".tsx"].

Definition apply_patch (file_path : string) (line_number : Z)
    (action code : string) (file_type : option string) (w : world)
  : (bool * option string * option message) * world :=
  match create_backup file_path w with
  | (Raise e, w) => ((false, None, Some (FailedToApplyPatch e)), w)
  | (Ok backup_path, w) =>
      match FS.read file_path (fs w) with
      | Raise e =>
          let '(_, w) := rollback file_path backup_path w in
          ((false, None, Some (FailedToApplyPatch e)), w)
      | Ok original_content =>
          let file_type :=
            match file_type with
            | Some t => t
            | None => PyPath.lower_str (PyPath.suffix file_path)
            end in
          let patched :=
            if bool_decide (file_type ∈ dom_types) then
              _apply_dom_patch original_content line_number action code
            else
              _apply_line_patch original_content line_number action code in
          match patched with
          | Raise e =>
              let '(_, w) := rollback file_path backup_path w in
              ((false, None, Some (FailedToApplyPatch e)), w)
          | Ok patched_content =>
              ((true, Some backup_path, None),
               with_fs w (FS.write file_path patched_content (fs w)))
          end
      end
  end.

Definition _validate_php (file_path : string) (w : world)
  : bool * option message :=
  match FS.read file_path (fs w) with
  | Raise _ => (false, Some (Text "Could not open input file"))
  | Ok text =>
      match php_lint E text with
      | None => (true, None)
      | Some stderr => (false, Some (Text stderr))
      end
  end.

Definition _validate_html (file_path : string) (w : world)
  : bool * option message :=
  match FS.read file_path (fs w) with
  | Raise e => (false, Some (DomCheckFailed e))
  | Ok text =>
      if (1 <? find_all E "head" text)%nat then
        (false, Some (Text "Multiple <head> tags found - DOM integrity compromised"))
      else if (1 <? find_all E "body" text)%nat then
        (false, Some (Text "Multiple <body> tags found - DOM integrity compromised"))
      else (true, None)
  end.

Definition _validate_js (file_path : string) (w : world)
  : bool * option message :=
  match FS.read file_path (fs w) with
  | Raise e => (false, Some (StrOf e))
  | Ok _ => (true, None)
  end.

Definition validate_patch (file_path : string) (file_type : option string)
    (w : world) : bool * option message :=
  let file_type :=
    match file_type with
    | Some t => t
    | None => PyPath.lower_str (PyPath.suffix file_path)
    end in
  if decide (file_type = ".php") then _validate_php file_path w
  else if bool_decide (file_type ∈ [".html"; ".htm"]) then
    _validate_html file_path w
  else if bool_decide (file_type ∈ line_types) then _validate_js file_path w
  else (true, None).

End engine.
End PatchEngine.

(** ** patch_sandbox.py *)

Module PatchSandbox.
Import PatchEngine.

(** The sandbox directory and [id(self)] as the temp name shows it. *)
Record t : Type := mk {
  sandbox_dir : string;
  self_id : string;
}.

(** A patch function returns [(success, backup_path, error)], a
    validation function [(is_valid, validation_error)]; either may raise,
    and either may change the world before it returns or raises. *)
Definition patch_func : Type :=
  string -> world -> Exc exn (bool * option string * option message) * world.
Definition validate_func : Type :=
  string -> world -> Exc exn (bool * option message) * world.

Section sandbox.
Variable S : t.

Definition temp_path_of (original_path : string) : string :=
  PyPath.div (sandbox_dir S)
    (PyPath.stem original_path +:+ "_temp_" +:+ self_id S
     +:+ PyPath.suffix original_path).

Definition create_temp_copy (original_path : string) (w : world)
  : Exc exn string * world :=
  let temp_path := temp_path_of original_path in
  match FS.copy2 original_path temp_path (fs w) with
  | (Ok _, f) => (Ok temp_path, with_fs w f)
  | (Raise e, f) => (Raise e, with_fs w f)
  end.

(** Returns [(success, temp_path, error_message)]. *)
Definition apply_and_validate (original_path : string)
    (patch : patch_func) (validate : validate_func) (w : world)
  : (bool * option string * option message) * world :=
  match create_temp_copy original_path w with
  | (Raise e, w) => ((false, None, Some (SandboxPatchFailed e)), w)
  | (Ok temp_path, w) =>
      match patch temp_path w with
      | (Raise e, w) =>
          ((false, Some temp_path, Some (SandboxPatchFailed e)), w)
      | (Ok (success, _, error), w) =>
          if negb success then ((false, Some temp_path, error), w)
          else
            match validate temp_path w with
            | (Raise e, w) =>
                ((false, Some temp_path, Some (SandboxPatchFailed e)), w)
            | (Ok (is_valid, validation_error), w) =>
                if negb is_valid then
                  ((false, Some temp_path, validation_error), w)
                else
                  match FS.copy2 temp_path original_path (fs w) with
                  | (Raise e, f) =>
                      ((false, Some temp_path, Some (SandboxPatchFailed e)),
                       with_fs w f)
                  | (Ok _, f) => ((true, Some temp_path, None), with_fs w f)
                  end
            end
      end
  end.

Definition cleanup_temp (temp_path : option string) (w : world) : world :=
  match temp_path with
  | Some p => if FS.exists_ p (fs w) then with_fs w (FS.unlink p (fs w)) else w
  | None => w
  end.

End sandbox.
End PatchSandbox.

(** ** routers/patches.py *)

Module Patches.

Inductive IssueStatus : Type :=
| PENDING | APPROVED | REJECTED | APPLIED | FAILED | SUPERSEDED | CONFLICT.

(** The columns of [issues] the routes read or write; the key of the
    table is the issue id. *)
Record Issue : Type := mk_issue {
  job_id : string;
  file_path : string;
  line_number : Z;
  action : string;
  code : string;
  status : IssueStatus;
  backup_path : option string;
}.

Record PatchHistory : Type := mk_history {
  h_id : Z;
  h_issue_id : Z;
  h_job_id : string;
  h_file_path : string;
  h_backup_path : string;
  h_original_content : string;
  h_patched_content : string;
  h_success : bool;
  h_rollback_available : bool;
}.

(** The state the routes act on: the files, the two tables, and the
    breaker singleton. *)
Record state : Type := mk_state {
  world : PatchEngine.world;
  issues : gmap Z Issue;
  patch_history : list PatchHistory;
  breaker : CircuitBreaker.t;
}.

(** The surroundings: those of the engine, the sandbox singleton, and
    whether the transaction that records an applied issue goes through
    (it raises otherwise).  The other statements sent to the database
    are taken to succeed. *)
Record env : Type := mk_env {
  engine : PatchEngine.env;
  sandbox : PatchSandbox.t;
  commit_ok : Z -> bool;
}.

Inductive result : Type :=
| NotFound (issue_id : Z)
| CircuitBreakerTripped (issue_id : Z)
| Applied (issue_id : Z) (backup_path : string)
| TransactionFailed (issue_id : Z) (error : exn)
| Failed (issue_id : Z) (error : option message)
         (circuit_breaker_status : CircuitBreaker.status).

Definition set_status (st : IssueStatus) (i : Issue) : Issue :=
  {| job_id := job_id i; file_path := file_path i;
     line_number := line_number i; action := action i; code := code i;
     status := st; backup_path := backup_path i |}.

Definition set_applied (backup : string) (i : Issue) : Issue :=
  {| job_id := job_id i; file_path := file_path i;
     line_number := line_number i; action := action i; code := code i;
     status := APPLIED; backup_path := Some backup |}.

Definition set_rolled_back (h : PatchHistory) : PatchHistory :=
  {| h_id := h_id h; h_issue_id := h_issue_id h; h_job_id := h_job_id h;
     h_file_path := h_file_path h; h_backup_path := h_backup_path h;
     h_original_content := h_original_content h;
     h_patched_content := h_patched_content h; h_success := h_success h;
     h_rollback_available := false |}.

Section routes.
Variable E : env.

(** [approval.edited_code if approval.edited_code else issue.code] *)
Definition code_to_apply (edited_code : option string) (issue : Issue)
  : string :=
  match edited_code with
  | Some c => if decide (c = "") then code issue else c
  | None => code issue
  end.

Definition apply_patch_wrapper (issue : Issue) (code_to_apply : string)
  : PatchSandbox.patch_func :=
  fun temp_path w =>
    let '(r, w) :=
      PatchEngine.apply_patch (engine E) temp_path (line_number issue)
        (action issue) code_to_apply None w in
    (Ok r, w).

Definition validate_wrapper : PatchSandbox.validate_func :=
  fun temp_path w =>
    let file_type := PyPath.after_last_dot temp_path in
    (Ok (PatchEngine.validate_patch (engine E) temp_path
           (Some ("." +:+ file_type)) w), w).

(** The [except] branch of the block that records an applied issue. *)
Definition transaction_failed (issue_id : Z) (issue : Issue) (e : exn)
    (w : PatchEngine.world) (s : state) : result * state * bool :=
  let '(_, b) := CircuitBreaker.record_failure (job_id issue) (breaker s) in
  (TransactionFailed issue_id e,
   {| world := w; issues := issues s; patch_history := patch_history s;
      breaker := b |},
   false).

(** One iteration of [for issue_id in approval.issue_ids]: the entry
    appended to [results], the state after it, and whether the loop
    breaks. *)
Definition approve_one (edited_code : option string) (issue_id : Z)
    (s : state) : result * state * bool :=
  match issues s !! issue_id with
  | None => (NotFound issue_id, s, false)
  | Some issue =>
      if CircuitBreaker.is_tripped (breaker s) (job_id issue) then
        (CircuitBreakerTripped issue_id, s, false)
      else
        let code_to_apply := code_to_apply edited_code issue in
        let '((success, temp_path, error), w) :=
          PatchSandbox.apply_and_validate (sandbox E) (file_path issue)
            (apply_patch_wrapper issue code_to_apply) validate_wrapper
            (world s) in
        if success then
          match PatchEngine.create_backup (engine E) (file_path issue) w with
          | (Raise e, w) => transaction_failed issue_id issue e w s
          | (Ok backup, w) =>
              match FS.read (file_path issue) (PatchEngine.fs w),
                    FS.read backup (PatchEngine.fs w) with
              | Ok patched_content, Ok original_content =>
                  if commit_ok E issue_id then
                    let history :=
                      {| h_id := Z.of_nat (length (patch_history s)) + 1;
                         h_issue_id := issue_id;
                         h_job_id := job_id issue;
                         h_file_path := file_path issue;
                         h_backup_path := backup;
                         h_original_content := original_content;
                         h_patched_content := patched_content;
                         h_success := true;
                         h_rollback_available := true |} in
                    (Applied issue_id backup,
                     {| world := PatchSandbox.cleanup_temp temp_path w;
                        issues :=
                          <[issue_id := set_applied backup issue]> (issues s);
                        patch_history := patch_history s ++ [history];
                        breaker :=
                          CircuitBreaker.record_success (job_id issue)
                            (breaker s) |},
                     false)
                  else transaction_failed issue_id issue DatabaseError w s
              | Raise e, _ | _, Raise e =>
                  transaction_failed issue_id issue e w s
              end
          end
        else
          let '(should_stop, b) :=
            CircuitBreaker.record_failure (job_id issue) (breaker s) in
          (Failed issue_id error
             (CircuitBreaker.get_status b (job_id issue)),
           {| world := PatchSandbox.cleanup_temp temp_path w;
              issues := <[issue_id := set_status FAILED issue]> (issues s);
              patch_history := patch_history s;
              breaker := b |},
           should_stop)
  end.

(** The loop, with its [break]. *)
Fixpoint approve_loop (edited_code : option string) (issue_ids : list Z)
    (s : state) : list result * state :=
  match issue_ids with
  | [] => ([], s)
  | issue_id :: rest =>
      let '(r, s, stop) := approve_one edited_code issue_id s in
      if stop then ([r], s)
      else
        let '(rs, s) := approve_loop edited_code rest s in
        (r :: rs, s)
  end.

(** [POST /patches/approve]: [{"total": ..., "results": ...}] *)
Definition approve_issues (issue_ids : list Z) (edited_code : option string)
    (s : state) : (Z * list result) * state :=
  let '(results, s) := approve_loop edited_code issue_ids s in
  ((Z.of_nat (length issue_ids), results), s).

(** The body of the [try] of [rollback_patch]. *)
Definition rollback_patch_body (issue_id : Z) (s : state)
  : Exc exn unit * state :=
  match filter (fun h => h_issue_id h = issue_id) (patch_history s) with
  | [] => (Raise (HTTPException 404), s)
  | [history] =>
      if negb (h_rollback_available history) then
        (Raise (HTTPException 400), s)
      else
        let '(success, w) :=
          PatchEngine.rollback (h_file_path history)
            (h_backup_path history) (world s) in
        if success then
          (Ok tt,
           {| world := w;
              issues := alter (set_status PENDING) issue_id (issues s);
              patch_history :=
                map (fun h => if decide (h_id h = h_id history)
                              then set_rolled_back h else h)
                    (patch_history s);
              breaker := breaker s |})
        else
          (Raise (HTTPException 500),
           {| world := w; issues := issues s;
              patch_history := patch_history s; breaker := breaker s |})
  | _ => (Raise MultipleResultsFound, s)
  end.

(** [POST /patches/rollback/{issue_id}]: every exception of the body,
    the HTTP errors it raises itself included, is caught and raised
    again as a 500. *)
Definition rollback_patch (issue_id : Z) (s : state)
  : Exc exn unit * state :=
  match rollback_patch_body issue_id s with
  | (Ok r, s) => (Ok r, s)
  | (Raise _, s) => (Raise (HTTPException 500), s)
  end.

End routes.
End Patches.

(** ** routers/deduplication.py *)

Module Deduplication.
Import Deduplicator.

(** The statements the route sends to the database, in order:
    [update(Issue).where(Issue.id == id).values(...)]. *)
Inductive db_update : Type :=
| SetSuperseded (issue_id : Z)
| SetConflict (issue_id : Z) (conflict_with : list Z).

Record counters : Type := mk_counters {
  updates : list db_update;
  superseded_count : Z;
  conflict_count : Z;
}.

(** One turn of the loop over [deduplicated];
    [issue_data.get('conflict_with', [])] is [[]] while the key is
    absent. *)
Definition count_one (c : counters) (issue_data : issue) : counters :=
  if decide (status issue_data = "superseded") then
    {| updates := updates c ++ [SetSuperseded (id issue_data)];
       superseded_count := superseded_count c + 1;
       conflict_count := conflict_count c |}
  else if decide (status issue_data = "conflict") then
    {| updates :=
         updates c ++ [SetConflict (id issue_data)
                                   (default [] (conflict_with issue_data))];
       superseded_count := superseded_count c;
       conflict_count := conflict_count c + 1 |}
  else c.

Record answer : Type := mk_answer {
  total_issues : Z;
  superseded : Z;
  conflicts : Z;
  conflict_summary : summary;
}.

(** [deduplicate_job_issues] from the rows the query returned, in the
    order it returned them: the statements sent to the database and the
    answer, or [None] for the answer without counts that an empty result
    gets.  The database accepts the statements. *)
Definition deduplicate_job_issues (issues : list issue)
  : option (list db_update * answer) :=
  match issues with
  | [] => None
  | _ =>
      let deduplicated := deduplicate_issues issues in
      let c := foldl count_one (mk_counters [] 0 0) deduplicated in
      Some (updates c,
            {| total_issues := Z.of_nat (length issues);
               superseded := superseded_count c;
               conflicts := conflict_count c;
               conflict_summary := get_conflict_summary deduplicated |})
  end.

End Deduplication.

(** ** memory_guard.py *)

Module MemoryGuard.

Definition MAX_EXTRACTED_SIZE_BYTES : Z := 500 * 1024 * 1024.

(** What [directory_path.rglob('*')] yields, in its order: for each
    entry whether it is a regular file and, if so, its [st_size]. *)
Inductive item : Type :=
| File (st_size : Z)
| NotAFile.

Section guard.
(** [format_size] works on floats; it is taken as given. *)
Variable format_size : Z -> string.

(** The loop of [check_directory_size], from the running total on. *)
Fixpoint scan (items : list item) (total_size : Z) : bool * Z * string :=
  match items with
  | [] => (true, total_size, format_size total_size)
  | NotAFile :: rest => scan rest total_size
  | File st_size :: rest =>
      let total_size := total_size + st_size in
      if MAX_EXTRACTED_SIZE_BYTES <? total_size then
        (false, total_size, format_size total_size)
      else scan rest total_size
  end.

(** Returns [(is_within_limit, total_size_bytes, formatted_size)]. *)
Definition check_directory_size (items : list item) : bool * Z * string :=
  scan items 0.

(** Returns [(is_within_limit, file_size_bytes)]. *)
Definition check_file_size (file_size : Z) : bool * Z :=
  if MAX_EXTRACTED_SIZE_BYTES <? file_size then (false, file_size)
  else (true, file_size).

End guard.
End MemoryGuard.

(* ================================================================== *)
(** * Terms of the properties *)
(* ================================================================== *)

Section breaker_terms.
Import CircuitBreaker.

(** Counters never go below zero. *)
Definition counts_nonneg (b : t) : Prop :=
  forall k, 0 <= get_failure_count b k.

End breaker_terms.

Section resolver_terms.
Import Deduplicator.

(** The edits of [issues] on the file and line of [x], in input order. *)
Definition group_of (issues : list issue) (x : issue) : list issue :=
  filter (fun y => key_of y = key_of x) issues.

(** Keys in the order of their first occurrence. *)
Definition keys_add (k : key) (ks : list key) : list key :=
  if decide (k ∈ ks) then ks else ks ++ [k].

Definition first_keys (issues : list issue) : list key :=
  foldl (fun ks x => keys_add (key_of x) ks) [] issues.

Definition replace_codes (g : list issue) : list string :=
  map code (filter (fun x => action x = "replace_line") g).

(** Two [replace_line] edits of the group carry different payloads. *)
Definition conflicting (g : list issue) : Prop :=
  exists a b, a ∈ g /\ b ∈ g /\ action a = "replace_line"
              /\ action b = "replace_line" /\ code a ≠ code b.

(** [h] is the first edit of [g] of maximal rank. *)
Definition first_highest (g : list issue) (h : issue) : Prop :=
  exists l1 l2,
    g = l1 ++ h :: l2
    /\ (forall y, y ∈ l1 -> severity_rank y < severity_rank h)
    /\ (forall y, y ∈ l2 -> severity_rank y <= severity_rank h).

(** The record the resolver returns for the edit [z] of the group [g]. *)
Definition resolve_one (g : list issue) (z : issue) : issue :=
  if decide (length g = 1%nat) then z
  else if _check_patch_conflict g then mark_conflict (map id g) z
  else match sorted_desc g with
       | h :: _ => if decide (z = h) then z else mark_superseded h z
       | [] => z
       end.

Definition same_replacement (g : list issue) : Prop :=
  forall a b, a ∈ g -> b ∈ g ->
    action a = "replace_line" -> action b = "replace_line" ->
    code a = code b.

(** Two edits replacing line 10 of one file with different text. *)
Definition edit_a : issue :=
  mk_issue 1 "fileA" 10 "replace_line" "<title>A</title>" "high" "pending"
           None None.
Definition edit_b : issue :=
  mk_issue 2 "fileA" 10 "replace_line" "<title>B</title>" "low" "pending"
           None None.

(** Two edits on line 12 of one file, an insertion and an annotation. *)
Definition edit_c : issue :=
  mk_issue 3 "fileA" 12 "annotate" "check the heading" "low" "pending"
           None None.
Definition edit_d : issue :=
  mk_issue 4 "fileA" 12 "insert_after_line" "<meta name='x'>" "critical"
           "pending" None None.

End resolver_terms.

Section segmenter_terms.
Import Chunker.

Definition range (c : chunk) : Z * Z := (start_line c, end_line c).

(** The segment ends where its tentative end [min(start + chunk_size,
    total_lines)] fell: semantic expansion did not move it. *)
Definition not_expanded (N : Z) (c : chunk) : Prop :=
  end_line c = Z.min (start_line c - 1 + chunk_size chunker) N.

#[global] Instance not_expanded_dec N c : Decision (not_expanded N c).
Proof. unfold not_expanded. apply _. Defined.


(** A page of 200 lines without any block marker. *)
Definition page_200 : string :=
  PyStr.join PyStr.newline (replicate 200 "<p>text</p>").

(** The 0-based lines on which the code sees an opening marker of the
    pattern [p] in the chunk [lines[start:end]]: the line of each match
    of [re.finditer]. *)
Definition open_lines (p : open_pattern) (lines : list string)
    (start end_ : Z) : list Z :=
  let chunk_content :=
    PyStr.chars (PyStr.join PyStr.newline (PyList.slice lines start end_)) in
  map (fun m => start + PyStr.count_newlines (take m chunk_content))
      (finditer p chunk_content).

Definition has_marker (close_pattern : string) (l : string) : bool :=
  search_ci (PyStr.chars close_pattern) (PyStr.chars l).

(** A page whose script block opens on line 170 and closes on line
    210. *)
Definition page_script : string :=
  PyStr.join PyStr.newline
    (replicate 169 "<p>text</p>" ++ ["<script>"]
     ++ replicate 39 "var x = 1;" ++ ["</script>"]
     ++ replicate 40 "<p>more</p>").

(** The same opening, with the closing marker only on line 275, outside
    the window of 100 lines. *)
Definition page_unclosed : string :=
  PyStr.join PyStr.newline
    (replicate 169 "<p>text</p>" ++ ["<script>"]
     ++ replicate 104 "var x = 1;" ++ ["</script>"]
     ++ replicate 40 "<p>more</p>").

(** The block of lines 170 to 210 again, opened on a line that first
    closes a script element of its own:
    [<script src="lib.js"></script><script>]. *)
Definition page_shared_line : string :=
  PyStr.join PyStr.newline
    (replicate 169 "<p>text</p>" ++ ["<script src='lib.js'></script><script>"]
     ++ replicate 39 "var x = 1;" ++ ["</script>"]
     ++ replicate 40 "<p>more</p>").

End segmenter_terms.

Definition TAB : string := String (ascii_of_nat 9) EmptyString.
Definition NL : string := PyStr.newline.

(** The file at [path] is the same in [w'] as in [w], and was not written
    in between. *)
Definition untouched (path : string) (w w' : PatchEngine.world) : Prop :=
  FS.files (PatchEngine.fs w') !! path = FS.files (PatchEngine.fs w) !! path
  /\ FS.writes_to path (PatchEngine.fs w') = FS.writes_to path (PatchEngine.fs w).

Section wrappers_terms.
Import PatchEngine PatchSandbox.

Definition backup_path_of (E : PatchEngine.env) (file_path : string)
    (w : world) : string :=
  PyPath.div (backup_dir E)
    (PyPath.stem file_path +:+ "_" +:+ timestamp E (backups w)
     +:+ PyPath.suffix file_path +:+ ".bak").

End wrappers_terms.

(** An approval on a page whose patched text has two [head] elements: the
    HTML validation fails in the sandbox. *)
Definition engine_env : PatchEngine.env :=
  {| PatchEngine.backup_dir := "/app/backups";
     PatchEngine.timestamp := fun _ => "20260101_120000";
     PatchEngine.php_lint := fun _ => None;
     PatchEngine.find_all := fun tag text =>
       if decide (tag = "head")
       then length (Chunker.finditer (Chunker.OpenTag "head") (PyStr.chars text))
       else 1%nat |}.

Definition the_sandbox : PatchSandbox.t :=
  {| PatchSandbox.sandbox_dir := "/tmp/seo_checker_sandbox";
     PatchSandbox.self_id := "140230" |}.

Definition routes_env : Patches.env :=
  {| Patches.engine := engine_env;
     Patches.sandbox := the_sandbox;
     Patches.commit_ok := fun _ => true |}.

Definition head_issue : Patches.Issue :=
  {| Patches.job_id := "J1";
     Patches.file_path := "/site/index.html";
     Patches.line_number := 1;
     Patches.action := "insert_after_line";
     Patches.code := "<head></head>";
     Patches.status := Patches.APPROVED;
     Patches.backup_path := None |}.

Definition site_world : PatchEngine.world :=
  {| PatchEngine.fs :=
       {| FS.files := {[ "/site/index.html" := "<head></head>" +:+ NL ]};
          FS.written := [] |};
     PatchEngine.backups := 0 |}.

Section approval_terms.
Import Patches.

Definition content_of (path : string) (s : state) : option string :=
  FS.files (PatchEngine.fs (world s)) !! path.

(** One approved insertion into a script of one line. *)
Definition js_issue : Issue :=
  {| job_id := "J1"; file_path := "/site/app.js"; line_number := 1;
     action := "insert_after_line"; code := "let b = 2;";
     status := APPROVED; backup_path := None |}.

Definition js_state : state :=
  {| world :=
       {| PatchEngine.fs :=
            {| FS.files := {[ "/site/app.js" := "let a = 1;" +:+ NL ]};
               FS.written := [] |};
          PatchEngine.backups := 0 |};
     issues := {[ 7 := js_issue ]};
     patch_history := [];
     breaker := CircuitBreaker.init |}.





End approval_terms.

Section breaker_frame_terms.
Import CircuitBreaker.

(** The job a call is about. *)
Definition call_job (c : call) : string :=
  match c with
  | RecordFailure k | RecordSuccess k | IsTripped k
  | GetFailureCount k | GetStatus k | ResetJob k => k
  end.

(** The invariant of the two dictionaries behind the status report: a
    counter at or above the threshold comes with the flag, and every key
    of [tripped] is a key of [failures]. *)
Definition latched (b : t) : Prop :=
  forall k,
    (FAILURE_THRESHOLD <= get_failure_count b k -> is_tripped b k = true)
    /\ (is_Some (tripped b !! k) -> is_Some (failures b !! k)).

End breaker_frame_terms.

Section summary_terms.
Import Deduplicator.

(** What the resolver leaves alone in an edit: everything but [status],
    [conflict_with] and [superseded_by]. *)
Definition edit_of (x : issue) : Z * key * string * string * string :=
  (id x, key_of x, action x, code x, severity x).

(** The edits of [issues] on the file and line [k], in input order. *)
Definition line_group (issues : list issue) (k : key) : list issue :=
  filter (fun y => key_of y = k) issues.

(** The lines with a conflict, and the lines without, in the order of
    their first edit. *)
Definition conflict_keys (issues : list issue) : list key :=
  filter (fun k => _check_patch_conflict (line_group issues k) = true)
         (first_keys issues).

Definition quiet_keys (issues : list issue) : list key :=
  filter (fun k => _check_patch_conflict (line_group issues k) = false)
         (first_keys issues).

(** An edit the resolver has not marked yet, as the route selects
    them. *)
Definition unmarked (x : issue) : Prop :=
  status x ≠ "conflict" /\ status x ≠ "superseded".

(** Descending by rank, the order [sorted(..., reverse=True)] leaves. *)
Fixpoint descending (l : list issue) : Prop :=
  match l with
  | [] => True
  | x :: l' =>
      match l' with
      | [] => True
      | y :: _ => severity_rank y <= severity_rank x
      end /\ descending l'
  end.

Definition sum_counts (es : list conflict_entry) : Z :=
  foldr (fun e n => ce_issue_count e + n) 0 es.

Definition entry_key (e : conflict_entry) : key :=
  (ce_file_path e, ce_line_number e).

End summary_terms.

Section segment_chain_terms.
Import Chunker.

(** The most lines a closing marker can lie past the tentative end:
    the search starts on a line of the segment and looks at
    [max_search_default] lines. *)
Definition max_expansion : Z := max_search_default - 1.

(** The line ranges the loop can produce from the 0-based line [s] on,
    in a file of [N] lines: a range ends at the last line, or at least
    [chunk_size] and at most [chunk_size + max_expansion] lines after
    [s], and then the next range starts [overlap] lines before that
    end. *)
Inductive chain_ranges (N : Z) : Z -> list (Z * Z) -> Prop :=
| chain_last s :
    0 <= s < N -> N <= s + chunk_size chunker + max_expansion ->
    chain_ranges N s [(s + 1, N)]
| chain_more s e rs :
    0 <= s -> s + chunk_size chunker <= e ->
    e <= s + chunk_size chunker + max_expansion -> e < N ->
    chain_ranges N (e - overlap chunker) rs ->
    chain_ranges N s ((s + 1, e) :: rs).

(** The lines [a .. b] of a file, 1-based and inclusive. *)
Definition lines_between (lines : list string) (a b : Z) : list string :=
  PyList.slice lines (a - 1) b.

End segment_chain_terms.

Section text_edit_terms.
Import PatchEngine.

(** The text of the first [n] lines of [content], and of the others. *)
Definition text_before (content : string) (n : Z) : string :=
  concat_lines (take (Z.to_nat n) (PyStr.splitlines true content)).

Definition text_after (content : string) (n : Z) : string :=
  concat_lines (drop (Z.to_nat n) (PyStr.splitlines true content)).

(** The three actions the strategies know. *)
Definition known_action (action : string) : Prop :=
  action = "insert_after_line" \/ action = "replace_line"
  \/ action = "annotate".

(** The line the line strategy writes in place of [original_line]. *)
Definition reindented (original_line code : string) : string :=
  PyStr.repeat_char SPACE
    (PyStr.len original_line - PyStr.len (PyStr.lstrip original_line))
  +:+ PyStr.lstrip code.

End text_edit_terms.

Section engine_terms.
Import PatchEngine.

(** The text of the file at [path], if there is one. *)
Definition file_text (path : string) (w : world) : option string :=
  FS.files (fs w) !! path.

(** The edit [apply_patch] makes to the text it read: the strategy goes
    by the file type given or, without one, by the lower-cased
    extension. *)
Definition patch_text (file_path : string) (file_type : option string)
    (content : string) (line_number : Z) (action code : string)
  : Exc exn string :=
  let file_type :=
    match file_type with
    | Some t => t
    | None => PyPath.lower_str (PyPath.suffix file_path)
    end in
  if bool_decide (file_type ∈ dom_types) then
    _apply_dom_patch content line_number action code
  else _apply_line_patch content line_number action code.

End engine_terms.

Section scratch_terms.

(** No character of [s] is a slash, as in the decimal digits of
    [id(self)]. *)
Definition no_slash (s : string) : Prop :=
  existsb PyPath.is_slash (PyStr.chars s) = false.

End scratch_terms.

Section rollback_terms.
Import Patches.

(** The rows of the patch history the rollback route selects for an
    issue. *)
Definition history_of (issue_id : Z) (s : state) : list PatchHistory :=
  filter (fun h => h_issue_id h = issue_id) (patch_history s).

(** The state after the edit of [js_state] was approved and rolled
    back. *)
Definition rolled_back_state : state :=
  (rollback_patch 7 (approve_issues routes_env [7] None js_state).2).2.

End rollback_terms.

Section approval_frame_terms.
Import Patches.



(** The surroundings in which the transaction that records an applied
    issue fails. *)
Definition failing_commit_env : env :=
  {| engine := engine_env; sandbox := the_sandbox;
     commit_ok := fun _ => false |}.

(** The files only gain writes from [w] to [w']. *)
Definition grows (w w' : PatchEngine.world) : Prop :=
  FS.written (PatchEngine.fs w) `prefix_of` FS.written (PatchEngine.fs w').

End approval_frame_terms.





Section guard_terms.
Import MemoryGuard.

Definition size_of (i : item) : Z :=
  match i with File n => n | NotAFile => 0 end.

(** The size of a directory: the sum of the sizes of its files. *)
Fixpoint directory_size (items : list item) : Z :=
  match items with
  | [] => 0
  | i :: rest => size_of i + directory_size rest
  end.

Definition sizes_nonneg (items : list item) : Prop :=
  Forall (fun i => 0 <= size_of i) items.

End guard_terms.

Section status_terms.
Import Patches.

(** The state [s] in which the issue [issue_id] has the status [st]. *)
Definition with_status (issue_id : Z) (st : IssueStatus) (s : state)
  : state :=
  {| world := world s;
     issues := alter (set_status st) issue_id (issues s);
     patch_history := patch_history s;
     breaker := breaker s |}.

(** The edit of [js_state], rejected. *)
Definition rejected_state : state := with_status 7 REJECTED js_state.

End status_terms.

(* ================================================================== *)
(** * Properties *)
(* ================================================================== *)

(** ** Failure breaker *)

Section breaker.
Import CircuitBreaker.

#[local] Ltac breaker_cases :=
  unfold record_failure, record_success, reset, get_failure_count,
    is_tripped, dd_get; simpl;
  repeat match goal with
    | |- context [match ?m !! ?k with _ => _ end] =>
        let E := fresh "E" in destruct (m !! k) eqn:E; simpl
    | |- context [if ?a <=? ?b then _ else _] =>
        let E := fresh "E" in destruct (a <=? b) eqn:E; simpl
    | |- context [if ?a <? ?b then _ else _] =>
        let E := fresh "E" in destruct (a <? b) eqn:E; simpl
    | |- context [if negb ?b then _ else _] => destruct b; simpl
    end;
  repeat case_decide; subst; simplify_map_eq; try done; try lia.

Lemma count_record_failure k j b :
  get_failure_count (snd (record_failure k b)) j =
  if decide (k = j) then get_failure_count b k + 1
  else get_failure_count b j.
Proof. breaker_cases. Qed.

Lemma tripped_record_failure k j b :
  is_tripped (snd (record_failure k b)) j =
  if decide (k = j)
  then (FAILURE_THRESHOLD <=? get_failure_count b k + 1) || is_tripped b k
  else is_tripped b j.
Proof. breaker_cases. Qed.


Lemma count_record_success k j b :
  get_failure_count (record_success k b) j =
  if decide (k = j) then Z.min 0 (get_failure_count b k)
  else get_failure_count b j.
Proof. breaker_cases. Qed.

Lemma tripped_record_success k j b :
  is_tripped (record_success k b) j = is_tripped b j.
Proof. breaker_cases. Qed.

Lemma count_reset k j b :
  get_failure_count (reset k b) j =
  if decide (k = j) then 0 else get_failure_count b j.
Proof. breaker_cases. Qed.

Lemma tripped_reset k j b :
  is_tripped (reset k b) j =
  if decide (k = j) then false else is_tripped b j.
Proof. breaker_cases. Qed.

Lemma counts_nonneg_init : counts_nonneg init.
Proof. intros k. unfold get_failure_count, init. simpl. by rewrite lookup_empty. Qed.

Lemma counts_nonneg_step b c : counts_nonneg b -> counts_nonneg (step b c).
Proof.
  intros H j. destruct c as [k|k|k|k|k|k]; simpl; auto.
  - rewrite count_record_failure. case_decide; [specialize (H k); lia | auto].
  - rewrite count_record_success. case_decide; [|auto].
    specialize (H k). lia.
  - rewrite count_reset. case_decide; [lia | auto].
Qed.

Lemma counts_nonneg_run cs : counts_nonneg (run cs).
Proof.
  unfold run. induction cs as [|c cs IH] using rev_ind.
  - apply counts_nonneg_init.
  - rewrite foldl_app. simpl. by apply counts_nonneg_step.
Qed.

Lemma run_snoc cs c : run (cs ++ [c]) = step (run cs) c.
Proof. unfold run. by rewrite foldl_app. Qed.

Lemma run_app_fold cs ds : run (cs ++ ds) = foldl step (run cs) ds.
Proof. unfold run. by rewrite foldl_app. Qed.

(** Repeated failures only ever raise the counter. *)
Lemma count_failures_repeat k n b :
  get_failure_count (foldl step b (replicate n (RecordFailure k))) k =
  get_failure_count b k + Z.of_nat n.
Proof.
  revert b. induction n as [|n IH]; intros b; simpl; [lia|].
  rewrite IH, count_record_failure. case_decide; [lia | done].
Qed.

Lemma tripped_failures_repeat k n b :
  counts_nonneg b ->
  FAILURE_THRESHOLD <= Z.of_nat n ->
  is_tripped (foldl step b (replicate n (RecordFailure k))) k = true.
Proof.
  intros Hb Hn. destruct n as [|n]; [unfold FAILURE_THRESHOLD in Hn; lia|].
  replace (S n) with (n + 1)%nat by lia.
  rewrite replicate_add, foldl_app. simpl.
  rewrite tripped_record_failure. case_decide; [|done].
  rewrite count_failures_repeat.
  apply orb_true_iff. left. apply Z.leb_le.
  specialize (Hb k). lia.
Qed.

(** C3 (breaker one-way latch).  After any sequence of calls, five
    consecutive [record_failure k] make [is_tripped k] true; on a tripped
    key [record_success k] puts the failure counter back to 0 and leaves
    the key tripped; a single call that turns a tripped key into an
    untripped one is [reset k], and [reset k] does clear the flag. *)
Theorem breaker_one_way_latch (k : string) (cs : list call) :
  let b := run cs in
  is_tripped (run (cs ++ replicate 5 (RecordFailure k))) k = true
  /\ (is_tripped b k = true ->
      get_failure_count (record_success k b) k = 0
      /\ is_tripped (record_success k b) k = true)
  /\ (forall c, is_tripped b k = true ->
                is_tripped (step b c) k = false -> c = ResetJob k)
  /\ is_tripped (reset k b) k = false.
Proof.
  intros b. repeat split.
  - rewrite run_app_fold.
    apply tripped_failures_repeat; [apply counts_nonneg_run | done].
  - rewrite count_record_success. case_decide; [|done].
    pose proof (counts_nonneg_run cs k). fold b in H1. lia.
  - by rewrite tripped_record_success.
  - intros c Ht Hf. destruct c as [j|j|j|j|j|j]; simpl in Hf;
      try congruence.
    + rewrite tripped_record_failure in Hf. case_decide; subst.
      * rewrite Ht, orb_true_r in Hf. done.
      * congruence.
    + rewrite tripped_record_success in Hf. congruence.
    + rewrite tripped_reset in Hf. case_decide; subst; [done | congruence].
  - rewrite tripped_reset. by case_decide.
Qed.

(** The latch on the job ["J1"], after four failures and one success. *)
Lemma breaker_one_way_latch_witness :
  let cs := replicate 4 (RecordFailure "J1") ++ [RecordSuccess "J1"] in
  is_tripped (run (cs ++ replicate 5 (RecordFailure "J1"))) "J1" = true
  /\ is_tripped
       (record_success "J1" (run (cs ++ replicate 5 (RecordFailure "J1"))))
       "J1" = true.
Proof.
  intros cs. split.
  - exact (proj1 (breaker_one_way_latch "J1" cs)).
  - pose proof (breaker_one_way_latch "J1"
                  (cs ++ replicate 5 (RecordFailure "J1"))) as H.
    simpl in H. destruct H as (_ & H & _).
    apply H. exact (proj1 (breaker_one_way_latch "J1" cs)).
Defined.

End breaker.

(** ** Conflict resolver *)

Section resolver.
Import Deduplicator.

Lemma first_keys_snoc l x :
  first_keys (l ++ [x]) = keys_add (key_of x) (first_keys l).
Proof. unfold first_keys. by rewrite foldl_app. Qed.

Lemma first_keys_NoDup l : NoDup (first_keys l).
Proof.
  induction l as [|x l IH] using rev_ind; [constructor|].
  rewrite first_keys_snoc. unfold keys_add. case_decide; [done|].
  apply NoDup_app. split; [done|]. split; [|apply NoDup_singleton].
  intros k Hk Hin. apply list_elem_of_singleton in Hin. subst. done.
Qed.

Lemma first_keys_elem l k : k ∈ first_keys l <-> k ∈ map key_of l.
Proof.
  induction l as [|x l IH] using rev_ind; [done|].
  rewrite first_keys_snoc, map_app. simpl. unfold keys_add.
  rewrite elem_of_app, list_elem_of_singleton, <- IH.
  case_decide; [|rewrite elem_of_app, list_elem_of_singleton; tauto].
  split; [tauto|]. intros [?| ->]; done.
Qed.

Lemma filter_snoc_other (x : issue) l k :
  key_of x ≠ k ->
  filter (fun y => key_of y = k) (l ++ [x]) = filter (fun y => key_of y = k) l.
Proof.
  intros H. rewrite filter_app, filter_cons_False, filter_nil, app_nil_r; done.
Qed.

Lemma group_add_map x l ks :
  NoDup ks ->
  (key_of x ∉ ks -> filter (fun y => key_of y = key_of x) l = []) ->
  group_add (key_of x) x
    (map (fun k' => (k', filter (fun y => key_of y = k') l)) ks)
  = map (fun k' => (k', filter (fun y => key_of y = k') (l ++ [x])))
        (keys_add (key_of x) ks).
Proof.
  intros Hnd Hfresh. unfold keys_add.
  induction ks as [|k' ks IH].
  - rewrite decide_False by apply not_elem_of_nil. simpl.
    rewrite filter_app, Hfresh by (apply not_elem_of_nil).
    rewrite filter_cons_True by done. done.
  - apply NoDup_cons in Hnd as [Hk' Hnd]. simpl.
    destruct (decide (key_of x = k')) as [<-|Hne].
    + rewrite decide_True by (left). simpl. f_equal.
      * rewrite filter_app. f_equal. by rewrite filter_cons_True.
      * apply map_ext_in. intros k'' Hin%list_elem_of_In.
        rewrite filter_snoc_other; [done|]. intros <-. done.
    + destruct (decide (key_of x ∈ ks)) as [Hin|Hin].
      * rewrite decide_True by (by right). simpl.
        rewrite filter_snoc_other by done. f_equal.
        apply IH; [done|]. intros H. by destruct H.
      * rewrite decide_False by (intros [?|?]%elem_of_cons; done).
        simpl. rewrite filter_snoc_other by done. f_equal.
        assert (key_of x ∉ k' :: ks) as Hn
          by (intros [?|?]%elem_of_cons; done).
        apply IH; [done|]. intros _. by apply Hfresh.
Qed.

(** The groups the code builds are the [group_of] lists, one per key, in
    the order in which the keys first occur. *)
Lemma grouped_spec l :
  grouped l =
  map (fun k => (k, filter (fun y => key_of y = k) l)) (first_keys l).
Proof.
  induction l as [|x l IH] using rev_ind; [done|].
  unfold grouped in *. rewrite foldl_app. simpl. rewrite IH.
  rewrite first_keys_snoc. apply group_add_map; [apply first_keys_NoDup|].
  intros Hk. rewrite first_keys_elem in Hk. clear IH.
  induction l as [|y l IHl]; [done|]. simpl in Hk.
  rewrite filter_cons_False.
  - apply IHl. intros ?; apply Hk; by right.
  - intros E. apply Hk. rewrite E. by left.
Qed.
(** *** Conflict detection *)

Lemma check_fold g (a c : gset string) :
  foldl (fun (acc : gset string * gset string) x =>
           if decide (action x = "replace_line")
           then ({[action x]} ∪ acc.1, {[code x]} ∪ acc.2)
           else acc) (a, c) g
  = (list_to_set (map action (filter (fun x => action x = "replace_line") g)) ∪ a,
     list_to_set (replace_codes g) ∪ c).
Proof.
  unfold replace_codes. revert a c.
  induction g as [|x g IH]; intros a c; simpl.
  - f_equal; set_solver.
  - case_decide as E.
    + rewrite IH, !filter_cons_True by done. simpl. f_equal; set_solver.
    + rewrite IH, !filter_cons_False by done. done.
Qed.

Lemma size_gt1_iff (X : gset string) :
  (1 < size X)%nat <-> exists a b, a ∈ X /\ b ∈ X /\ a ≠ b.
Proof.
  split.
  - intros H. destruct (size_pos_elem_of X) as [a Ha]; [lia|].
    destruct (size_pos_elem_of (X ∖ {[a]})) as [b Hb].
    + rewrite size_difference by set_solver. rewrite size_singleton. lia.
    + exists a, b. set_solver.
  - intros (a & b & Ha & Hb & Hab).
    assert (({[a]} ∪ {[b]} : gset string) ⊆ X) as Hsub by set_solver.
    apply subseteq_size in Hsub.
    rewrite size_union in Hsub by set_solver.
    rewrite !size_singleton in Hsub. lia.
Qed.

Lemma check_patch_conflict_spec g :
  _check_patch_conflict g = true <-> conflicting g.
Proof.
  unfold _check_patch_conflict. rewrite check_fold.
  rewrite andb_true_iff, !bool_decide_eq_true, size_gt1_iff.
  unfold conflicting, replace_codes. split.
  - intros [_ (a & b & Ha & Hb & Hab)].
    apply elem_of_union in Ha as [Ha|Ha]; [|set_solver].
    apply elem_of_union in Hb as [Hb|Hb]; [|set_solver].
    apply elem_of_list_to_set, list_elem_of_fmap in Ha as (x & -> & Hx).
    apply elem_of_list_to_set, list_elem_of_fmap in Hb as (y & -> & Hy).
    apply list_elem_of_filter in Hx as [? ?].
    apply list_elem_of_filter in Hy as [? ?].
    exists x, y. done.
  - intros (x & y & Hx & Hy & Ax & Ay & Hc). split.
    + apply elem_of_union. left. apply elem_of_list_to_set.
      apply list_elem_of_fmap. exists x. split; [done|].
      by apply list_elem_of_filter.
    + exists (code x), (code y). repeat split; [| |done].
      * apply elem_of_union. left. apply elem_of_list_to_set.
        apply list_elem_of_fmap. exists x. split; [done|].
        by apply list_elem_of_filter.
      * apply elem_of_union. left. apply elem_of_list_to_set.
        apply list_elem_of_fmap. exists y. split; [done|].
        by apply list_elem_of_filter.
Qed.

(** *** The stable descending sort *)

Lemma insert_desc_perm x l : insert_desc x l ≡ₚ x :: l.
Proof.
  induction l as [|y l IH]; simpl; [done|].
  destruct (severity_rank x <? severity_rank y); [|done].
  rewrite IH. apply Permutation_swap.
Qed.

Lemma sorted_desc_perm l : sorted_desc l ≡ₚ l.
Proof.
  induction l as [|x l IH]; simpl; [done|].
  by rewrite insert_desc_perm, IH.
Qed.

Lemma sorted_desc_head g :
  g ≠ [] -> exists h rest, sorted_desc g = h :: rest /\ first_highest g h.
Proof.
  induction g as [|x g IH]; [done|]. intros _.
  destruct g as [|y g].
  - exists x, []. split; [done|]. exists [], [].
    split; [done|]. split; intros ? []%elem_of_nil.
  - destruct IH as (h & rest & Hs & l1 & l2 & Hg & H1 & H2); [done|].
    change (sorted_desc (x :: y :: g)) with (insert_desc x (sorted_desc (y :: g))).
    rewrite Hs. simpl.
    destruct (severity_rank x <? severity_rank h) eqn:E.
    + apply Z.ltb_lt in E. exists h, (insert_desc x rest). split; [done|].
      exists (x :: l1), l2. rewrite Hg. split; [done|]. split; [|done].
      intros z [->|Hz]%elem_of_cons; auto.
    + apply Z.ltb_ge in E. exists x, (h :: rest). split; [done|].
      exists [], (y :: g). split; [done|].
      split; [intros ? []%elem_of_nil|].
      intros z Hz. rewrite Hg in Hz.
      apply elem_of_app in Hz as [Hz|[->|Hz]%elem_of_cons].
      * specialize (H1 _ Hz). lia.
      * done.
      * specialize (H2 _ Hz). lia.
Qed.

(** *** What the resolver returns for one edit *)

Lemma resolve_group_elem g y :
  NoDup g ->
  y ∈ resolve_group g <-> exists z, z ∈ g /\ y = resolve_one g z.
Proof.
  intros Hnd. unfold resolve_group, resolve_one.
  case_decide; [naive_solver|].
  destruct (_check_patch_conflict g).
  { rewrite list_elem_of_In, in_map_iff.
    setoid_rewrite <- list_elem_of_In. naive_solver. }
  pose proof (sorted_desc_perm g) as Hp.
  destruct (sorted_desc g) as [|h rest] eqn:E.
  { apply Permutation_nil in Hp. subst. split; [by intros ?%elem_of_nil|].
    by intros (? & ?%elem_of_nil & _). }
  assert (NoDup (h :: rest)) as Hnd' by (by rewrite Hp).
  apply NoDup_cons in Hnd' as [Hh _].
  setoid_rewrite <- Hp. rewrite elem_of_cons.
  rewrite list_elem_of_In, in_map_iff. setoid_rewrite <- list_elem_of_In.
  setoid_rewrite elem_of_cons. split.
  - intros [->|(z & <- & Hz)].
    + exists h. rewrite decide_True by done. auto.
    + exists z. rewrite decide_False by (intros ->; done). auto.
  - intros (z & [->|Hz] & ->).
    + rewrite decide_True by done. auto.
    + rewrite decide_False by (intros ->; done). right. eauto.
Qed.

Lemma resolve_one_id g z : id (resolve_one g z) = id z.
Proof.
  unfold resolve_one. case_decide; [done|].
  destruct (_check_patch_conflict g); [done|].
  destruct (sorted_desc g); [done|]. by case_decide.
Qed.

Lemma NoDup_of_ids (l : list issue) : NoDup (map id l) -> NoDup l.
Proof. apply (NoDup_fmap_1 id). Qed.

Lemma ids_inj (l : list issue) x y :
  NoDup (map id l) -> x ∈ l -> y ∈ l -> id x = id y -> x = y.
Proof.
  induction l as [|z l IH]; simpl; [by intros _ ?%elem_of_nil|].
  intros [Hz Hnd]%NoDup_cons [->|Hx]%elem_of_cons [->|Hy]%elem_of_cons E;
    auto; exfalso; apply Hz; apply list_elem_of_In, in_map_iff.
  - exists y. split; [done|]. by apply list_elem_of_In.
  - exists x. split; [done|]. by apply list_elem_of_In.
Qed.



(** The resolver returns, for every edit of the input and nothing else,
    the record [resolve_one] computes from the edit's group. *)
Lemma deduplicate_issues_elem l y :
  NoDup (map id l) ->
  y ∈ deduplicate_issues l <->
  exists x, x ∈ l /\ y = resolve_one (group_of l x) x.
Proof.
  intros Hnd%NoDup_of_ids. unfold deduplicate_issues.
  rewrite grouped_spec, list_elem_of_In, in_flat_map.
  setoid_rewrite in_map_iff. setoid_rewrite <- list_elem_of_In. split.
  - intros ([k g] & (k' & [= <- <-] & Hk) & Hy). simpl in Hy.
    apply resolve_group_elem in Hy as (z & Hz & ->);
      [|by apply NoDup_filter].
    apply list_elem_of_filter in Hz as [Hkz Hz].
    exists z. split; [done|]. unfold group_of. by rewrite Hkz.
  - intros (x & Hx & ->). exists (key_of x, group_of l x). split.
    + exists (key_of x). split; [done|]. apply first_keys_elem.
      apply list_elem_of_In, in_map, list_elem_of_In. done.
    + simpl. apply resolve_group_elem; [by apply NoDup_filter|].
      exists x. split; [|done]. by apply list_elem_of_filter.
Qed.

(** With distinct ids, the returned record carrying the id of [x] is the
    one computed from [x]. *)
Lemma deduplicate_issues_at l x y :
  NoDup (map id l) -> x ∈ l ->
  (y ∈ deduplicate_issues l /\ id y = id x)
  <-> y = resolve_one (group_of l x) x.
Proof.
  intros Hnd Hx. rewrite deduplicate_issues_elem by done. split.
  - intros [(x' & Hx' & ->) Hid]. rewrite resolve_one_id in Hid.
    by rewrite (ids_inj l x' x Hnd Hx' Hx Hid).
  - intros ->. split; [eauto|]. apply resolve_one_id.
Qed.

Lemma conflicting_length g : conflicting g -> length g ≠ 1%nat.
Proof.
  intros (a & b & Ha & Hb & _ & _ & Hc) Hl.
  destruct g as [|z [|? ?]]; try done.
  apply list_elem_of_singleton in Ha, Hb. congruence.
Qed.

Lemma other_ids g x :
  NoDup (map id g) -> x ∈ g ->
  filter (fun i => i ≠ id x) (map id g)
  = map id (filter (fun z => z ≠ x) g).
Proof.
  intros Hnd Hx.
  assert (forall z, z ∈ g -> id z ≠ id x <-> z ≠ x) as Hiff.
  { intros z Hz. split; [congruence|].
    intros Hne E. apply Hne. by apply (ids_inj g). }
  clear Hnd Hx. induction g as [|z g IH]; [done|]. simpl.
  rewrite !filter_cons.
  pose proof (Hiff z ltac:(by left)) as Hz.
  rewrite IH by (intros; apply Hiff; by right).
  repeat case_decide; tauto || done.
Qed.

Lemma ids_NoDup_filter (P : issue -> Prop) `{forall z, Decision (P z)} l :
  NoDup (map id l) -> NoDup (map id (filter P l)).
Proof.
  intros Hnd. eapply sublist_NoDup; [exact Hnd|].
  apply (fmap_sublist id), sublist_filter.
Qed.

Lemma same_replacement_check g :
  same_replacement g -> _check_patch_conflict g = false.
Proof.
  intros H. apply not_true_is_false. rewrite check_patch_conflict_spec.
  intros (a & b & Ha & Hb & Aa & Ab & Hc). apply Hc. by apply H.
Qed.

(** C5 (resolver conflict rule).  Let [g] be the edits of the input on
    the file and line of [x].  If two [replace_line] edits of [g] carry
    different payloads, the record returned for [x] is [x] with status
    ["conflict"] and [conflict_with] listing the ids of all other edits
    of [g].  If the [replace_line] payloads of [g] are all equal (in
    particular if [g] holds only insertions and annotations), the record
    returned for [x] is [x] itself or [x] marked superseded: the resolver
    does not mark it as a conflict. *)
Theorem resolver_conflict_rule (issues : list issue) (x : issue) :
  NoDup (map id issues) -> x ∈ issues ->
  let g := group_of issues x in
  (conflicting g ->
     (forall y, (y ∈ deduplicate_issues issues /\ id y = id x)
                <-> y = mark_conflict (map id g) x)
     /\ status (mark_conflict (map id g) x) = "conflict"
     /\ conflict_with (mark_conflict (map id g) x)
        = Some (map id (filter (fun z => z ≠ x) g)))
  /\ (same_replacement g ->
      forall y, y ∈ deduplicate_issues issues -> id y = id x ->
                y = x \/ exists h, h ∈ g /\ y = mark_superseded h x).
Proof.
  intros Hnd Hx g. split.
  - intros Hc. split; [|split; [done|]].
    + intros y. rewrite deduplicate_issues_at by done.
      unfold resolve_one. fold g.
      rewrite decide_False by (by apply conflicting_length).
      apply check_patch_conflict_spec in Hc. by rewrite Hc.
    + simpl. f_equal. apply other_ids.
      * by apply ids_NoDup_filter.
      * by apply list_elem_of_filter.
  - intros Hs y Hy Hid.
    assert (y = resolve_one g x) as ->
      by (by apply (deduplicate_issues_at issues x y)).
    unfold resolve_one. case_decide; [by left|].
    rewrite same_replacement_check by done.
    pose proof (sorted_desc_perm g) as Hp.
    destruct (sorted_desc g) as [|h rest]; [by left|].
    case_decide; [by left|]. right. exists h. split; [|done].
    rewrite <- Hp. by left.
Qed.


Lemma resolver_conflict_rule_witness :
  (mark_conflict [1; 2] edit_a ∈ deduplicate_issues [edit_a; edit_b]
   /\ id (mark_conflict [1; 2] edit_a) = id edit_a)
  /\ conflict_with (mark_conflict [1; 2] edit_a) = Some [2].
Proof.
  assert (NoDup (map id [edit_a; edit_b])) as Hnd
    by compute_done.
  assert (edit_a ∈ [edit_a; edit_b]) as Hin by (by left).
  assert (conflicting (group_of [edit_a; edit_b] edit_a)) as Hc.
  { change (group_of [edit_a; edit_b] edit_a) with [edit_a; edit_b].
    exists edit_a, edit_b.
    split; [by left|]. split; [right; by left|]. done. }
  destruct (resolver_conflict_rule [edit_a; edit_b] edit_a Hnd Hin)
    as [H _].
  destruct (H Hc) as (H1 & _ & H3). split.
  - apply (proj2 (H1 _)). reflexivity.
  - exact H3.
Defined.


(** The second scenario of the specification, evaluated: the critical
    edit is returned unchanged and first, the low one superseded by it. *)
Example deduplicate_critical_low :
  deduplicate_issues [edit_c; edit_d]
  = [edit_d; mark_superseded edit_d edit_c].
Proof. reflexivity. Qed.

Example deduplicate_conflict :
  deduplicate_issues [edit_a; edit_b]
  = [mark_conflict [1; 2] edit_a; mark_conflict [1; 2] edit_b].
Proof. reflexivity. Qed.

End resolver.

(** ** Segmenter *)

Section segmenter.
Import Chunker.

Lemma find_closing_tag_Some lines s close total m i :
  _find_closing_tag lines s close total m = Some i ->
  s <= i < s + m /\ i < total
  /\ exists l, PyList.getitem lines i = Some l
               /\ search_ci (PyStr.chars close) (PyStr.chars l) = true.
Proof.
  unfold _find_closing_tag. intros H. apply find_some in H as [Hin Hf].
  apply list_elem_of_In, elem_of_seqZ in Hin.
  split; [lia|]. split; [lia|].
  destruct (PyList.getitem lines i) as [l|]; [eauto | done].
Qed.

Lemma find_closing_tag_None lines s close total m :
  _find_closing_tag lines s close total m = None ->
  forall i l, s <= i < Z.min (s + m) total ->
    PyList.getitem lines i = Some l ->
    search_ci (PyStr.chars close) (PyStr.chars l) = false.
Proof.
  unfold _find_closing_tag. intros H i l Hi Hl.
  pose proof (find_none _ _ H i) as Hn. simpl in Hn. rewrite Hl in Hn.
  apply Hn. apply list_elem_of_In, elem_of_seqZ. lia.
Qed.

Lemma find_seqZ_least (f : Z -> bool) (n : nat) s j :
  find f (seqZ s (Z.of_nat n)) = Some j ->
  forall i, s <= i < j -> f i = false.
Proof.
  revert s. induction n as [|n IH]; intros s H i Hi; [done|].
  rewrite seqZ_cons in H by lia. simpl in H.
  destruct (f s) eqn:E; [injection H as ->; lia|].
  destruct (decide (i = s)) as [->|Hne]; [done|].
  replace (Z.pred (Z.of_nat (S n))) with (Z.of_nat n) in H by lia.
  apply (IH _ H). lia.
Qed.

(** The first line at or after [s] that carries the closing marker. *)
Lemma find_closing_tag_first lines s close total m i l :
  s <= i < Z.min (s + m) total ->
  PyList.getitem lines i = Some l ->
  search_ci (PyStr.chars close) (PyStr.chars l) = true ->
  (forall j l', s <= j < i -> PyList.getitem lines j = Some l' ->
                search_ci (PyStr.chars close) (PyStr.chars l') = false) ->
  _find_closing_tag lines s close total m = Some i.
Proof.
  intros Hi Hl Hm Hfirst.
  destruct (_find_closing_tag lines s close total m) as [j|] eqn:E.
  - pose proof (find_closing_tag_Some _ _ _ _ _ _ E) as (Hj & Hjt & l' & Hl' & Hm').
    destruct (Z.lt_trichotomy j i) as [Hlt|[->|Hgt]]; [|done|].
    + rewrite (Hfirst j l') in Hm'; [done|lia|done].
    + exfalso. unfold _find_closing_tag in E.
      assert (0 <= Z.min (s + m) total - s) as Hlen by lia.
      rewrite <- (Z2Nat.id _ Hlen) in E.
      pose proof (find_seqZ_least _ _ _ _ E i ltac:(lia)) as Hn.
      simpl in Hn. rewrite Hl in Hn. congruence.
  - by rewrite (find_closing_tag_None _ _ _ _ _ E i l Hi Hl) in Hm.
Qed.

(** *** Expansion never moves the end backwards, nor past the file *)

Lemma expand_step_ge lines start total content close e m :
  e <= expand_step lines start total content close e m.
Proof.
  unfold expand_step.
  destruct (_find_closing_tag _ _ _ _ _) as [c|] eqn:E; [|lia].
  apply find_closing_tag_Some in E as (_ & Ht & _).
  destruct (c >=? e) eqn:G; lia.
Qed.

Lemma expand_step_le lines start total content close e m :
  e <= total -> expand_step lines start total content close e m <= total.
Proof.
  unfold expand_step. intros He.
  destruct (_find_closing_tag _ _ _ _ _) as [c|]; [|lia].
  destruct (c >=? e); lia.
Qed.

Lemma foldl_ge {A} (f : Z -> A -> Z) (l : list A) e :
  (forall e x, e <= f e x) -> e <= foldl f e l.
Proof.
  intros Hf. revert e. induction l as [|x l IH]; intros e; simpl; [lia|].
  specialize (IH (f e x)). specialize (Hf e x). lia.
Qed.

Lemma foldl_le {A} (f : Z -> A -> Z) (l : list A) e b :
  (forall e x, e <= b -> f e x <= b) -> e <= b -> foldl f e l <= b.
Proof.
  intros Hf. revert e. induction l as [|x l IH]; intros e He; simpl; [lia|].
  apply IH. by apply Hf.
Qed.

Lemma expand_ge lines start e total :
  e <= _expand_for_semantic_blocks lines start e total.
Proof.
  unfold _expand_for_semantic_blocks. apply foldl_ge.
  intros e' [? [? ?]]. apply foldl_ge. intros. apply expand_step_ge.
Qed.

Lemma expand_le lines start e total :
  e <= total -> _expand_for_semantic_blocks lines start e total <= total.
Proof.
  unfold _expand_for_semantic_blocks. apply foldl_le.
  intros e' [? [? ?]] He. apply foldl_le; [|done].
  intros. by apply expand_step_le.
Qed.

(** *** The loop of the configured chunker ends *)

Lemma chunk_loop_total path lines fuel start :
  (Z.to_nat (PyList.len lines - start) < fuel)%nat ->
  is_Some (chunk_loop chunker path lines fuel start).
Proof.
  revert start. induction fuel as [|fuel IH]; intros start Hf; [lia|].
  simpl. destruct (start <? PyList.len lines) eqn:Hs; [|eauto].
  apply Z.ltb_lt in Hs.
  set (e0 := Z.min (start + 180) (PyList.len lines)).
  pose proof (expand_ge lines start e0 (PyList.len lines)) as Hge.
  set (e := _expand_for_semantic_blocks lines start e0 (PyList.len lines)) in *.
  destruct ((e - 20 >=? PyList.len lines) || (e >=? PyList.len lines)) eqn:Hb;
    [eauto|].
  apply orb_false_iff in Hb as [_ Hb]. rewrite Z.geb_leb in Hb.
  apply Z.leb_gt in Hb.
  destruct (IH (e - 20)) as [cs Hcs]; [unfold e0 in *; lia|].
  rewrite Hcs. eauto.
Qed.

Lemma chunk_file_total path text :
  is_Some (chunk_file chunker path text).
Proof.
  unfold chunk_file. destruct (_ =? 0); [eauto|].
  apply chunk_loop_total. lia.
Qed.

(** *** Plain chunking: no segment was expanded *)










(** *** Semantic expansion *)

Lemma slice_lookup {A} (l : list A) (a b : Z) (j : Z) x :
  0 <= a <= j -> j < b <= PyList.len l ->
  PyList.getitem l j = Some x -> x ∈ PyList.slice l a b.
Proof.
  unfold PyList.getitem, PyList.slice, PyList.clamp, PyList.len.
  intros Ha Hb. rewrite !(proj2 (Z.ltb_ge _ _)) by lia. intros Hx.
  rewrite !Z.min_l by lia.
  apply list_elem_of_lookup. exists (Z.to_nat j - Z.to_nat a)%nat.
  rewrite lookup_take_lt by lia. rewrite lookup_drop.
  replace (Z.to_nat a + (Z.to_nat j - Z.to_nat a))%nat with (Z.to_nat j) by lia.
  done.
Qed.

Lemma getitem_len {A} (l : list A) (j : Z) x :
  0 <= j -> PyList.getitem l j = Some x -> j < PyList.len l.
Proof.
  unfold PyList.getitem, PyList.len. intros Hj.
  rewrite (proj2 (Z.ltb_ge _ _)) by lia.
  intros H%lookup_lt_Some. lia.
Qed.

Lemma foldl_reach lines start total content close (cl : Z) ms e m :
  m ∈ ms ->
  _find_closing_tag lines (start + PyStr.count_newlines (take m content))
    close total max_search_default = Some cl ->
  cl + 1 <= foldl (expand_step lines start total content close) e ms.
Proof.
  intros Hm Hfind. revert e.
  induction ms as [|m' ms IH]; intros e; [by apply elem_of_nil in Hm|].
  simpl. apply elem_of_cons in Hm as [<-|Hm]; [|by apply IH].
  etransitivity; [|apply foldl_ge; intros; apply expand_step_ge].
  unfold expand_step. rewrite Hfind.
  apply find_closing_tag_Some in Hfind as (_ & Ht & _).
  destruct (cl >=? e) eqn:G; lia.
Qed.

Lemma foldl_fixed {A} (f : Z -> A -> Z) (l : list A) e :
  (forall x, x ∈ l -> f e x = e) -> foldl f e l = e.
Proof.
  induction l as [|x l IH]; intros H; simpl; [done|].
  rewrite H by (by left). apply IH. intros y Hy. apply H. by right.
Qed.

(** The first chunk of a non-empty text. *)
Lemma chunk_file_head path text :
  let lines := PyStr.splitlines false text in
  let total := PyList.len lines in
  0 < total ->
  exists rest,
    chunk_file chunker path text
    = Some (make_chunk chunker path lines 0
              (_expand_for_semantic_blocks lines 0
                 (Z.min (0 + chunk_size chunker) total) total) :: rest).
Proof.
  intros lines total Ht.
  destruct (chunk_file_total path text) as [cs Hcs]. rewrite Hcs.
  unfold chunk_file in Hcs. fold lines total in Hcs.
  rewrite (proj2 (Z.eqb_neq total 0)) in Hcs by lia.
  simpl in Hcs. fold total in Hcs.
  rewrite (proj2 (Z.ltb_lt 0 total)) in Hcs by lia.
  destruct (_ || _) in Hcs.
  - injection Hcs as <-. by eexists.
  - destruct (chunk_loop _ _ _ _ _) as [rest|]; [|done].
    simpl in Hcs. injection Hcs as <-. by eexists.
Qed.

(** When expansion does keep a block whole.  (1) In a text where the code
    sees the opening marker of a script block on line 170, line 210
    carries the closing marker and none of the lines 170 to 209 does, the
    first segment of the configured chunker, whose tentative end is line
    180, ends at line 210 or later.  (2) A closing marker is only ever
    found within the 100 lines that start at the opening line.  (3) When
    no opening marker of the chunk has a closing marker in its window, the
    end line is returned as it was passed. *)
Lemma semantic_non_splitting :
  (forall path text,
     let lines := PyStr.splitlines false text in
     169 ∈ open_lines (OpenTag "script") lines 0 180 ->
     (exists l, PyList.getitem lines 209 = Some l
                /\ has_marker "</script>" l = true) ->
     Forall (fun l => has_marker "</script>" l = false)
            (PyList.slice lines 169 209) ->
     exists c rest,
       chunk_file chunker path text = Some (c :: rest)
       /\ start_line c = 1 /\ 210 <= end_line c)
  /\ (forall lines open_line close total close_line,
        _find_closing_tag lines open_line close total max_search_default
        = Some close_line ->
        open_line <= close_line < open_line + 100 /\ close_line < total)
  /\ (forall lines start end_ total,
        (forall name p close o,
           (name, (p, close)) ∈ BLOCK_PATTERNS ->
           o ∈ open_lines p lines start end_ ->
           _find_closing_tag lines o close total max_search_default = None) ->
        _expand_for_semantic_blocks lines start end_ total = end_).
Proof.
  split; [|split].
  - intros path text lines Hopen (l & Hl & Hm) Hnone.
    pose proof (getitem_len lines 209 l ltac:(lia) Hl) as Hlen.
    destruct (chunk_file_head path text) as [rest Hcs];
      [fold lines; lia|].
    fold lines in Hcs. eexists _, rest. split; [exact Hcs|].
    split; [done|]. simpl. change (0 + 180) with 180.
    rewrite Z.min_l by lia.
    set (total := PyList.len lines) in *.
    assert (_find_closing_tag lines 169 "</script>" total max_search_default
            = Some 209) as Hfind.
    { apply (find_closing_tag_first _ _ _ _ _ _ l);
        [unfold max_search_default; lia|done|done|].
      intros j l' Hj Hl'. rewrite Forall_forall in Hnone.
      apply Hnone. apply (slice_lookup _ _ _ j); [lia|lia|done]. }
    unfold open_lines in Hopen.
    apply list_elem_of_In, in_map_iff in Hopen as (m & Hm169 & Hin).
    apply list_elem_of_In in Hin.
    unfold _expand_for_semantic_blocks, BLOCK_PATTERNS.
    cbn [foldl].
    do 3 (etransitivity; [|apply foldl_ge; intros; apply expand_step_ge]).
    change 210 with (209 + 1).
    eapply foldl_reach; [exact Hin|]. rewrite Hm169. exact Hfind.
  - intros lines o close total c H.
    apply find_closing_tag_Some in H. unfold max_search_default in H. lia.
  - intros lines start e total H. unfold _expand_for_semantic_blocks.
    apply foldl_fixed. intros [name [p close]] Hb.
    apply foldl_fixed. intros m Hm. unfold expand_step.
    rewrite (H name p close); [done|done|].
    unfold open_lines. apply list_elem_of_In, in_map_iff.
    exists m. split; [done|]. by apply list_elem_of_In.
Qed.

Example semantic_non_splitting_page_script :
  exists c rest,
    chunk_file chunker "index.html" page_script = Some (c :: rest)
    /\ start_line c = 1 /\ 210 <= end_line c.
Proof.
  apply (proj1 semantic_non_splitting "index.html" page_script).
  - vm_compute. left.
  - exists "</script>". split; vm_compute; reflexivity.
  - apply (bool_decide_unpack _). vm_compute. exact I.
Qed.

Example chunk_page_script :
  (map range <$> chunk_file chunker "index.html" page_script)
  = Some [(1, 210); (191, 250)].
Proof. vm_compute. reflexivity. Qed.

(** C8 (semantic non-splitting), evaluated on a page whose script block
    opens on line 170 and closes on line 210, the opening line first
    closing another script element.  The code sees the opening marker on
    line 170, but its search for the closing marker starts with the whole
    opening line and stops there, at the marker that closes the other
    element; the first segment keeps its tentative end, line 180, and the
    block is split. *)
Theorem semantic_split_on_shared_line :
  let lines := PyStr.splitlines false page_shared_line in
  (map range <$> chunk_file chunker "index.html" page_shared_line)
  = Some [(1, 180); (161, 250)]
  /\ 169 ∈ open_lines (OpenTag "script") lines 0 180
  /\ _find_closing_tag lines 169 "</script>" 250 max_search_default = Some 169
  /\ Forall (fun l => has_marker "</script>" l = false)
            (PyList.slice lines 170 209)
  /\ (has_marker "</script>" <$> PyList.getitem lines 209) = Some true.
Proof.
  split; [by vm_compute|]. split; [vm_compute; right; left|].
  split; [by vm_compute|]. split; [|by vm_compute].
  apply (bool_decide_unpack _). vm_compute. exact I.
Qed.

Example chunk_page_unclosed :
  (map range <$> chunk_file chunker "index.html" page_unclosed)
  = Some [(1, 180); (161, 315)].
Proof. vm_compute. reflexivity. Qed.

End segmenter.

(** ** Patch engine: applying an edit to a text *)

Section apply.
Import PatchEngine.

(** C9 (ReplaceLine indentation), evaluated on a line indented with a
    tab: the code counts the characters of the leading whitespace and
    writes that many spaces, so the patched line starts with one space
    where the original line started with a tab. *)
Theorem replace_line_tab_indentation :
  let content := TAB +:+ "foo();" +:+ NL in
  let patched := " bar();" +:+ NL in
  _apply_line_patch content 1 "replace_line" "bar();" = Ok patched
  /\ PyStr.leading_ws content = TAB
  /\ PyStr.leading_ws patched = " "
  /\ PyStr.leading_ws patched ≠ PyStr.leading_ws content.
Proof. repeat split; try reflexivity. discriminate. Qed.

(** On a line that holds only whitespace the line break is counted as
    indentation too. *)
Example replace_line_blank_line :
  _apply_line_patch ("  " +:+ NL +:+ "x" +:+ NL) 1 "replace_line" "bar();"
  = Ok ("   bar();" +:+ NL +:+ "x" +:+ NL).
Proof. reflexivity. Qed.

(** C10 (negative line numbers on insertion).  For [line_number < 0] an
    [insert_after_line] edit is not rejected: both strategies return the
    lines of the text with the payload line inserted at the position
    [max 0 (len + line_number)], counted backward from the end; the
    only line numbers either strategy rejects are those greater than the
    number of lines. *)
Theorem insert_after_negative_line (content code : string) (line_number : Z) :
  line_number < 0 ->
  let lines := PyStr.splitlines true content in
  let p := Z.to_nat (Z.max 0 (PyList.len lines + line_number)) in
  let patched :=
    concat_lines (take p lines ++ (code +:+ NL) :: drop p lines) in
  _apply_line_patch content line_number "insert_after_line" code = Ok patched
  /\ _apply_dom_patch content line_number "insert_after_line" code = Ok patched
  /\ (forall k,
        (exists e, _apply_line_patch content k "insert_after_line" code = Raise e)
        <-> PyList.len lines < k)
  /\ (forall k,
        (exists e, _apply_dom_patch content k "insert_after_line" code = Raise e)
        <-> PyList.len lines < k).
Proof.
  intros Hneg lines p patched. unfold patched, NL. clear patched.
  assert (0 <= PyList.len lines) as Hlen by (unfold PyList.len; lia).
  unfold _apply_line_patch, _apply_dom_patch. fold lines.
  rewrite !decide_True by done.
  rewrite (proj2 (Z.leb_le line_number (PyList.len lines))) by lia.
  assert (PyList.insert lines line_number (code +:+ PyStr.newline)
          = take p lines ++ (code +:+ PyStr.newline) :: drop p lines) as ->.
  { unfold PyList.insert, PyList.clamp, p.
    rewrite (proj2 (Z.ltb_lt line_number 0)) by done.
    by rewrite (Z.add_comm line_number). }
  repeat split; try done.
  - intros [e He]. destruct (k <=? PyList.len lines) eqn:Hk; [done|].
    by apply Z.leb_gt in Hk.
  - intros Hk. apply Z.leb_gt in Hk. rewrite Hk. eauto.
  - intros [e He]. destruct (k <=? PyList.len lines) eqn:Hk; [done|].
    by apply Z.leb_gt in Hk.
  - intros Hk. apply Z.leb_gt in Hk. rewrite Hk. eauto.
Qed.

Lemma insert_after_negative_line_witness :
  _apply_line_patch ("a" +:+ NL +:+ "b" +:+ NL +:+ "c" +:+ NL) (-1)
    "insert_after_line" "X"
  = Ok ("a" +:+ NL +:+ "b" +:+ NL +:+ "X" +:+ NL +:+ "c" +:+ NL).
Proof.
  exact (proj1 (insert_after_negative_line
                  ("a" +:+ NL +:+ "b" +:+ NL +:+ "c" +:+ NL) "X" (-1)
                  ltac:(lia))).
Defined.

(** Where the indentation is kept: on a line whose leading whitespace is
    made of spaces only, the patched line is that whitespace followed by
    the payload without its own leading whitespace. *)
Lemma length_chars s : length (PyStr.chars s) = String.length s.
Proof. induction s as [|c s IH]; simpl; [done|]. by rewrite IH. Qed.

Lemma length_of_chars l : String.length (PyStr.of_chars l) = length l.
Proof. induction l as [|c l IH]; simpl; [done|]. by rewrite IH. Qed.

Lemma length_leading_lstrip l :
  length l
  = (length (PyStr.leading_ws_chars l) + length (PyStr.lstrip_chars l))%nat.
Proof.
  induction l as [|c l IH]; simpl; [done|].
  destruct (PyStr.isspace c); simpl; [by rewrite IH|lia].
Qed.

Lemma repeat_all_equal {A} (x : A) l :
  Forall (fun y => y = x) l -> repeat x (length l) = l.
Proof. induction 1 as [|y l -> _ IH]; simpl; [done|]. by rewrite IH. Qed.

Lemma replace_line_space_indentation content line_number code original_line :
  let lines := PyStr.splitlines true content in
  in_range line_number lines = true ->
  PyList.getitem lines (line_number - 1) = Some original_line ->
  Forall (fun c => c = SPACE)
         (PyStr.leading_ws_chars (PyStr.chars original_line)) ->
  _apply_line_patch content line_number "replace_line" code
  = Ok (concat_lines
          (<[Z.to_nat (line_number - 1) :=
               (PyStr.leading_ws original_line +:+ PyStr.lstrip code)
               +:+ NL]>
             lines)).
Proof.
  intros lines Hr Hl Hsp. unfold _apply_line_patch. fold lines.
  rewrite decide_False, decide_True, Hr, Hl by done.
  unfold in_range in Hr. apply andb_true_iff in Hr as [H0 H1].
  apply Z.ltb_lt in H0. apply Z.leb_le in H1.
  unfold PyList.setitem.
  rewrite (proj2 (Z.ltb_ge (line_number - 1) 0)) by lia.
  rewrite (proj2 (Z.leb_le 0 (line_number - 1))) by lia.
  rewrite (proj2 (Z.ltb_lt (line_number - 1) (PyList.len lines))) by lia.
  simpl. unfold NL. do 5 f_equal.
  unfold PyStr.repeat_char, PyStr.leading_ws, PyStr.len, PyStr.lstrip.
  rewrite length_of_chars, <- length_chars.
  rewrite (length_leading_lstrip (PyStr.chars original_line)).
  replace (Z.to_nat _) with
    (length (PyStr.leading_ws_chars (PyStr.chars original_line))) by lia.
  by rewrite repeat_all_equal.
Qed.

End apply.

(** ** Sandbox *)

Lemma untouched_refl path w : untouched path w w.
Proof. done. Qed.

Lemma untouched_trans path w1 w2 w3 :
  untouched path w1 w2 -> untouched path w2 w3 -> untouched path w1 w3.
Proof. intros [? ?] [? ?]. split; congruence. Qed.

Lemma writes_to_write path p text f :
  FS.writes_to path (FS.write p text f)
  = (FS.writes_to path f + if decide (p = path) then 1 else 0)%nat.
Proof.
  unfold FS.writes_to, FS.write. simpl.
  rewrite filter_app, length_app, filter_cons, filter_nil.
  by case_decide.
Qed.

Lemma untouched_write path p text w :
  p ≠ path ->
  untouched path w (PatchEngine.with_fs w (FS.write p text (PatchEngine.fs w))).
Proof.
  intros Hne. split; simpl.
  - by rewrite lookup_insert_ne.
  - rewrite writes_to_write, decide_False by done. lia.
Qed.

Lemma untouched_copy2 path src dst w r f :
  dst ≠ path ->
  FS.copy2 src dst (PatchEngine.fs w) = (r, f) ->
  untouched path w (PatchEngine.with_fs w f).
Proof.
  intros Hne. unfold FS.copy2.
  destruct (FS.files (PatchEngine.fs w) !! src) as [c|];
    [|intros [= <- <-]; by destruct w].
  case_decide; intros [= <- <-]; [by destruct w|].
  by apply untouched_write.
Qed.

(** A copy that raises writes nothing. *)
Lemma copy2_raise src dst f e f' :
  FS.copy2 src dst f = (Raise e, f') -> f' = f.
Proof.
  unfold FS.copy2. destruct (FS.files f !! src); [|by intros [= _ <-]].
  case_decide; [by intros [= _ <-]|done].
Qed.

Lemma copy2_ok src dst f u f' :
  FS.copy2 src dst f = (Ok u, f') ->
  exists c, FS.files f !! src = Some c /\ src ≠ dst /\ f' = FS.write dst c f.
Proof.
  unfold FS.copy2. destruct (FS.files f !! src) as [c|]; [|done].
  case_decide; [done|]. intros [= <-]. eauto.
Qed.

Section sandbox_atomicity.
Import PatchEngine PatchSandbox.

Variable sb : PatchSandbox.t.
Variable original_path : string.
Variable patch : patch_func.
Variable validate : validate_func.

Let temp_path : string := temp_path_of sb original_path.

(** The two functions work on the scratch file they are handed: run on
    the scratch path, they leave the original path alone. *)
Hypothesis patch_on_scratch :
  forall w, untouched original_path w (patch temp_path w).2.
Hypothesis validate_on_scratch :
  forall w, untouched original_path w (validate temp_path w).2.

(** C1 (sandbox atomicity).  Whenever [apply_and_validate] reports
    failure, the original file has the content it had before the call and
    was not written during it.  It reports success only when the patch
    function returned success and the validation function returned
    valid, and then the original path was written exactly once: with the
    content of the scratch file, as the last step. *)
Theorem sandbox_atomicity (w : world) :
  let '((success, _, _), w') :=
    apply_and_validate sb original_path patch validate w in
  (success = false -> untouched original_path w w')
  /\ (success = true ->
      exists w1 w2 w3 backup error validation_error,
        create_temp_copy sb original_path w = (Ok temp_path, w1)
        /\ patch temp_path w1 = (Ok (true, backup, error), w2)
        /\ validate temp_path w2 = (Ok (true, validation_error), w3)
        /\ untouched original_path w w3
        /\ FS.files (fs w') !! original_path = FS.files (fs w3) !! temp_path
        /\ FS.writes_to original_path (fs w')
           = S (FS.writes_to original_path (fs w))).
Proof.
  unfold apply_and_validate, create_temp_copy. fold temp_path.
  destruct (FS.copy2 original_path temp_path (fs w)) as [[u|e] f] eqn:Hc.
  2:{ apply copy2_raise in Hc as ->. split; [|done]. intros _. by destruct w. }
  apply copy2_ok in Hc as (c & Hsrc & Hne & ->).
  set (w1 := with_fs w (FS.write temp_path c (fs w))).
  assert (untouched original_path w w1) as H1
    by (apply untouched_write; congruence).
  pose proof (patch_on_scratch w1) as H2.
  destruct (patch temp_path w1) as [[[[success backup] error]|e] w2] eqn:Hp;
    simpl in H2.
  2:{ split; [|done]. intros _. by eapply untouched_trans. }
  destruct success; simpl.
  2:{ split; [|done]. intros _. by eapply untouched_trans. }
  pose proof (validate_on_scratch w2) as H3.
  destruct (validate temp_path w2) as [[[is_valid verr]|e] w3] eqn:Hv;
    simpl in H3.
  2:{ split; [|done]. intros _. eauto using untouched_trans. }
  destruct is_valid; simpl.
  2:{ split; [|done]. intros _. eauto using untouched_trans. }
  assert (untouched original_path w w3) as H13
    by eauto using untouched_trans.
  destruct (FS.copy2 temp_path original_path (fs w3)) as [[u'|e] f] eqn:Hc'.
  2:{ apply copy2_raise in Hc' as ->. split; [|done]. intros _.
      by destruct w3. }
  apply copy2_ok in Hc' as (c' & Hsrc' & _ & ->).
  split; [done|]. intros _.
  exists w1, w2, w3, backup, error, verr.
  repeat split; try done; try apply H13; simpl.
  - by rewrite lookup_insert_eq.
  - rewrite writes_to_write, decide_True by done.
    destruct H13 as [_ ->]. lia.
Qed.

End sandbox_atomicity.

(** The wrappers the approval route passes to the sandbox do work on the
    scratch file: the patch engine writes the file it is given and its
    backup, the validators write nothing. *)
Section wrappers.
Import PatchEngine PatchSandbox.

Variable E : PatchEngine.env.

Lemma untouched_fs path w w' :
  fs w' = fs w -> untouched path w w'.
Proof. intros H. unfold untouched. by rewrite H. Qed.

Lemma create_backup_untouched path file_path w :
  backup_path_of E file_path w ≠ path ->
  untouched path w (create_backup E file_path w).2.
Proof.
  intros Hne. unfold create_backup. fold (backup_path_of E file_path w). simpl.
  destruct (FS.copy2 _ _ _) as [[u|e] f] eqn:Hc; simpl.
  - apply copy2_ok in Hc as (c & _ & _ & ->). split; simpl.
    + by rewrite lookup_insert_ne.
    + rewrite writes_to_write, decide_False by done. lia.
  - apply copy2_raise in Hc as ->. done.
Qed.

Lemma rollback_untouched path file_path backup w :
  file_path ≠ path -> untouched path w (rollback file_path backup w).2.
Proof.
  intros Hne. unfold rollback.
  destruct (FS.copy2 _ _ _) as [[u|e] f] eqn:Hc; simpl.
  - apply copy2_ok in Hc as (c & _ & _ & ->). split; simpl.
    + by rewrite lookup_insert_ne.
    + rewrite writes_to_write, decide_False by done. lia.
  - apply copy2_raise in Hc as ->. done.
Qed.

Lemma apply_patch_untouched path file_path line_number action code ft w :
  file_path ≠ path ->
  backup_path_of E file_path w ≠ path ->
  untouched path w
    (apply_patch E file_path line_number action code ft w).2.
Proof.
  intros Hne Hb. unfold apply_patch.
  pose proof (create_backup_untouched path file_path w Hb) as H1.
  destruct (create_backup E file_path w) as [[backup|e] w1]; simpl in *;
    [|done].
  destruct (FS.read file_path (fs w1)) as [text|e].
  - destruct (if bool_decide _ then _ else _) as [patched|e].
    + simpl. eapply untouched_trans; [exact H1|]. by apply untouched_write.
    + pose proof (rollback_untouched path file_path backup w1 Hne) as H2.
      destruct (rollback file_path backup w1) as [b w2]. simpl in *.
      by eapply untouched_trans.
  - pose proof (rollback_untouched path file_path backup w1 Hne) as H2.
    destruct (rollback file_path backup w1) as [b w2]. simpl in *.
    by eapply untouched_trans.
Qed.

End wrappers.

Lemma sandbox_atomicity_witness :
  let '((success, _, _), w') :=
    PatchSandbox.apply_and_validate the_sandbox "/site/index.html"
      (Patches.apply_patch_wrapper routes_env head_issue "<head></head>")
      (Patches.validate_wrapper routes_env) site_world in
  success = false /\ untouched "/site/index.html" site_world w'.
Proof.
  pose proof (sandbox_atomicity the_sandbox "/site/index.html"
                (Patches.apply_patch_wrapper routes_env head_issue "<head></head>")
                (Patches.validate_wrapper routes_env)) as H.
  assert (forall w, untouched "/site/index.html" w
            (Patches.apply_patch_wrapper routes_env head_issue "<head></head>"
               (PatchSandbox.temp_path_of the_sandbox "/site/index.html") w).2)
    as Hp.
  { intros w. unfold Patches.apply_patch_wrapper.
    pose proof (apply_patch_untouched engine_env "/site/index.html"
                  (PatchSandbox.temp_path_of the_sandbox "/site/index.html")
                  1 "insert_after_line" "<head></head>" None w) as Hu.
    destruct (PatchEngine.apply_patch _ _ _ _ _ _ _) as [r w'].
    apply Hu; vm_compute; discriminate. }
  assert (forall w, untouched "/site/index.html" w
            (Patches.validate_wrapper routes_env
               (PatchSandbox.temp_path_of the_sandbox "/site/index.html") w).2)
    as Hv by (intros w; apply untouched_refl).
  specialize (H Hp Hv site_world).
  destruct (PatchSandbox.apply_and_validate _ _ _ _ _) as [[[success t] e] w']
    eqn:Hr.
  assert (success = false) as ->
    by (vm_compute in Hr; by injection Hr as <- _ _ _).
  split; [done|]. by apply H.
Defined.

(** ** Approval and rollback *)

Section approval.
Import Patches.


(** The same holds of every edit the route applies: the row it adds to
    the patch history names a backup that holds the text read back from
    the patched file, and records that text as the original content. *)
Lemma applied_backup_holds_patched E edited issue_id s backup s' stop :
  approve_one E edited issue_id s = (Applied issue_id backup, s', stop) ->
  exists h issue,
    issues s !! issue_id = Some issue
    /\ patch_history s' = patch_history s ++ [h]
    /\ h_backup_path h = backup
    /\ h_file_path h = file_path issue
    /\ h_original_content h = h_patched_content h.
Proof.
  unfold approve_one, transaction_failed.
  destruct (issues s !! issue_id) as [issue|]; [|done].
  destruct (CircuitBreaker.is_tripped _ _); [done|].
  destruct (PatchSandbox.apply_and_validate _ _ _ _ _) as [[[ok t] e] w].
  destruct ok.
  2:{ destruct (CircuitBreaker.record_failure _ _). done. }
  unfold PatchEngine.create_backup.
  destruct (FS.copy2 _ _ _) as [[u|err] f] eqn:Hc.
  2:{ destruct (CircuitBreaker.record_failure _ _). done. }
  apply copy2_ok in Hc as (c & Hsrc & Hne & ->). simpl.
  unfold FS.read. simpl.
  rewrite lookup_insert_ne, lookup_insert_eq by done. simpl in Hsrc.
  rewrite Hsrc.
  destruct (commit_ok E issue_id).
  2:{ destruct (CircuitBreaker.record_failure _ _). done. }
  intros [= <- <- <-]. eexists _, issue. simpl. done.
Qed.

(** *** The breaker in the approval loop *)






End approval.

(* ================================================================== *)
(** * Further properties *)
(* ================================================================== *)

(** ** Failure breaker: the status report *)

Section breaker_status.
Import CircuitBreaker.

#[local] Ltac keys_cases k j :=
  unfold record_failure, record_success, reset, dd_get; simpl;
  repeat match goal with
    | |- context [match ?m !! ?x with _ => _ end] =>
        let E := fresh "E" in destruct (m !! x) eqn:E; simpl
    | |- context [if negb ?c then _ else _] => destruct c; simpl
    | |- context [if ?c then _ else _] => destruct c; simpl
    end;
  destruct (decide (k = j)) as [->|?];
  rewrite ?lookup_insert_eq, ?lookup_insert_ne by done.

Lemma failures_keys_record_failure k j b :
  is_Some (failures (snd (record_failure k b)) !! j)
  <-> k = j \/ is_Some (failures b !! j).
Proof. keys_cases k j; naive_solver. Qed.

Lemma tripped_keys_record_failure k j b :
  is_Some (tripped (snd (record_failure k b)) !! j)
  -> k = j \/ is_Some (tripped b !! j).
Proof. keys_cases k j; naive_solver. Qed.

Lemma failures_keys_record_success k j b :
  is_Some (failures b !! j) -> is_Some (failures (record_success k b) !! j).
Proof. keys_cases k j; naive_solver. Qed.

Lemma tripped_keys_record_success k b :
  tripped (record_success k b) = tripped b.
Proof.
  unfold record_success, dd_get.
  destruct (failures b !! k); simpl;
    repeat match goal with
      | |- context [if ?c then _ else _] => destruct c; simpl
      end; reflexivity.
Qed.

Lemma latched_init : latched init.
Proof.
  intros k. unfold get_failure_count, is_tripped, init, FAILURE_THRESHOLD.
  simpl. rewrite !lookup_empty. simpl. split; [lia|].
  intros [x Hx]. done.
Qed.

Lemma latched_step b c : latched b -> latched (step b c).
Proof.
  intros H j. destruct (H j) as [Hc Hk].
  destruct c as [k|k|k|k|k|k]; simpl; auto.
  - split.
    + rewrite count_record_failure, tripped_record_failure.
      case_decide; subst; [|done].
      intros Hge. apply orb_true_iff. left. by apply Z.leb_le.
    + intros Ht. apply failures_keys_record_failure.
      apply tripped_keys_record_failure in Ht as [->|Ht]; auto.
  - split.
    + rewrite count_record_success, tripped_record_success.
      case_decide; subst; [|done].
      unfold FAILURE_THRESHOLD. lia.
    + intros Ht. apply failures_keys_record_success. apply Hk.
      by rewrite tripped_keys_record_success in Ht.
  - split.
    + rewrite count_reset, tripped_reset.
      case_decide; subst; [unfold FAILURE_THRESHOLD; lia | done].
    + unfold reset. simpl.
      destruct (decide (k = j)) as [->|Hne];
        rewrite ?lookup_insert_eq, ?lookup_insert_ne by done; eauto.
Qed.

Lemma latched_run cs : latched (run cs).
Proof.
  induction cs as [|c cs IH] using rev_ind.
  - apply latched_init.
  - rewrite run_snoc. by apply latched_step.
Qed.

(** After any sequence of calls, the report of [get_status] is
    consistent: the counter is not negative, the remaining attempts lie
    between 0 and the threshold and, below the threshold, are what is
    missing to it; and a job that has no attempt left is tripped. *)
Theorem status_report_consistent (cs : list call) (k : string) :
  let r := get_status (run cs) k in
  0 <= st_failures r
  /\ 0 <= st_remaining_attempts r <= st_threshold r
  /\ (st_failures r <= st_threshold r ->
      st_failures r + st_remaining_attempts r = st_threshold r)
  /\ (st_remaining_attempts r = 0 -> st_tripped r = true).
Proof.
  intros r. subst r. unfold get_status. simpl.
  pose proof (counts_nonneg_run cs k) as H0.
  destruct (latched_run cs k) as [Hl _].
  unfold FAILURE_THRESHOLD in *.
  repeat split; try lia.
  intros Hr. apply Hl. lia.
Qed.

Lemma status_report_consistent_witness :
  st_remaining_attempts
    (get_status (run (replicate 5 (RecordFailure "J1"))) "J1") = 0
  /\ st_tripped (get_status (run (replicate 5 (RecordFailure "J1"))) "J1")
     = true.
Proof.
  split; [reflexivity|].
  apply (status_report_consistent (replicate 5 (RecordFailure "J1")) "J1").
  reflexivity.
Defined.

(** A call about one job leaves the report of every other job as it
    was. *)
Theorem status_of_other_jobs_kept (b : t) (c : call) (k : string) :
  call_job c <> k -> get_status (step b c) k = get_status b k.
Proof.
  intros Hne. unfold get_status.
  destruct c as [j|j|j|j|j|j]; simpl in *; try reflexivity.
  - by rewrite count_record_failure, tripped_record_failure,
      !decide_False by done.
  - by rewrite count_record_success, tripped_record_success,
      !decide_False by done.
  - by rewrite count_reset, tripped_reset, !decide_False by done.
Qed.

Lemma status_of_other_jobs_kept_witness :
  get_status
    (step (run (replicate 5 (RecordFailure "J1"))) (ResetJob "J1")) "J2" =
  get_status (run (replicate 5 (RecordFailure "J1"))) "J2".
Proof.
  apply (status_of_other_jobs_kept _ (ResetJob "J1") "J2"). simpl. done.
Defined.

(** The health route reports the jobs that are keys of [failures].
    After any sequence of calls these include every tripped job and
    every job with a counter other than 0, so a job the route leaves out
    has the default report. *)
Theorem unlisted_job_has_default_status (cs : list call) (k : string) :
  failures (run cs) !! k = None ->
  get_status (run cs) k =
  {| st_job_id := k; st_failures := 0; st_threshold := FAILURE_THRESHOLD;
     st_tripped := false; st_remaining_attempts := FAILURE_THRESHOLD |}.
Proof.
  intros Hn. destruct (latched_run cs k) as [_ Hk].
  unfold get_status, get_failure_count, is_tripped. rewrite Hn. simpl.
  destruct (tripped (run cs) !! k) eqn:Et; [|done].
  destruct Hk as [x Hx]; [eauto | congruence].
Qed.

Lemma unlisted_job_has_default_status_witness :
  get_status (run [RecordFailure "J1"; RecordSuccess "J1"]) "J2" =
  {| st_job_id := "J2"; st_failures := 0; st_threshold := FAILURE_THRESHOLD;
     st_tripped := false; st_remaining_attempts := FAILURE_THRESHOLD |}.
Proof.
  apply (unlisted_job_has_default_status
           [RecordFailure "J1"; RecordSuccess "J1"] "J2").
  vm_compute. reflexivity.
Defined.

End breaker_status.

(** ** Conflict resolver: grouping, summary and the route's counts *)

Section resolver_structure.
Import Deduplicator.

Lemma group_add_fresh k x g :
  k ∉ map fst g -> group_add k x g = g ++ [(k, [x])].
Proof.
  induction g as [|[k' xs] g IH]; simpl; intros Hk; [done|].
  rewrite decide_False by (intros ->; apply Hk; left).
  f_equal. apply IH. intros H. apply Hk. by right.
Qed.

Lemma group_add_last k x g xs :
  k ∉ map fst g ->
  group_add k x (g ++ [(k, xs)]) = g ++ [(k, xs ++ [x])].
Proof.
  induction g as [|[k' ys] g IH]; simpl; intros Hk.
  - by rewrite decide_True.
  - rewrite decide_False by (intros ->; apply Hk; left).
    f_equal. apply IH. intros H. apply Hk. by right.
Qed.

Lemma foldl_block k g xs b :
  k ∉ map fst g -> Forall (fun y => key_of y = k) b ->
  foldl (fun g x => group_add (key_of x) x g) (g ++ [(k, xs)]) b
  = g ++ [(k, xs ++ b)].
Proof.
  intros Hk. revert xs. induction b as [|x b IH]; intros xs Hb; simpl.
  - by rewrite app_nil_r.
  - inversion Hb as [|? ? Hx Hb']; subst.
    rewrite group_add_last by done. rewrite IH by done.
    by rewrite <- app_assoc.
Qed.

(** Grouping a list made of blocks, one per key, gives the blocks
    back. *)
Lemma foldl_blocks (f : key -> list issue) ks g :
  NoDup ks ->
  (forall k, k ∈ ks -> f k ≠ [] /\ Forall (fun y => key_of y = k) (f k)) ->
  (forall k, k ∈ ks -> k ∉ map fst g) ->
  foldl (fun g x => group_add (key_of x) x g) g (flat_map f ks)
  = g ++ map (fun k => (k, f k)) ks.
Proof.
  intros Hnd. revert g. induction Hnd as [|k ks Hk Hnd IH]; intros g Hf Hg.
  - simpl. by rewrite app_nil_r.
  - simpl. rewrite foldl_app.
    destruct (Hf k) as [Hne Hall]; [left|].
    destruct (f k) as [|x b] eqn:Efk; [done|]. simpl.
    inversion Hall as [|? ? Hx Hb]; subst.
    rewrite group_add_fresh by (apply Hg; left).
    rewrite foldl_block by (done || apply Hg; left). simpl.
    rewrite IH.
    + by rewrite <- app_assoc.
    + intros k' Hk'. apply Hf. by right.
    + intros k' Hk'. rewrite map_app. simpl.
      intros Hin. apply elem_of_app in Hin as [Hin|Hin].
      * by apply (Hg k'); [right|].
      * apply list_elem_of_singleton in Hin. subst. done.
Qed.

Lemma grouped_blocks (f : key -> list issue) ks :
  NoDup ks ->
  (forall k, k ∈ ks -> f k ≠ [] /\ Forall (fun y => key_of y = k) (f k)) ->
  grouped (flat_map f ks) = map (fun k => (k, f k)) ks.
Proof.
  intros Hnd Hf. unfold grouped. rewrite foldl_blocks; try done.
  intros k _. simpl. apply not_elem_of_nil.
Qed.

Lemma line_group_nonempty l k : k ∈ first_keys l -> line_group l k ≠ [].
Proof.
  intros Hk. apply first_keys_elem in Hk.
  apply list_elem_of_fmap in Hk as (x & -> & Hx).
  intros He. assert (x ∈ line_group l (key_of x)) as Hin
    by (by apply list_elem_of_filter).
  rewrite He in Hin. by apply not_elem_of_nil in Hin.
Qed.

Lemma line_group_keys l k : Forall (fun y => key_of y = k) (line_group l k).
Proof.
  apply Forall_forall. intros y Hy.
  by apply list_elem_of_filter in Hy as [? _].
Qed.

Lemma deduplicate_issues_blocks l :
  deduplicate_issues l
  = flat_map (fun k => resolve_group (line_group l k)) (first_keys l).
Proof.
  unfold deduplicate_issues. rewrite grouped_spec.
  induction (first_keys l) as [|k ks IH]; simpl; [done|].
  by rewrite IH.
Qed.


(** *** What one group turns into *)

Lemma check_patch_conflict_length g :
  _check_patch_conflict g = true -> length g ≠ 1%nat.
Proof. intros H. by apply conflicting_length, check_patch_conflict_spec. Qed.

Lemma resolve_group_conflict g :
  _check_patch_conflict g = true ->
  resolve_group g = map (mark_conflict (map id g)) g.
Proof.
  intros H. unfold resolve_group.
  rewrite decide_False by by apply check_patch_conflict_length.
  by rewrite H.
Qed.

Lemma resolve_group_quiet g :
  _check_patch_conflict g = false -> g ≠ [] ->
  exists h rest,
    sorted_desc g = h :: rest
    /\ resolve_group g = h :: map (mark_superseded h) rest.
Proof.
  intros H Hne. destruct (sorted_desc_head g Hne) as (h & rest & Hs & _).
  exists h, rest. split; [done|].
  unfold resolve_group. rewrite H, Hs. case_decide as Hl; [|done].
  destruct g as [|x [|y g]]; simpl in Hl; try done.
  simpl in Hs. by injection Hs as <- <-.
Qed.

Lemma edit_of_mark_conflict ids x : edit_of (mark_conflict ids x) = edit_of x.
Proof. done. Qed.

Lemma edit_of_mark_superseded h x :
  edit_of (mark_superseded h x) = edit_of x.
Proof. done. Qed.

Lemma map_edit_of_mark_conflict ids g :
  map edit_of (map (mark_conflict ids) g) = map edit_of g.
Proof. rewrite map_map. by apply map_ext. Qed.

Lemma map_edit_of_mark_superseded h g :
  map edit_of (map (mark_superseded h) g) = map edit_of g.
Proof. rewrite map_map. by apply map_ext. Qed.

Lemma resolve_group_edits g :
  g ≠ [] -> map edit_of (resolve_group g) ≡ₚ map edit_of g.
Proof.
  intros Hne. destruct (_check_patch_conflict g) eqn:Hc.
  - by rewrite resolve_group_conflict, map_edit_of_mark_conflict.
  - destruct (resolve_group_quiet g Hc Hne) as (h & rest & Hs & ->).
    simpl. rewrite map_edit_of_mark_superseded.
    change (map edit_of (h :: rest) ≡ₚ map edit_of g).
    rewrite <- Hs. apply Permutation_map, sorted_desc_perm.
Qed.

Lemma edit_of_key x y : edit_of x = edit_of y -> key_of x = key_of y.
Proof. unfold edit_of. congruence. Qed.

Lemma edits_keys g g' k :
  map edit_of g ≡ₚ map edit_of g' ->
  Forall (fun y => key_of y = k) g' -> Forall (fun y => key_of y = k) g.
Proof.
  intros Hp Hg. apply Forall_forall. intros y Hy.
  assert (edit_of y ∈ map edit_of g') as Hin.
  { rewrite <- Hp. apply list_elem_of_fmap. eauto. }
  apply list_elem_of_fmap in Hin as (z & Hz & Hin).
  rewrite (edit_of_key _ _ Hz).
  by apply (proj1 (Forall_forall _ _) Hg).
Qed.

Lemma resolve_group_block l k :
  k ∈ first_keys l ->
  resolve_group (line_group l k) ≠ []
  /\ Forall (fun y => key_of y = k) (resolve_group (line_group l k)).
Proof.
  intros Hk. pose proof (line_group_nonempty l k Hk) as Hne.
  pose proof (resolve_group_edits _ Hne) as Hp. split.
  - intros He. rewrite He in Hp. simpl in Hp.
    apply Permutation_nil_l in Hp.
    by destruct (line_group l k).
  - eapply edits_keys; [exact Hp | apply line_group_keys].
Qed.

(** The groups partition the input. *)
Lemma flat_map_filter_cons (x : issue) l ks :
  NoDup ks ->
  flat_map (fun k => filter (fun y => key_of y = k) (x :: l)) ks
  ≡ₚ (if decide (key_of x ∈ ks) then [x] else [])
     ++ flat_map (fun k => filter (fun y => key_of y = k) l) ks.
Proof.
  induction 1 as [|k ks Hk Hnd IH]; simpl; [done|].
  rewrite IH. destruct (decide (key_of x = k)) as [<-|Hne].
  - rewrite filter_cons_True by done.
    rewrite (decide_False (P := key_of x ∈ ks)) by done.
    rewrite decide_True by left. simpl. done.
  - rewrite filter_cons_False by done.
    destruct (decide (key_of x ∈ ks)) as [Hin|Hin].
    + rewrite (decide_True (P := key_of x ∈ k :: ks)) by by right.
      simpl. by rewrite Permutation_middle.
    + rewrite (decide_False (P := key_of x ∈ k :: ks)); [done|].
      intros H. apply elem_of_cons in H as [?|?]; done.
Qed.

Lemma groups_partition l ks :
  NoDup ks -> (forall y, y ∈ l -> key_of y ∈ ks) ->
  flat_map (line_group l) ks ≡ₚ l.
Proof.
  intros Hnd. induction l as [|x l IH]; intros Hl.
  - unfold line_group. clear Hnd Hl. induction ks; simpl; done.
  - unfold line_group in *. rewrite flat_map_filter_cons by done.
    rewrite decide_True by (apply Hl; left). simpl.
    constructor. apply IH. intros y Hy. apply Hl. by right.
Qed.

Lemma first_keys_cover l y : y ∈ l -> key_of y ∈ first_keys l.
Proof.
  intros Hy. apply first_keys_elem, list_elem_of_fmap. eauto.
Qed.

(** The resolver returns every edit it was given, once: the records it
    returns are, up to their order, the input records with [status],
    [conflict_with] and [superseded_by] possibly changed and nothing
    else. *)
Theorem deduplicate_issues_keeps_edits (issues : list issue) :
  map edit_of (deduplicate_issues issues) ≡ₚ map edit_of issues.
Proof.
  rewrite deduplicate_issues_blocks.
  rewrite <- (groups_partition issues (first_keys issues)) at 2;
    [|apply first_keys_NoDup|apply first_keys_cover].
  pose proof (line_group_nonempty issues) as Hne.
  induction (first_keys issues) as [|k ks IH]; simpl; [done|].
  rewrite !map_app. rewrite IH by (intros k' Hk'; apply Hne; by right).
  rewrite resolve_group_edits by (apply Hne; left). done.
Qed.


(** *** Running the resolver on its own result *)

Lemma check_patch_conflict_edits g g' :
  map edit_of g ≡ₚ map edit_of g' ->
  _check_patch_conflict g = _check_patch_conflict g'.
Proof.
  assert (forall g g', map edit_of g ≡ₚ map edit_of g' ->
            conflicting g -> conflicting g') as Hmono.
  { clear. intros g g' Hp (a & b & Ha & Hb & Haa & Hab & Hne).
    assert (forall x, x ∈ g -> exists x', x' ∈ g' /\ edit_of x = edit_of x')
      as Hfind.
    { intros x Hx. assert (edit_of x ∈ map edit_of g') as Hin.
      { rewrite <- Hp. apply list_elem_of_fmap. eauto. }
      apply list_elem_of_fmap in Hin as (x' & ? & ?). eauto. }
    destruct (Hfind a Ha) as (a' & Ha' & Ea).
    destruct (Hfind b Hb) as (b' & Hb' & Eb).
    exists a', b'. unfold edit_of in Ea, Eb.
    repeat split; try done; congruence. }
  intros Hp.
  destruct (_check_patch_conflict g) eqn:E1,
           (_check_patch_conflict g') eqn:E2; try done.
  - apply check_patch_conflict_spec, (Hmono _ _ Hp),
      check_patch_conflict_spec in E1. congruence.
  - apply check_patch_conflict_spec, (Hmono _ _ (symmetry Hp)),
      check_patch_conflict_spec in E2. congruence.
Qed.

Lemma edits_length g g' :
  map edit_of g ≡ₚ map edit_of g' -> length g = length g'.
Proof.
  intros Hp. apply Permutation_length in Hp. by rewrite !length_map in Hp.
Qed.

Lemma insert_desc_descending x l :
  descending l -> descending (insert_desc x l).
Proof.
  induction l as [|y l IH]; simpl; [done|].
  intros [Hy Hl]. destruct (severity_rank x <? severity_rank y) eqn:E.
  - apply Z.ltb_lt in E. simpl. split; [|by apply IH].
    destruct l as [|z l]; simpl; [lia|].
    destruct (severity_rank x <? severity_rank z); simpl; lia.
  - apply Z.ltb_ge in E. simpl. done.
Qed.

Lemma sorted_desc_descending l : descending (sorted_desc l).
Proof.
  induction l as [|x l IH]; simpl; [done|].
  by apply insert_desc_descending.
Qed.

Lemma sorted_desc_fixed l : descending l -> sorted_desc l = l.
Proof.
  induction l as [|x l IH]; simpl; [done|].
  intros [Hx Hl]. rewrite IH by done.
  destruct l as [|y l]; simpl; [done|].
  by rewrite (proj2 (Z.ltb_ge _ _) Hx).
Qed.

Lemma descending_ranks l l' :
  map severity_rank l = map severity_rank l' ->
  descending l -> descending l'.
Proof.
  revert l'. induction l as [|x l IH]; intros [|x' l'] Hm; try done.
  simpl in Hm. injection Hm as Hx Hm. simpl. intros [Hh Hl].
  split; [|by apply IH].
  destruct l as [|y l], l' as [|y' l']; try done.
  simpl in Hm. injection Hm as Hy _. lia.
Qed.

Lemma resolve_group_again g :
  resolve_group (resolve_group g) = resolve_group g.
Proof.
  destruct (decide (g = [])) as [->|Hne]; [done|].
  pose proof (resolve_group_edits g Hne) as Hp.
  pose proof (edits_length _ _ Hp) as Hlen.
  pose proof (check_patch_conflict_edits _ _ Hp) as Hchk.
  destruct (decide (length g = 1%nat)) as [H1|H1].
  { assert (resolve_group g = g) as Hg
      by (unfold resolve_group; by rewrite decide_True).
    by rewrite !Hg. }
  destruct (_check_patch_conflict g) eqn:Hc.
  - unfold resolve_group at 1.
    rewrite decide_False by congruence. rewrite Hchk.
    rewrite resolve_group_conflict by done.
    rewrite !map_map. by apply map_ext.
  - destruct (resolve_group_quiet g Hc Hne) as (h & rest & Hs & Hr).
    unfold resolve_group at 1.
    rewrite decide_False by congruence. rewrite Hchk.
    rewrite Hr. rewrite sorted_desc_fixed.
    + rewrite map_map. f_equal.
    + eapply (descending_ranks (h :: rest)).
      * simpl. f_equal. rewrite map_map. by apply map_ext.
      * rewrite <- Hs. apply sorted_desc_descending.
Qed.

(** Running the resolver on its own result changes nothing. *)
Theorem deduplicate_issues_idempotent (issues : list issue) :
  deduplicate_issues (deduplicate_issues issues)
  = deduplicate_issues issues.
Proof.
  rewrite (deduplicate_issues_blocks issues).
  unfold deduplicate_issues at 1.
  rewrite grouped_blocks;
    [|apply first_keys_NoDup|intros k Hk; by apply resolve_group_block].
  induction (first_keys issues) as [|k ks IH]; simpl; [done|].
  by rewrite IH, resolve_group_again.
Qed.


(** *** The summary of conflicts *)

Lemma sum_counts_entries (gs : list (key * list issue)) :
  sum_counts (map summary_entry gs)
  = Z.of_nat (length (flat_map snd gs)).
Proof.
  induction gs as [|g gs IH]; simpl; [done|].
  rewrite IH, length_app. lia.
Qed.

Lemma flat_map_ids_entries (gs : list (key * list issue)) :
  flat_map ce_issue_ids (map summary_entry gs) = map id (flat_map snd gs).
Proof.
  induction gs as [|g gs IH]; simpl; [done|].
  by rewrite IH, map_app.
Qed.

Lemma flat_map_snd_groups (f : key -> list issue) ks :
  flat_map snd (map (fun k => (k, f k)) ks) = flat_map f ks.
Proof. induction ks as [|k ks IH]; simpl; [done|]. by rewrite IH. Qed.

(** For any list of edits, the summary has one entry per file and line
    on which an edit has the status ["conflict"]; [total_conflicts]
    counts the entries; every such edit is listed in exactly one entry;
    and the entries' counts are the lengths of their id lists, at least
    1, and add up to the number of such edits. *)
Theorem conflict_summary_partitions (issues : list issue) :
  let marked := filter (fun x => status x = "conflict") issues in
  let s := get_conflict_summary issues in
  total_conflicts s = Z.of_nat (length (conflicts s))
  /\ map entry_key (conflicts s) = first_keys marked
  /\ NoDup (map entry_key (conflicts s))
  /\ flat_map ce_issue_ids (conflicts s) ≡ₚ map id marked
  /\ sum_counts (conflicts s) = Z.of_nat (length marked)
  /\ Forall (fun e => ce_issue_count e = Z.of_nat (length (ce_issue_ids e))
                      /\ 1 <= ce_issue_count e) (conflicts s).
Proof.
  intros marked s. subst s. unfold get_conflict_summary. simpl.
  fold marked. rewrite grouped_spec.
  assert (map entry_key
            (map summary_entry
               (map (fun k => (k, filter (fun y => key_of y = k) marked))
                    (first_keys marked))) = first_keys marked) as Hkeys.
  { rewrite !map_map. rewrite <- (map_id (first_keys marked)) at 2.
    apply map_ext. by intros []. }
  pose proof (groups_partition marked (first_keys marked)
                (first_keys_NoDup _) (first_keys_cover _)) as Hpart.
  unfold line_group in Hpart.
  repeat split.
  - by rewrite !length_map.
  - exact Hkeys.
  - rewrite Hkeys. apply first_keys_NoDup.
  - rewrite flat_map_ids_entries, flat_map_snd_groups.
    by apply Permutation_map.
  - rewrite sum_counts_entries, flat_map_snd_groups.
    by rewrite (Permutation_length Hpart).
  - apply Forall_forall. intros e He.
    apply list_elem_of_fmap in He as (g & -> & Hg).
    apply list_elem_of_fmap in Hg as (k & -> & Hk).
    simpl. rewrite length_map. split; [done|].
    pose proof (line_group_nonempty marked k Hk) as Hne.
    unfold line_group in Hne.
    destruct (filter _ marked); simpl; [done | lia].
Qed.

Lemma sum_counts_summary (issues : list issue) :
  sum_counts (conflicts (get_conflict_summary issues))
  = Z.of_nat (length (filter (fun x => status x = "conflict") issues)).
Proof.
  unfold get_conflict_summary. simpl. rewrite grouped_spec.
  rewrite sum_counts_entries, flat_map_snd_groups.
  pose proof (groups_partition
                (filter (fun x => status x = "conflict") issues)
                (first_keys (filter (fun x => status x = "conflict") issues))
                (first_keys_NoDup _) (first_keys_cover _)) as Hpart.
  unfold line_group in Hpart.
  by rewrite (Permutation_length Hpart).
Qed.

Lemma filter_flat_map {A B} (P : B -> Prop) `{forall x, Decision (P x)}
    (f : A -> list B) ks :
  filter P (flat_map f ks) = flat_map (fun k => filter P (f k)) ks.
Proof.
  induction ks as [|k ks IH]; simpl; [done|].
  by rewrite filter_app, IH.
Qed.

Lemma flat_map_selected {A B} (c : A -> bool) (f : A -> list B) ks :
  flat_map (fun k => if c k then f k else []) ks
  = flat_map f (filter (fun k => c k = true) ks).
Proof.
  induction ks as [|k ks IH]; simpl; [done|].
  destruct (c k) eqn:E.
  - rewrite filter_cons_True by done. simpl. by rewrite IH.
  - rewrite filter_cons_False by congruence. by rewrite IH.
Qed.

Lemma flat_map_agree {A B} (f g : A -> list B) ks :
  (forall k, k ∈ ks -> f k = g k) -> flat_map f ks = flat_map g ks.
Proof.
  induction ks as [|k ks IH]; simpl; intros Hfg; [done|].
  rewrite Hfg by left. rewrite IH; [done|].
  intros k' Hk'. apply Hfg. by right.
Qed.

Lemma filter_all {A} (P : A -> Prop) `{forall x, Decision (P x)} l :
  Forall P l -> filter P l = l.
Proof.
  induction 1 as [|x l Hx Hl IH]; [done|].
  by rewrite filter_cons_True, IH.
Qed.

Lemma filter_none {A} (P : A -> Prop) `{forall x, Decision (P x)} l :
  Forall (fun x => ~ P x) l -> filter P l = [].
Proof.
  induction 1 as [|x l Hx Hl IH]; [done|].
  by rewrite filter_cons_False, IH.
Qed.

Lemma sorted_desc_sub g h rest x :
  sorted_desc g = h :: rest -> x ∈ h :: rest -> x ∈ g.
Proof.
  intros Hs Hx. rewrite <- Hs in Hx. by rewrite sorted_desc_perm in Hx.
Qed.

(** The marks one group gets, for edits that carry none yet. *)
Lemma block_marked l k :
  Forall (fun x => status x ≠ "conflict") l -> k ∈ first_keys l ->
  filter (fun x => status x = "conflict") (resolve_group (line_group l k))
  = if _check_patch_conflict (line_group l k)
    then resolve_group (line_group l k) else [].
Proof.
  intros Hl Hk. pose proof (line_group_nonempty l k Hk) as Hne.
  destruct (_check_patch_conflict (line_group l k)) eqn:Hc.
  - rewrite resolve_group_conflict by done.
    apply filter_all, Forall_forall. intros y Hy.
    by apply list_elem_of_fmap in Hy as (x & -> & _).
  - destruct (resolve_group_quiet _ Hc Hne) as (h & rest & Hs & ->).
    apply filter_none. constructor.
    + apply (proj1 (Forall_forall _ _) Hl).
      assert (h ∈ line_group l k) as Hh
        by (eapply sorted_desc_sub; [done | left]).
      by apply list_elem_of_filter in Hh as [_ ?].
    + apply Forall_forall. intros y Hy.
      by apply list_elem_of_fmap in Hy as (x & -> & _).
Qed.

Lemma summary_entry_marked k ids g :
  summary_entry (k, map (mark_conflict ids) g) = summary_entry (k, g).
Proof.
  unfold summary_entry. simpl. rewrite length_map, !map_map. done.
Qed.

(** The summary of what the resolver returns, for edits without the
    status ["conflict"]: one entry for each line whose edits conflict, in
    the order of the lines' first edits, with the ids, actions and
    severities of all the edits of that line in input order. *)
Theorem conflict_summary_of_deduplicated (issues : list issue) :
  Forall (fun x => status x ≠ "conflict") issues ->
  get_conflict_summary (deduplicate_issues issues)
  = {| total_conflicts := Z.of_nat (length (conflict_keys issues));
       conflicts :=
         map (fun k => summary_entry (k, line_group issues k))
             (conflict_keys issues) |}.
Proof.
  intros Hl. unfold get_conflict_summary.
  assert (grouped (filter (fun x => status x = "conflict")
                          (deduplicate_issues issues))
          = map (fun k => (k, resolve_group (line_group issues k)))
                (conflict_keys issues)) as ->.
  { rewrite deduplicate_issues_blocks, filter_flat_map.
    rewrite (flat_map_agree
               (fun k => filter (fun x => status x = "conflict")
                           (resolve_group (line_group issues k)))
               (fun k => if _check_patch_conflict (line_group issues k)
                         then resolve_group (line_group issues k) else [])
               (first_keys issues)).
    - rewrite flat_map_selected. apply grouped_blocks.
      + apply NoDup_filter, first_keys_NoDup.
      + intros k Hk. apply list_elem_of_filter in Hk as [_ Hk].
        by apply resolve_group_block.
    - intros k Hk. by apply block_marked. }
  rewrite !length_map, map_map. f_equal.
  apply map_ext_in. intros k Hk.
  apply list_elem_of_In, list_elem_of_filter in Hk as [Hc _].
  by rewrite resolve_group_conflict, summary_entry_marked.
Qed.

Lemma conflict_summary_of_deduplicated_witness :
  get_conflict_summary (deduplicate_issues [edit_a; edit_c; edit_b; edit_d])
  = {| total_conflicts := 1;
       conflicts :=
         [ {| ce_file_path := "fileA"; ce_line_number := 10;
              ce_issue_count := 2; ce_issue_ids := [1; 2];
              ce_actions := ["replace_line"; "replace_line"];
              ce_severities := ["high"; "low"] |} ] |}.
Proof.
  rewrite (conflict_summary_of_deduplicated [edit_a; edit_c; edit_b; edit_d]).
  - reflexivity.
  - repeat constructor; discriminate.
Defined.


(** *** The counts of the deduplication route *)

Lemma count_one_fold (c : Deduplication.counters) l :
  let c' := foldl Deduplication.count_one c l in
  Deduplication.superseded_count c'
  = Deduplication.superseded_count c
    + Z.of_nat (length (filter (fun x => status x = "superseded") l))
  /\ Deduplication.conflict_count c'
     = Deduplication.conflict_count c
       + Z.of_nat (length (filter (fun x => status x = "conflict") l))
  /\ Z.of_nat (length (Deduplication.updates c'))
     = Z.of_nat (length (Deduplication.updates c))
       + Z.of_nat (length (filter (fun x => status x = "superseded") l))
       + Z.of_nat (length (filter (fun x => status x = "conflict") l)).
Proof.
  revert c. induction l as [|x l IH]; intros c; simpl; [lia|].
  destruct (IH (Deduplication.count_one c x)) as (H1 & H2 & H3).
  rewrite H1, H2, H3. clear IH H1 H2 H3.
  unfold Deduplication.count_one.
  destruct (decide (status x = "superseded")) as [Es|Es].
  - rewrite (filter_cons_True (fun x => status x = "superseded")) by done.
    rewrite (filter_cons_False (fun x => status x = "conflict"))
      by (rewrite Es; discriminate).
    simpl. rewrite length_app. simpl. lia.
  - rewrite (filter_cons_False (fun x => status x = "superseded")) by done.
    destruct (decide (status x = "conflict")) as [Ec|Ec].
    + rewrite (filter_cons_True (fun x => status x = "conflict")) by done.
      simpl. rewrite length_app. simpl. lia.
    + rewrite (filter_cons_False (fun x => status x = "conflict")) by done.
      lia.
Qed.

(** In one group of unmarked edits: the superseded ones, the conflicting
    ones and, on a line without conflict, the one that is kept. *)
Lemma block_counts l k :
  Forall unmarked l -> k ∈ first_keys l ->
  let b := resolve_group (line_group l k) in
  (length (filter (fun x => status x = "superseded") b)
   + length (filter (fun x => status x = "conflict") b)
   + (if _check_patch_conflict (line_group l k) then 0 else 1)
   = length (line_group l k))%nat.
Proof.
  intros Hl Hk b. subst b.
  pose proof (line_group_nonempty l k Hk) as Hne.
  destruct (_check_patch_conflict (line_group l k)) eqn:Hc.
  - rewrite resolve_group_conflict by done.
    rewrite (filter_none (fun x => status x = "superseded")).
    + rewrite (filter_all (fun x => status x = "conflict")).
      * rewrite length_map. simpl. lia.
      * apply Forall_forall. intros y Hy.
        by apply list_elem_of_fmap in Hy as (x & -> & _).
    + apply Forall_forall. intros y Hy.
      by apply list_elem_of_fmap in Hy as (x & -> & _).
  - destruct (resolve_group_quiet _ Hc Hne) as (h & rest & Hs & ->).
    assert (unmarked h) as [Hh1 Hh2].
    { apply (proj1 (Forall_forall _ _) Hl).
      assert (h ∈ line_group l k) as Hh
        by (eapply sorted_desc_sub; [done | left]).
      by apply list_elem_of_filter in Hh as [_ ?]. }
    rewrite (filter_cons_False (fun x => status x = "superseded")) by done.
    rewrite (filter_cons_False (fun x => status x = "conflict")) by done.
    rewrite (filter_all (fun x => status x = "superseded")).
    + rewrite (filter_none (fun x => status x = "conflict")).
      * rewrite length_map. simpl.
        rewrite <- (Permutation_length (sorted_desc_perm (line_group l k))).
        rewrite Hs. simpl. lia.
      * apply Forall_forall. intros y Hy.
        by apply list_elem_of_fmap in Hy as (x & -> & _).
    + apply Forall_forall. intros y Hy.
      by apply list_elem_of_fmap in Hy as (x & -> & _).
Qed.

Lemma blocks_counts l ks :
  Forall unmarked l -> (forall k, k ∈ ks -> k ∈ first_keys l) ->
  let out := flat_map (fun k => resolve_group (line_group l k)) ks in
  (length (filter (fun x => status x = "superseded") out)
   + length (filter (fun x => status x = "conflict") out)
   + length (filter (fun k => _check_patch_conflict (line_group l k) = false)
                    ks)
   = length (flat_map (line_group l) ks))%nat.
Proof.
  intros Hl. induction ks as [|k ks IH]; intros Hks; simpl; [done|].
  rewrite !filter_app, !length_app.
  pose proof (block_counts l k Hl (Hks k ltac:(left))) as Hb.
  simpl in Hb, IH.
  specialize (IH (fun k' Hk' => Hks k' ltac:(by right))).
  destruct (_check_patch_conflict (line_group l k)) eqn:Hc.
  - rewrite filter_cons_False by congruence. lia.
  - rewrite filter_cons_True by done. simpl. lia.
Qed.

(** The answer of the deduplication route, for the unmarked edits it
    selects: every edit is superseded, in conflict or the one edit kept
    on a line without conflict; the count of conflicts is the sum of the
    counts in the summary; and the route sends one update for each
    superseded or conflicting edit. *)
Theorem deduplicate_route_counts (issues : list issue) :
  Forall unmarked issues -> issues ≠ [] ->
  exists ups a,
    Deduplication.deduplicate_job_issues issues = Some (ups, a)
    /\ Deduplication.total_issues a
       = Deduplication.superseded a + Deduplication.conflicts a
         + Z.of_nat (length (quiet_keys issues))
    /\ Deduplication.conflicts a
       = sum_counts (conflicts (Deduplication.conflict_summary a))
    /\ Z.of_nat (length ups)
       = Deduplication.superseded a + Deduplication.conflicts a.
Proof.
  intros Hl Hne. unfold Deduplication.deduplicate_job_issues.
  destruct issues as [|x0 l0] eqn:El; [done|]. rewrite <- El in *.
  eexists _, _. split; [reflexivity|].
  cbn [Deduplication.total_issues Deduplication.superseded
       Deduplication.conflicts Deduplication.conflict_summary].
  destruct (count_one_fold (Deduplication.mk_counters [] 0 0)
              (deduplicate_issues issues)) as (H1 & H2 & H3).
  simpl in H1, H2, H3. rewrite H1, H2, H3.
  rewrite (sum_counts_summary (deduplicate_issues issues)).
  pose proof (blocks_counts issues (first_keys issues) Hl (fun _ H => H))
    as Hb. simpl in Hb.
  rewrite <- deduplicate_issues_blocks in Hb.
  rewrite (Permutation_length
             (groups_partition issues (first_keys issues)
                (first_keys_NoDup _) (first_keys_cover _))) in Hb.
  unfold quiet_keys. repeat split; lia.
Qed.

Lemma deduplicate_route_counts_witness :
  exists ups a,
    Deduplication.deduplicate_job_issues [edit_a; edit_c; edit_b; edit_d]
    = Some (ups, a)
    /\ Deduplication.total_issues a
       = Deduplication.superseded a + Deduplication.conflicts a
         + Z.of_nat (length (quiet_keys [edit_a; edit_c; edit_b; edit_d]))
    /\ Deduplication.conflicts a
       = sum_counts (conflicts (Deduplication.conflict_summary a))
    /\ Z.of_nat (length ups)
       = Deduplication.superseded a + Deduplication.conflicts a.
Proof.
  apply (deduplicate_route_counts [edit_a; edit_c; edit_b; edit_d]).
  - repeat constructor; discriminate.
  - discriminate.
Defined.

End resolver_structure.

(** ** Segmenter: every text *)

Section segmenter_chain.
Import Chunker.

(** *** Lines of [splitlines] hold no line feed *)

Lemma chars_of_chars l : PyStr.chars (PyStr.of_chars l) = l.
Proof. apply list_ascii_of_string_of_list_ascii. Qed.

Lemma of_chars_chars s : PyStr.of_chars (PyStr.chars s) = s.
Proof. apply string_of_list_ascii_of_string. Qed.

Lemma chars_app s t : PyStr.chars (s +:+ t) = PyStr.chars s ++ PyStr.chars t.
Proof. induction s as [|c s IH]; simpl; [done|]. by rewrite IH. Qed.

Lemma is_lf_linebreak c : PyStr.is_lf c = true -> PyStr.is_linebreak c = true.
Proof.
  unfold PyStr.is_lf, PyStr.is_linebreak. intros H%Z.eqb_eq. rewrite H.
  reflexivity.
Qed.

Lemma splitlines_go_no_break cur s :
  Forall (fun c => PyStr.is_linebreak c = false) cur ->
  Forall (Forall (fun c => PyStr.is_linebreak c = false))
         (PyStr.splitlines_go false cur s).
Proof.
  remember (length s) as n eqn:Hn.
  assert (length s <= n)%nat as Hle by lia. clear Hn.
  revert s cur Hle. induction n as [|n IH]; intros s cur Hle Hcur.
  - destruct s; [|simpl in Hle; lia]. simpl.
    destruct cur; [constructor|].
    constructor; [|constructor]. by apply Forall_rev.
  - destruct s as [|c s]; simpl.
    + destruct cur; [constructor|].
      constructor; [|constructor]. by apply Forall_rev.
    + simpl in Hle. destruct (PyStr.is_linebreak c) eqn:Hc.
      * destruct s as [|d s'].
        -- constructor; [|constructor].
           rewrite app_nil_r. by apply Forall_rev.
        -- simpl in Hle. destruct (PyStr.is_cr c && PyStr.is_lf d).
           ++ constructor; [rewrite app_nil_r; by apply Forall_rev|].
              apply IH; [lia | constructor].
           ++ constructor; [rewrite app_nil_r; by apply Forall_rev|].
              apply IH; [simpl; lia | constructor].
      * apply IH; [lia|]. by constructor.
Qed.

Lemma count_newlines_app a b :
  PyStr.count_newlines (a ++ b)
  = PyStr.count_newlines a + PyStr.count_newlines b.
Proof.
  unfold PyStr.count_newlines. rewrite filter_app, length_app. lia.
Qed.

Lemma count_newlines_nonneg a : 0 <= PyStr.count_newlines a.
Proof. unfold PyStr.count_newlines. lia. Qed.

Lemma count_newlines_none a :
  Forall (fun c => PyStr.is_linebreak c = false) a ->
  PyStr.count_newlines a = 0.
Proof.
  intros H. unfold PyStr.count_newlines.
  rewrite filter_none; [done|].
  eapply Forall_impl; [exact H|]. simpl. intros c Hc Hlf.
  apply is_lf_linebreak in Hlf. congruence.
Qed.

Lemma count_newlines_take m a :
  PyStr.count_newlines (take m a) <= PyStr.count_newlines a.
Proof.
  rewrite <- (take_drop m a) at 2. rewrite count_newlines_app.
  pose proof (count_newlines_nonneg (drop m a)). lia.
Qed.

Lemma count_newlines_join ls :
  Forall (fun l => Forall (fun c => PyStr.is_linebreak c = false)
                          (PyStr.chars l)) ls ->
  ls ≠ [] ->
  PyStr.count_newlines (PyStr.chars (PyStr.join PyStr.newline ls))
  = Z.of_nat (length ls) - 1.
Proof.
  induction 1 as [|l ls Hl Hls IH]; [done|]. intros _.
  destruct ls as [|l' ls].
  - simpl. rewrite count_newlines_none by done. lia.
  - change (PyStr.join PyStr.newline (l :: l' :: ls))
      with (l +:+ PyStr.newline +:+ PyStr.join PyStr.newline (l' :: ls)).
    rewrite !chars_app, !count_newlines_app.
    rewrite IH by done. rewrite count_newlines_none by done.
    change (PyStr.count_newlines (PyStr.chars PyStr.newline)) with 1.
    simpl length. lia.
Qed.

Lemma splitlines_no_break text :
  Forall (fun l => Forall (fun c => PyStr.is_linebreak c = false)
                          (PyStr.chars l))
         (PyStr.splitlines false text).
Proof.
  unfold PyStr.splitlines. apply Forall_fmap.
  eapply Forall_impl; [apply splitlines_go_no_break; constructor|].
  simpl. intros l Hl. by rewrite chars_of_chars.
Qed.


(** *** How far expansion can move the end *)

Lemma slice_length {A} (l : list A) (a b : Z) :
  0 <= a <= b -> b <= PyList.len l ->
  PyList.len (PyList.slice l a b) = b - a.
Proof.
  unfold PyList.slice, PyList.clamp, PyList.len. intros Ha Hb.
  rewrite !(proj2 (Z.ltb_ge _ _)) by lia.
  rewrite !Z.min_l by lia.
  rewrite length_take, length_drop. lia.
Qed.

Lemma slice_Forall {A} (P : A -> Prop) (l : list A) (a b : Z) :
  Forall P l -> Forall P (PyList.slice l a b).
Proof. intros H. unfold PyList.slice. by apply Forall_take, Forall_drop. Qed.

Lemma expand_step_bound lines start total content close e m b :
  start + PyStr.count_newlines content + max_search_default <= b ->
  e <= b ->
  expand_step lines start total content close e m <= b.
Proof.
  intros Hb He. unfold expand_step.
  destruct (_find_closing_tag _ _ _ _ _) as [c|] eqn:E; [|lia].
  apply find_closing_tag_Some in E as (Hc & _ & _).
  pose proof (count_newlines_take m content).
  destruct (c >=? e); lia.
Qed.

Lemma expand_bound lines start e :
  Forall (fun l => Forall (fun c => PyStr.is_linebreak c = false)
                          (PyStr.chars l)) lines ->
  0 <= start < e -> e <= PyList.len lines ->
  _expand_for_semantic_blocks lines start e (PyList.len lines)
  <= e + max_expansion.
Proof.
  intros Hl Hs He. unfold _expand_for_semantic_blocks.
  assert (PyStr.count_newlines
            (PyStr.chars (PyStr.join PyStr.newline
                            (PyList.slice lines start e)))
          = e - start - 1) as Hcount.
  { pose proof (slice_length lines start e ltac:(lia) He) as Hlen.
    unfold PyList.len in Hlen at 1.
    rewrite count_newlines_join; [lia | by apply slice_Forall |].
    intros E. rewrite E in Hlen. simpl in Hlen. lia. }
  apply foldl_le; [|unfold max_expansion, max_search_default; lia].
  intros e' [? [? ?]] He'. apply foldl_le; [|done].
  intros e'' m He''. apply expand_step_bound; [|done].
  rewrite Hcount. unfold max_expansion. lia.
Qed.

(** *** The chain of ranges *)

Lemma chunk_loop_chain path lines fuel start cs :
  Forall (fun l => Forall (fun c => PyStr.is_linebreak c = false)
                          (PyStr.chars l)) lines ->
  0 <= start < PyList.len lines ->
  chunk_loop chunker path lines fuel start = Some cs ->
  exists rs,
    chain_ranges (PyList.len lines) start rs
    /\ cs = map (fun r => make_chunk chunker path lines (r.1 - 1) r.2) rs.
Proof.
  intros Hl. revert start cs.
  induction fuel as [|fuel IH]; intros start cs Hs H; [done|].
  simpl in H. rewrite (proj2 (Z.ltb_lt _ _)) in H by lia.
  set (N := PyList.len lines) in *.
  set (e0 := Z.min (start + 180) N) in *.
  pose proof (expand_ge lines start e0 N) as Hge.
  pose proof (expand_le lines start e0 N ltac:(unfold e0; lia)) as Hle.
  pose proof (expand_bound lines start e0 Hl
                ltac:(unfold e0; lia) ltac:(unfold e0, N; lia)) as Hbd.
  fold N in Hbd.
  set (e := _expand_for_semantic_blocks lines start e0 N) in *.
  unfold max_expansion, max_search_default in Hbd.
  destruct ((e - 20 >=? N) || (e >=? N)) eqn:Hb.
  - injection H as <-.
    assert (e = N) as EN.
    { apply orb_true_iff in Hb as [Hb|Hb]; lia. }
    exists [(start + 1, N)]. split.
    + apply chain_last; [lia|].
      unfold max_expansion, max_search_default. simpl.
      unfold e0 in *. lia.
    + simpl. replace (start + 1 - 1) with start by lia. by rewrite EN.
  - apply orb_false_iff in Hb as [_ Hb].
    destruct (chunk_loop chunker path lines fuel (e - 20)) as [rest|] eqn:Hr;
      [|done].
    simpl in H. injection H as <-.
    assert (start + 180 <= e /\ e < N) as [E1 E2] by (unfold e0 in *; lia).
    destruct (IH (e - 20) rest ltac:(lia) Hr) as (rs & Hrs & ->).
    exists ((start + 1, e) :: rs). split.
    + apply chain_more; simpl; try lia.
      * unfold max_expansion, max_search_default. unfold e0 in *. lia.
      * done.
    + simpl. by replace (start + 1 - 1) with start by lia.
Qed.

Lemma chain_ranges_head N s rs :
  chain_ranges N s rs -> exists e rest, rs = (s + 1, e) :: rest.
Proof. destruct 1; eauto. Qed.

Lemma chain_ranges_cover N s rs :
  chain_ranges N s rs ->
  forall i, s < i <= N -> exists r, r ∈ rs /\ r.1 <= i <= r.2.
Proof.
  induction 1 as [s Hs Hn | s e rs Hs He1 He2 He3 Hrs IH]; intros i Hi.
  - exists (s + 1, N). split; [by left|]. simpl. lia.
  - destruct (decide (i <= e)) as [Hle|Hgt].
    + exists (s + 1, e). split; [by left|]. simpl. lia.
    + simpl in IH. destruct (IH i ltac:(lia)) as (r & Hr & Hir).
      exists r. split; [by right|done].
Qed.

Lemma chain_ranges_adjacent N s rs :
  chain_ranges N s rs ->
  forall k r1 r2, rs !! k = Some r1 -> rs !! S k = Some r2 ->
    r2.1 = r1.2 - overlap chunker + 1 /\ r1.1 < r2.1 /\ r1.2 < r2.2.
Proof.
  induction 1 as [s Hs Hn | s e rs Hs He1 He2 He3 Hrs IH];
    intros k r1 r2 H1 H2.
  - by destruct k.
  - destruct k as [|k].
    + simpl in H1, H2. injection H1 as <-.
      inversion Hrs as [s' ? ? E|s' e' rs' ? ? ? ? ? E]; subst;
        simpl in H2; injection H2 as <-; simpl in *; lia.
    + simpl in H1, H2. by apply (IH k).
Qed.

Lemma chain_ranges_bounds N s rs :
  chain_ranges N s rs ->
  forall r, r ∈ rs ->
    s + 1 <= r.1 <= r.2 /\ r.2 <= N
    /\ r.2 - r.1 + 1 <= chunk_size chunker + max_expansion
    /\ (r.2 < N -> chunk_size chunker <= r.2 - r.1 + 1).
Proof.
  induction 1 as [s Hs Hn | s e rs Hs He1 He2 He3 Hrs IH]; intros r Hr.
  - apply list_elem_of_singleton in Hr as ->. simpl in *. lia.
  - apply elem_of_cons in Hr as [->|Hr]; [simpl in *; lia|].
    specialize (IH r Hr). simpl in *. lia.
Qed.

Lemma chain_ranges_last N s rs :
  chain_ranges N s rs -> exists a, last rs = Some (a, N).
Proof.
  induction 1 as [s Hs Hn | s e rs Hs He1 He2 He3 Hrs [a IH]];
    [by exists (s + 1)|].
  exists a. destruct rs; [done|]. done.
Qed.

Lemma chunk_file_chain path text cs :
  let lines := PyStr.splitlines false text in
  chunk_file chunker path text = Some cs ->
  cs = [] /\ lines = []
  \/ exists rs,
       chain_ranges (PyList.len lines) 0 rs
       /\ cs = map (fun r => make_chunk chunker path lines (r.1 - 1) r.2) rs.
Proof.
  intros lines H. unfold chunk_file in H. fold lines in H.
  destruct (PyList.len lines =? 0) eqn:E.
  - left. injection H as <-. split; [done|].
    apply Z.eqb_eq in E. unfold PyList.len in E. by destruct lines.
  - right. apply Z.eqb_neq in E.
    apply chunk_loop_chain in H; [done | apply splitlines_no_break |].
    unfold PyList.len in *. lia.
Qed.


Lemma range_make_chunk path lines (r : Z * Z) :
  range (make_chunk chunker path lines (r.1 - 1) r.2) = r.
Proof. destruct r as [a b]. unfold range. simpl. f_equal. lia. Qed.

Lemma map_range_make_chunk path lines rs :
  map range (map (fun r => make_chunk chunker path lines (r.1 - 1) r.2) rs)
  = rs.
Proof.
  rewrite map_map. rewrite <- (map_id rs) at 2.
  apply map_ext. intros r. apply range_make_chunk.
Qed.

(** Whatever the text, and whether or not semantic expansion moved an
    end: the chunker returns a list of segments; it is empty for a text
    without lines; otherwise the first segment starts at line 1 and the
    last one ends at the last line; each next segment starts [overlap]
    lines before the end of the previous one, and starts and ends
    strictly later; every segment lies within the file and is not empty;
    and every line of the file is in some segment. *)
Theorem segments_chain (path text : string) :
  let N := PyList.len (PyStr.splitlines false text) in
  exists cs,
    chunk_file chunker path text = Some cs
    /\ (N = 0 -> cs = [])
    /\ (0 < N ->
        (exists c, head cs = Some c /\ start_line c = 1)
        /\ (exists c, last cs = Some c /\ end_line c = N))
    /\ (forall k c1 c2, cs !! k = Some c1 -> cs !! S k = Some c2 ->
          start_line c2 = end_line c1 - overlap chunker + 1
          /\ start_line c1 < start_line c2
          /\ end_line c1 < end_line c2)
    /\ (forall c, c ∈ cs ->
          1 <= start_line c <= end_line c /\ end_line c <= N)
    /\ (forall i, 1 <= i <= N ->
          exists c, c ∈ cs /\ start_line c <= i <= end_line c).
Proof.
  intros N. destruct (chunk_file_total path text) as [cs Hcs].
  exists cs. split; [done|].
  destruct (chunk_file_chain path text cs Hcs) as [[-> Hl]|(rs & Hrs & Hcs')].
  { fold N in Hl. assert (N = 0) as HN by (unfold N; by rewrite Hl).
    split; [done|]. split; [lia|]. split; [done|].
    split; [intros ? Hx; by apply elem_of_nil in Hx | lia]. }
  fold N in Hrs.
  assert (map range cs = rs) as Hranges
    by (rewrite Hcs'; apply map_range_make_chunk).
  assert (forall c, c ∈ cs -> range c ∈ rs) as Hin.
  { intros c Hc. rewrite <- Hranges. apply list_elem_of_fmap. eauto. }
  assert (forall k c, cs !! k = Some c -> rs !! k = Some (range c)) as Hlk.
  { intros k c Hk. rewrite <- Hranges.
    change (map range cs) with (range <$> cs).
    by rewrite list_lookup_fmap, Hk. }
  split; [|split; [|split; [|split]]].
  - intros HN. inversion Hrs; simpl in *; lia.
  - intros HN. split.
    + destruct (chain_ranges_head _ _ _ Hrs) as (e & rest & Hr).
      rewrite Hr in Hcs'. rewrite Hcs'. simpl. eexists. split; [done|].
      simpl. lia.
    + destruct (chain_ranges_last _ _ _ Hrs) as [a Ha].
      rewrite <- Hranges in Ha.
      change (map range cs) with (range <$> cs) in Ha.
      rewrite fmap_last in Ha.
      destruct (last cs) as [c|]; [|done]. exists c. split; [done|].
      simpl in Ha. by injection Ha.
  - intros k c1 c2 H1 H2.
    apply (chain_ranges_adjacent _ _ _ Hrs k (range c1) (range c2));
      by apply Hlk.
  - intros c Hc.
    pose proof (chain_ranges_bounds _ _ _ Hrs _ (Hin c Hc)) as Hb.
    simpl in Hb. lia.
  - intros i Hi.
    destruct (chain_ranges_cover _ _ _ Hrs i ltac:(lia)) as (r & Hr & Hir).
    rewrite <- Hranges in Hr.
    apply list_elem_of_fmap in Hr as (c & -> & Hc).
    exists c. split; done.
Qed.

(** On the page whose script block makes the first segment longer. *)
Lemma segments_chain_witness :
  exists cs,
    chunk_file chunker "index.html" page_script = Some cs
    /\ exists c, last cs = Some c /\ end_line c = 250.
Proof.
  destruct (segments_chain "index.html" page_script)
    as (cs & Hcs & _ & H & _).
  exists cs. split; [done|].
  apply H. vm_compute. reflexivity.
Defined.

(** A segment has at most [chunk_size + 99] lines, and at least
    [chunk_size] unless it ends at the last line of the file: the search
    for a closing marker starts inside the segment and reads at most 100
    lines. *)
Theorem segment_size_bounds (path text : string) (cs : list chunk)
    (c : chunk) :
  chunk_file chunker path text = Some cs -> c ∈ cs ->
  line_count c = end_line c - start_line c + 1
  /\ line_count c <= chunk_size chunker + max_expansion
  /\ (end_line c < PyList.len (PyStr.splitlines false text) ->
      chunk_size chunker <= line_count c).
Proof.
  intros Hcs Hc.
  destruct (chunk_file_chain path text cs Hcs) as [[-> _]|(rs & Hrs & ->)];
    [by apply elem_of_nil in Hc|].
  apply list_elem_of_fmap in Hc as (r & -> & Hr).
  pose proof (chain_ranges_bounds _ _ _ Hrs r Hr) as Hb.
  cbn [line_count end_line start_line make_chunk].
  rewrite slice_length by lia. lia.
Qed.

Lemma segment_size_bounds_witness :
  exists cs c,
    chunk_file chunker "index.html" page_script = Some cs /\ c ∈ cs
    /\ line_count c = 210
    /\ line_count c <= chunk_size chunker + max_expansion.
Proof.
  destruct (chunk_file chunker "index.html" page_script) as [[|c cs]|] eqn:E;
    try (by vm_compute in E).
  exists (c :: cs), c. split; [done|]. split; [left|].
  split; [vm_compute in E; by injection E as <- _|].
  apply (segment_size_bounds "index.html" page_script (c :: cs) c E). left.
Defined.

Lemma context_of_None ls : context_of ls = None <-> ls = [].
Proof. by destruct ls. Qed.

Lemma len_nil_iff {A} (l : list A) : PyList.len l = 0 <-> l = [].
Proof. unfold PyList.len. destruct l; simpl; split; intros; done || lia. Qed.

(** What a segment carries: the path it was asked for; as text the
    lines from its first to its last line joined by line feeds; no
    leading context exactly when it starts at line 1; no trailing
    context exactly when it ends at the last line. *)
Theorem segment_fields (path text : string) (cs : list chunk) (c : chunk) :
  chunk_file chunker path text = Some cs -> c ∈ cs ->
  let lines := PyStr.splitlines false text in
  file_path c = path
  /\ content c
     = PyStr.join PyStr.newline
         (lines_between lines (start_line c) (end_line c))
  /\ (context_head c = None <-> start_line c = 1)
  /\ (context_tail c = None <-> end_line c = PyList.len lines).
Proof.
  intros Hcs Hc lines.
  destruct (chunk_file_chain path text cs Hcs) as [[-> _]|(rs & Hrs & ->)];
    [by apply elem_of_nil in Hc|].
  apply list_elem_of_fmap in Hc as (r & -> & Hr).
  pose proof (chain_ranges_bounds _ _ _ Hrs r Hr) as Hb.
  fold lines in Hb, Hrs |- *.
  cbn [file_path content context_head context_tail start_line end_line
       make_chunk].
  unfold lines_between.
  replace (r.1 - 1 + 1 - 1) with (r.1 - 1) by lia.
  repeat split; try done.
  - intros H%context_of_None%len_nil_iff.
    rewrite slice_length in H by (simpl; lia). simpl in H. lia.
  - intros H. apply context_of_None, len_nil_iff.
    rewrite slice_length by (simpl; lia). simpl. lia.
  - intros H%context_of_None%len_nil_iff.
    rewrite slice_length in H by (simpl; lia). simpl in H. lia.
  - intros H. apply context_of_None, len_nil_iff.
    rewrite slice_length by (simpl; lia). simpl. lia.
Qed.

Lemma segment_fields_witness :
  exists cs c,
    chunk_file chunker "index.html" page_200 = Some cs /\ c ∈ cs
    /\ (context_head c = None <-> start_line c = 1).
Proof.
  destruct (chunk_file chunker "index.html" page_200) as [[|c cs]|] eqn:E;
    try (by vm_compute in E).
  exists (c :: cs), c. split; [done|]. split; [left|].
  apply (segment_fields "index.html" page_200 (c :: cs) c E). left.
Defined.

End segmenter_chain.

(** ** Patch engine: what an edit leaves of the text *)

Section text_edit.
Import PatchEngine.

Lemma append_cons_str x (a b : string) :
  String x a +:+ b = String x (a +:+ b).
Proof. reflexivity. Qed.

Lemma append_assoc_str (a b c : string) : (a +:+ b) +:+ c = a +:+ (b +:+ c).
Proof.
  induction a as [|x a IH]; [done|].
  by rewrite !append_cons_str, IH.
Qed.

Lemma append_nil_r_str (a : string) : a +:+ "" = a.
Proof.
  induction a as [|x a IH]; [done|]. by rewrite append_cons_str, IH.
Qed.

Lemma of_chars_app a b :
  PyStr.of_chars (a ++ b) = PyStr.of_chars a +:+ PyStr.of_chars b.
Proof.
  induction a as [|x a IH]; [done|].
  change (PyStr.of_chars ((x :: a) ++ b))
    with (String x (PyStr.of_chars (a ++ b))).
  by rewrite IH.
Qed.

Lemma concat_lines_app a b :
  concat_lines (a ++ b) = concat_lines a +:+ concat_lines b.
Proof.
  induction a as [|x a IH]; simpl; [done|].
  by rewrite IH, append_assoc_str.
Qed.

Lemma concat_lines_of_chars ls :
  concat_lines (map PyStr.of_chars ls) = PyStr.of_chars (concat ls).
Proof.
  induction ls as [|l ls IH]; simpl; [done|].
  by rewrite IH, of_chars_app.
Qed.

Lemma splitlines_go_cons keepends cur c s :
  PyStr.splitlines_go keepends cur (c :: s)
  = if PyStr.is_linebreak c then
      match s with
      | d :: s' =>
          if PyStr.is_cr c && PyStr.is_lf d then
            (rev cur ++ (if keepends then [c; d] else []))
              :: PyStr.splitlines_go keepends [] s'
          else
            (rev cur ++ (if keepends then [c] else []))
              :: PyStr.splitlines_go keepends [] s
      | [] => [rev cur ++ (if keepends then [c] else [])]
      end
    else PyStr.splitlines_go keepends (c :: cur) s.
Proof. by destruct s. Qed.

(** With [keepends] the lines are the text cut into pieces. *)
Lemma splitlines_go_keepends cur s :
  concat (PyStr.splitlines_go true cur s) = rev cur ++ s.
Proof.
  remember (length s) as n eqn:Hn.
  assert (length s <= n)%nat as Hle by lia. clear Hn.
  revert s cur Hle. induction n as [|n IH]; intros s cur Hle.
  - destruct s; [|simpl in Hle; lia]. simpl.
    destruct cur; simpl; [done|]. by rewrite !app_nil_r.
  - destruct s as [|c s].
    { simpl. destruct cur; simpl; [done|]. by rewrite !app_nil_r. }
    rewrite splitlines_go_cons. simpl in Hle.
    destruct (PyStr.is_linebreak c) eqn:Hc.
    + destruct s as [|d s'].
      * simpl. by rewrite app_nil_r.
      * simpl in Hle. destruct (PyStr.is_cr c && PyStr.is_lf d).
        -- rewrite concat_cons, IH by lia. simpl. by rewrite <- app_assoc.
        -- rewrite concat_cons, IH by (simpl; lia). simpl.
           by rewrite <- app_assoc.
    + rewrite IH by lia. simpl. by rewrite <- app_assoc.
Qed.

Lemma concat_splitlines content :
  concat_lines (PyStr.splitlines true content) = content.
Proof.
  unfold PyStr.splitlines.
  rewrite concat_lines_of_chars, splitlines_go_keepends. simpl.
  apply of_chars_chars.
Qed.

Lemma text_before_after content n :
  text_before content n +:+ text_after content n = content.
Proof.
  unfold text_before, text_after.
  by rewrite <- concat_lines_app, take_drop, concat_splitlines.
Qed.


Lemma insert_in_range (lines : list string) (n : Z) (x : string) :
  0 <= n <= PyList.len lines ->
  PyList.insert lines n x
  = take (Z.to_nat n) lines ++ x :: drop (Z.to_nat n) lines.
Proof.
  intros Hn. unfold PyList.insert, PyList.clamp.
  rewrite (proj2 (Z.ltb_ge n 0)) by lia. by rewrite Z.min_l by lia.
Qed.

Lemma setitem_in_range (lines : list string) (n : Z) (x : string) :
  1 <= n <= PyList.len lines ->
  PyList.setitem lines (n - 1) x
  = Some (take (Z.to_nat (n - 1)) lines ++ x :: drop (Z.to_nat n) lines).
Proof.
  intros Hn. unfold PyList.setitem, PyList.len in *.
  rewrite (proj2 (Z.ltb_ge (n - 1) 0)) by lia.
  rewrite (proj2 (Z.leb_le 0 (n - 1))) by lia.
  rewrite (proj2 (Z.ltb_lt (n - 1) _)) by lia. simpl.
  rewrite insert_take_drop by lia.
  by replace (S (Z.to_nat (n - 1))) with (Z.to_nat n) by lia.
Qed.

Lemma getitem_in_range (lines : list string) (n : Z) :
  1 <= n <= PyList.len lines ->
  exists l, PyList.getitem lines (n - 1) = Some l
            /\ lines = take (Z.to_nat (n - 1)) lines
                       ++ l :: drop (Z.to_nat n) lines.
Proof.
  intros Hn. unfold PyList.getitem, PyList.len in *.
  rewrite (proj2 (Z.ltb_ge (n - 1) 0)) by lia.
  destruct (lookup_lt_is_Some_2 lines (Z.to_nat (n - 1)) ltac:(lia))
    as [l Hl].
  exists l. split; [done|].
  replace (Z.to_nat n) with (S (Z.to_nat (n - 1))) by lia.
  by rewrite take_drop_middle.
Qed.

Lemma in_range_spec (n : Z) (lines : list string) :
  in_range n lines = true <-> 1 <= n <= PyList.len lines.
Proof.
  unfold in_range. rewrite andb_true_iff, Z.ltb_lt, Z.leb_le. lia.
Qed.

Lemma concat_lines_cons x l : concat_lines (x :: l) = x +:+ concat_lines l.
Proof. done. Qed.

(** An action that is none of the three known ones is no error: both
    strategies return the text as it was. *)
Theorem unknown_action_keeps_text (content : string) (line_number : Z)
    (action code : string) :
  ~ known_action action ->
  _apply_dom_patch content line_number action code = Ok content
  /\ _apply_line_patch content line_number action code = Ok content.
Proof.
  intros Hk. unfold known_action in Hk.
  unfold _apply_dom_patch, _apply_line_patch.
  rewrite !decide_False by tauto. by rewrite concat_splitlines.
Qed.

Lemma unknown_action_keeps_text_witness :
  _apply_dom_patch ("<p>" +:+ NL) 7 "delete_line" "x" = Ok ("<p>" +:+ NL)
  /\ _apply_line_patch ("<p>" +:+ NL) 7 "delete_line" "x"
     = Ok ("<p>" +:+ NL).
Proof.
  apply (unknown_action_keeps_text ("<p>" +:+ NL) 7 "delete_line" "x").
  unfold known_action. intros [H|[H|H]]; discriminate.
Defined.

(** Insertion and annotation remove nothing: for a line number from 0
    (insertion) or 1 (annotation) to the number of lines, the result is
    the text of the first [line_number] lines, the new line, and the
    rest of the text, where the two parts make up the text that was
    given. *)
Theorem insertion_keeps_text (content code : string) (line_number : Z) :
  let lines := PyStr.splitlines true content in
  let pre := text_before content line_number in
  let post := text_after content line_number in
  0 <= line_number <= PyList.len lines ->
  pre +:+ post = content
  /\ _apply_dom_patch content line_number "insert_after_line" code
     = Ok (pre +:+ (code +:+ NL) +:+ post)
  /\ _apply_line_patch content line_number "insert_after_line" code
     = Ok (pre +:+ (code +:+ NL) +:+ post)
  /\ (1 <= line_number ->
      _apply_dom_patch content line_number "annotate" code
      = Ok (pre +:+ ("<!-- SEO NOTE: " +:+ code +:+ " -->" +:+ NL) +:+ post)
      /\ _apply_line_patch content line_number "annotate" code
         = Ok (pre +:+ ("// SEO NOTE: " +:+ code +:+ NL) +:+ post)).
Proof.
  intros lines pre post Hn. split; [apply text_before_after|].
  unfold _apply_dom_patch, _apply_line_patch. fold lines.
  rewrite !decide_True by done.
  rewrite (proj2 (Z.leb_le line_number (PyList.len lines))) by lia.
  rewrite insert_in_range by done.
  rewrite concat_lines_app, concat_lines_cons.
  split; [done|]. split; [done|]. intros H1.
  rewrite !decide_False by done. rewrite !decide_True by done.
  rewrite (proj2 (in_range_spec line_number lines)) by lia.
  rewrite !insert_in_range by done.
  by rewrite !concat_lines_app, !concat_lines_cons.
Qed.

Lemma insertion_keeps_text_witness :
  _apply_line_patch ("a" +:+ NL +:+ "b") 2 "insert_after_line" "X"
  = Ok (("a" +:+ NL +:+ "b") +:+ ("X" +:+ NL) +:+ "").
Proof.
  apply (insertion_keeps_text ("a" +:+ NL +:+ "b") "X" 2).
  vm_compute. split; discriminate.
Defined.

(** Replacement changes one line: for a line number from 1 to the
    number of lines, the text is the lines before, the line itself and
    the lines after, and the result has the same first and last part
    around the new line, which is the payload and a line feed for the
    DOM strategy, and the payload re-indented and a line feed for the
    line strategy. *)
Theorem replacement_changes_one_line (content code : string)
    (line_number : Z) :
  let lines := PyStr.splitlines true content in
  let pre := text_before content (line_number - 1) in
  let post := text_after content line_number in
  1 <= line_number <= PyList.len lines ->
  exists original_line,
    PyList.getitem lines (line_number - 1) = Some original_line
    /\ content = pre +:+ original_line +:+ post
    /\ _apply_dom_patch content line_number "replace_line" code
       = Ok (pre +:+ (code +:+ NL) +:+ post)
    /\ _apply_line_patch content line_number "replace_line" code
       = Ok (pre +:+ (reindented original_line code +:+ NL) +:+ post).
Proof.
  intros lines pre post Hn.
  destruct (getitem_in_range lines line_number Hn) as (l & Hl & Hsplit).
  exists l. split; [done|]. split.
  - rewrite <- (concat_splitlines content) at 1. fold lines.
    rewrite Hsplit at 1. by rewrite concat_lines_app, concat_lines_cons.
  - unfold _apply_dom_patch, _apply_line_patch. fold lines.
    rewrite !decide_False by done. rewrite !decide_True by done.
    rewrite (proj2 (in_range_spec line_number lines)) by lia.
    rewrite Hl, !setitem_in_range by done.
    by rewrite !concat_lines_app, !concat_lines_cons.
Qed.

Lemma replacement_changes_one_line_witness :
  exists original_line,
    PyList.getitem (PyStr.splitlines true ("a" +:+ NL +:+ "  b" +:+ NL))
      (2 - 1) = Some original_line
    /\ _apply_line_patch ("a" +:+ NL +:+ "  b" +:+ NL) 2 "replace_line" "X"
       = Ok (text_before ("a" +:+ NL +:+ "  b" +:+ NL) (2 - 1)
             +:+ (reindented original_line "X" +:+ NL)
             +:+ text_after ("a" +:+ NL +:+ "  b" +:+ NL) 2).
Proof.
  destruct (replacement_changes_one_line
              ("a" +:+ NL +:+ "  b" +:+ NL) "X" 2) as (l & H1 & _ & _ & H2).
  - vm_compute. split; discriminate.
  - exists l. split; [exact H1 | exact H2].
Defined.

(** The only error an edit of a text raises is the one for a line
    number out of range, carrying that number: on insertion when the
    number is above the number of lines, on replacement and annotation
    when it is not between 1 and the number of lines.  No index error
    escapes the range checks. *)
Theorem edit_raises_only_out_of_range (content : string) (line_number : Z)
    (action code : string) (e : exn) :
  let lines := PyStr.splitlines true content in
  _apply_dom_patch content line_number action code = Raise e
  \/ _apply_line_patch content line_number action code = Raise e ->
  e = ValueError line_number
  /\ (action = "insert_after_line" /\ PyList.len lines < line_number
      \/ (action = "replace_line" \/ action = "annotate")
         /\ ~ (1 <= line_number <= PyList.len lines)).
Proof.
  intros lines H. unfold _apply_dom_patch, _apply_line_patch in H.
  fold lines in H.
  destruct (decide (action = "insert_after_line")) as [Ha|Ha].
  { destruct (line_number <=? PyList.len lines) eqn:E;
      [by destruct H|].
    apply Z.leb_gt in E. split; [destruct H; congruence | by left]. }
  destruct (decide (action = "replace_line")) as [Hr|Hr].
  { destruct (in_range line_number lines) eqn:E.
    - apply in_range_spec in E.
      destruct (getitem_in_range lines line_number E) as (l & Hl & _).
      rewrite Hl, !setitem_in_range in H by done. by destruct H.
    - split; [destruct H; congruence|]. right. split; [by left|].
      intros Hn%in_range_spec. congruence. }
  destruct (decide (action = "annotate")) as [Hn|Hn]; [|by destruct H].
  destruct (in_range line_number lines) eqn:E; [by destruct H|].
  split; [destruct H; congruence|]. right. split; [by right|].
  intros Hn'%in_range_spec. congruence.
Qed.

Lemma edit_raises_only_out_of_range_witness :
  ValueError 0 = ValueError 0
  /\ ("replace_line" = "insert_after_line"
      /\ PyList.len (PyStr.splitlines true ("a" +:+ NL)) < 0
      \/ ("replace_line" = "replace_line" \/ "replace_line" = "annotate")
         /\ ~ (1 <= 0 <= PyList.len (PyStr.splitlines true ("a" +:+ NL)))).
Proof.
  apply (edit_raises_only_out_of_range ("a" +:+ NL) 0 "replace_line" "X"
           (ValueError 0)).
  left. reflexivity.
Defined.

End text_edit.

(** ** Patch engine: a file and its backup *)

Section engine_files.
Import PatchEngine.

Variable E : PatchEngine.env.

Lemma create_backup_spec file_path w :
  let bp := backup_path_of E file_path w in
  match file_text file_path w with
  | Some original =>
      if decide (file_path = bp) then
        create_backup E file_path w
        = (Raise (SameFileError file_path bp),
           {| fs := fs w; backups := S (backups w) |})
      else
        create_backup E file_path w
        = (Ok bp,
           {| fs := FS.write bp original (fs w); backups := S (backups w) |})
  | None =>
      create_backup E file_path w
      = (Raise (FileNotFoundError file_path),
         {| fs := fs w; backups := S (backups w) |})
  end.
Proof.
  unfold create_backup, file_text, backup_path_of, FS.copy2, with_fs. simpl.
  destruct (FS.files (fs w) !! file_path) as [c|]; [|done].
  by case_decide.
Qed.

Lemma rollback_spec file_path backup_path w :
  match file_text backup_path w with
  | Some saved =>
      if decide (backup_path = file_path) then
        rollback file_path backup_path w = (false, w)
      else
        rollback file_path backup_path w
        = (true, with_fs w (FS.write file_path saved (fs w)))
  | None => rollback file_path backup_path w = (false, w)
  end.
Proof.
  unfold rollback, file_text, FS.copy2, with_fs.
  destruct (FS.files (fs w) !! backup_path) as [c|]; [|by destruct w].
  case_decide; [by destruct w | done].
Qed.

Lemma file_text_write path p text w :
  file_text path (with_fs w (FS.write p text (fs w)))
  = if decide (p = path) then Some text else file_text path w.
Proof.
  unfold file_text, with_fs, FS.write. simpl.
  case_decide; subst; [by rewrite lookup_insert_eq|].
  by rewrite lookup_insert_ne.
Qed.

(** The outcome of [apply_patch], case by case. *)
Lemma apply_patch_cases file_path line_number action code file_type w :
  let bp := backup_path_of E file_path w in
  let r := apply_patch E file_path line_number action code file_type w in
  match file_text file_path w with
  | None =>
      r.1 = (false, None,
             Some (FailedToApplyPatch (FileNotFoundError file_path)))
      /\ fs r.2 = fs w
  | Some original =>
      if decide (file_path = bp) then
        r.1 = (false, None,
               Some (FailedToApplyPatch (SameFileError file_path bp)))
        /\ fs r.2 = fs w
      else
        match patch_text file_path file_type original line_number action
                code with
        | Ok patched =>
            r.1 = (true, Some bp, None)
            /\ fs r.2
               = FS.write file_path patched (FS.write bp original (fs w))
        | Raise e =>
            r.1 = (false, None, Some (FailedToApplyPatch e))
            /\ fs r.2
               = FS.write file_path original (FS.write bp original (fs w))
        end
  end.
Proof.
  intros bp r. subst r. unfold apply_patch.
  pose proof (create_backup_spec file_path w) as Hb. fold bp in Hb.
  simpl in Hb.
  destruct (file_text file_path w) as [original|] eqn:Hf;
    [|by rewrite Hb].
  destruct (decide (file_path = bp)) as [Heq|Hne]; [by rewrite Hb|].
  rewrite Hb. clear Hb.
  unfold FS.read. cbn [fs].
  assert (FS.files (FS.write bp original (fs w)) !! file_path
          = Some original) as ->.
  { unfold FS.write. simpl. by rewrite lookup_insert_ne. }
  fold (patch_text file_path file_type original line_number action code).
  destruct (patch_text _ _ _ _ _ _) as [patched|e]; [done|].
  pose proof (rollback_spec file_path bp
                {| fs := FS.write bp original (fs w);
                   backups := S (backups w) |}) as Hr.
  unfold file_text in Hr. cbn [fs] in Hr.
  assert (FS.files (FS.write bp original (fs w)) !! bp = Some original)
    as Hbp by (unfold FS.write; simpl; by rewrite lookup_insert_eq).
  rewrite Hbp in Hr. rewrite decide_False in Hr by done.
  rewrite Hr. done.
Qed.


(** A failed [apply_patch] reports no backup and an error, and leaves
    the text of the file as it was; when the file exists and is not its
    own backup path, the backup taken before the failure stays
    behind. *)
Theorem apply_patch_failure_keeps_text (file_path : string)
    (line_number : Z) (action code : string) (file_type : option string)
    (w : world) :
  let r := apply_patch E file_path line_number action code file_type w in
  r.1.1.1 = false ->
  file_text file_path r.2 = file_text file_path w
  /\ r.1.1.2 = None
  /\ (exists e, r.1.2 = Some (FailedToApplyPatch e))
  /\ (forall original,
        file_text file_path w = Some original ->
        backup_path_of E file_path w ≠ file_path ->
        file_text (backup_path_of E file_path w) r.2 = Some original).
Proof.
  intros r Hfail.
  pose proof (apply_patch_cases file_path line_number action code file_type w)
    as H. cbv zeta in H. fold r in H.
  destruct (file_text file_path w) as [original|] eqn:Hf.
  - destruct (decide (file_path = backup_path_of E file_path w)) as [Heq|Hne].
    + destruct H as [H1 H2]. rewrite H1. unfold file_text in *.
      rewrite H2. repeat split; eauto. intros; congruence.
    + destruct (patch_text _ _ _ _ _ _) as [patched|e];
        destruct H as [H1 H2]; [rewrite H1 in Hfail; done|].
      rewrite H1. unfold file_text in *. rewrite H2. simpl.
      rewrite lookup_insert_eq.
      repeat split; eauto. intros o [= <-] _.
      rewrite lookup_insert_ne by done. by rewrite lookup_insert_eq.
  - destruct H as [H1 H2]. rewrite H1. unfold file_text in *.
    rewrite H2. repeat split; eauto. intros; congruence.
Qed.


(** Round trip: [rollback] with the backup path a successful
    [apply_patch] reports succeeds, gives the file the text it had
    before the edit, and changes no other file. *)
Theorem apply_patch_then_rollback (file_path : string) (line_number : Z)
    (action code : string) (file_type : option string) (w : world)
    (backup_path : string) :
  let r := apply_patch E file_path line_number action code file_type w in
  r.1.1.2 = Some backup_path ->
  (rollback file_path backup_path r.2).1 = true
  /\ file_text file_path (rollback file_path backup_path r.2).2
     = file_text file_path w
  /\ forall p, p ≠ file_path ->
       file_text p (rollback file_path backup_path r.2).2 = file_text p r.2.
Proof.
  intros r Hbp.
  pose proof (apply_patch_cases file_path line_number action code file_type w)
    as H. cbv zeta in H. fold r in H.
  destruct (file_text file_path w) as [original|] eqn:Hf;
    [|destruct H as [H1 _]; rewrite H1 in Hbp; done].
  destruct (decide (file_path = backup_path_of E file_path w)) as [Heq|Hne];
    [destruct H as [H1 _]; rewrite H1 in Hbp; done|].
  destruct (patch_text _ _ _ _ _ _) as [patched|e] eqn:Hp;
    destruct H as [H1 H2]; [|rewrite H1 in Hbp; done].
  rewrite H1 in Hbp. injection Hbp as <-.
  pose proof (rollback_spec file_path (backup_path_of E file_path w) r.2)
    as Hr.
  assert (file_text (backup_path_of E file_path w) r.2 = Some original)
    as Hsaved.
  { unfold file_text. rewrite H2. simpl.
    rewrite lookup_insert_ne by done. by rewrite lookup_insert_eq. }
  rewrite Hsaved in Hr. rewrite decide_False in Hr by done.
  rewrite Hr. simpl. split; [done|]. split.
  - rewrite file_text_write. by rewrite decide_True.
  - intros p Hne'. rewrite file_text_write. by rewrite decide_False.
Qed.

End engine_files.

Lemma apply_patch_failure_keeps_text_witness :
  file_text "/site/index.html"
    (PatchEngine.apply_patch engine_env "/site/index.html" 5 "replace_line"
       "<title>x</title>" None site_world).2
  = file_text "/site/index.html" site_world.
Proof.
  refine (proj1 (apply_patch_failure_keeps_text engine_env
                   "/site/index.html" 5 "replace_line" "<title>x</title>"
                   None site_world _)).
  vm_compute. reflexivity.
Defined.


Lemma apply_patch_then_rollback_witness :
  let r := PatchEngine.apply_patch engine_env "/site/index.html" 1
             "insert_after_line" "<title>x</title>" None site_world in
  file_text "/site/index.html"
    (PatchEngine.rollback "/site/index.html"
       (backup_path_of engine_env "/site/index.html" site_world) r.2).2
  = file_text "/site/index.html" site_world.
Proof.
  intros r.
  refine (proj1 (proj2 (apply_patch_then_rollback engine_env
                          "/site/index.html" 1 "insert_after_line"
                          "<title>x</title>" None site_world _ _))).
  vm_compute. reflexivity.
Defined.

(** ** Sandbox: the scratch copy *)

Section scratch_copy.
Import PatchEngine PatchSandbox.

Lemma after_last_clean f l : existsb f (PyPath.after_last f l) = false.
Proof.
  induction l as [|c l IH]; simpl; [done|].
  destruct (existsb f l) eqn:El; [done|].
  destruct (f c) eqn:Ec; [done|]. simpl. by rewrite Ec, El.
Qed.

Lemma after_last_length f l :
  (length (PyPath.after_last f l) <= length l)%nat.
Proof.
  induction l as [|c l IH]; simpl; [done|].
  destruct (existsb f l); [lia|]. destruct (f c); simpl; lia.
Qed.

Lemma after_last_keeps (g : ascii -> bool) f l :
  existsb g l = false -> existsb g (PyPath.after_last f l) = false.
Proof.
  induction l as [|c l IH]; simpl; [done|].
  intros [Hc Hl]%orb_false_iff.
  destruct (existsb f l); [by apply IH|].
  destruct (f c); [done|]. simpl. by rewrite Hc, Hl.
Qed.

Lemma after_last_app f a c b :
  f c = true -> existsb f b = false ->
  PyPath.after_last f (a ++ c :: b) = b.
Proof.
  intros Hc Hb. induction a as [|x a IH]; simpl.
  - by rewrite Hb, Hc.
  - rewrite existsb_app. simpl. rewrite Hc, orb_true_r. done.
Qed.

Lemma existsb_take {A} (f : A -> bool) n l :
  existsb f l = false -> existsb f (take n l) = false.
Proof.
  revert n. induction l as [|x l IH]; intros [|n]; simpl; try done.
  intros [Hx Hl]%orb_false_iff. by rewrite Hx, IH.
Qed.

Lemma name_chars_clean p :
  existsb PyPath.is_slash (PyPath.name_chars p) = false.
Proof. apply after_last_clean. Qed.

Lemma stem_clean p : no_slash (PyPath.stem p).
Proof.
  unfold no_slash, PyPath.stem. rewrite chars_of_chars.
  apply existsb_take, name_chars_clean.
Qed.

Lemma suffix_clean p : no_slash (PyPath.suffix p).
Proof.
  unfold no_slash, PyPath.suffix, PyPath.suffix_chars.
  rewrite chars_of_chars.
  pose proof (name_chars_clean p) as Hn.
  destruct (PyPath.name_chars p) as [|c0 rest]; [done|].
  simpl in Hn. apply orb_false_iff in Hn as [_ Hrest].
  destruct (existsb PyPath.is_dot rest); [|done].
  pose proof (after_last_keeps PyPath.is_slash PyPath.is_dot rest Hrest)
    as Hk.
  destruct (PyPath.after_last PyPath.is_dot rest) as [|x ext]; [done|].
  change (PyPath.is_slash (ascii_of_nat 46) || existsb PyPath.is_slash (x :: ext)
          = false).
  by rewrite Hk.
Qed.

Lemma stem_suffix_length p :
  (length (PyStr.chars (PyPath.stem p))
   + length (PyStr.chars (PyPath.suffix p))
   = length (PyPath.name_chars p))%nat.
Proof.
  unfold PyPath.stem, PyPath.suffix. rewrite !chars_of_chars.
  rewrite length_take.
  assert (length (PyPath.suffix_chars p) <= length (PyPath.name_chars p))%nat;
    [|lia].
  unfold PyPath.suffix_chars.
  destruct (PyPath.name_chars p) as [|c0 rest]; [done|].
  destruct (existsb PyPath.is_dot rest); [|simpl; lia].
  pose proof (after_last_length PyPath.is_dot rest).
  destruct (PyPath.after_last PyPath.is_dot rest); simpl in *; lia.
Qed.

Lemma no_slash_app a b : no_slash a -> no_slash b -> no_slash (a +:+ b).
Proof.
  unfold no_slash. intros Ha Hb. by rewrite chars_app, existsb_app, Ha, Hb.
Qed.

(** The name of a path made with [/]. *)
Lemma name_chars_div dir name :
  no_slash name -> PyPath.name_chars (PyPath.div dir name) = PyStr.chars name.
Proof.
  intros Hn. unfold PyPath.name_chars, PyPath.div.
  rewrite !chars_app. simpl. by apply after_last_app.
Qed.

Lemma temp_path_differs sb original_path :
  no_slash (self_id sb) -> temp_path_of sb original_path ≠ original_path.
Proof.
  intros Hid Heq.
  assert (PyPath.name_chars (temp_path_of sb original_path)
          = PyPath.name_chars original_path) as Hn by by rewrite Heq.
  unfold temp_path_of in Hn. rewrite name_chars_div in Hn.
  - apply (f_equal (@length _)) in Hn.
    rewrite !chars_app, !length_app in Hn.
    pose proof (stem_suffix_length original_path). simpl in Hn. lia.
  - repeat apply no_slash_app;
      auto using stem_clean, suffix_clean; reflexivity.
Qed.

(** The scratch path is never the path of the original, so copying to
    it fails only when the original is missing: then nothing is written
    and the error names the original; otherwise the scratch path is
    returned, it holds the text of the original, and no other file has
    changed. *)
Theorem create_temp_copy_outcome (sb : PatchSandbox.t)
    (original_path : string) (w : world) :
  no_slash (self_id sb) ->
  let temp_path := temp_path_of sb original_path in
  temp_path ≠ original_path
  /\ match file_text original_path w with
     | Some text =>
         create_temp_copy sb original_path w
         = (Ok temp_path, with_fs w (FS.write temp_path text (fs w)))
     | None =>
         create_temp_copy sb original_path w
         = (Raise (FileNotFoundError original_path), w)
     end.
Proof.
  intros Hid temp_path.
  pose proof (temp_path_differs sb original_path Hid) as Hne.
  split; [done|].
  unfold create_temp_copy, FS.copy2, file_text. fold temp_path.
  destruct (FS.files (fs w) !! original_path) as [text|]; [|by destruct w].
  by rewrite decide_False by done.
Qed.

Lemma create_temp_copy_outcome_witness :
  temp_path_of the_sandbox "/site/index.html" ≠ "/site/index.html".
Proof.
  refine (proj1 (create_temp_copy_outcome the_sandbox "/site/index.html"
                   site_world _)).
  vm_compute. reflexivity.
Defined.

End scratch_copy.

(** ** The rollback route *)

Section rollback_route.
Import Patches.

Lemma rollback_false_unchanged file_path backup_path w w' :
  PatchEngine.rollback file_path backup_path w = (false, w') -> w' = w.
Proof.
  pose proof (rollback_spec file_path backup_path w) as H.
  destruct (file_text backup_path w); [|by rewrite H; intros [= <-]].
  case_decide; rewrite H; [by intros [= <-] | done].
Qed.

Lemma rollback_true_inv file_path backup_path w w' :
  PatchEngine.rollback file_path backup_path w = (true, w') ->
  exists saved,
    file_text backup_path w = Some saved
    /\ backup_path ≠ file_path
    /\ w' = PatchEngine.with_fs w
              (FS.write file_path saved (PatchEngine.fs w)).
Proof.
  pose proof (rollback_spec file_path backup_path w) as H.
  destruct (file_text backup_path w) as [saved|]; [|by rewrite H].
  case_decide; rewrite H; [done|]. intros [= <-]. eauto.
Qed.

Lemma state_eta (s : state) :
  {| world := world s; issues := issues s;
     patch_history := patch_history s; breaker := breaker s |} = s.
Proof. by destruct s. Qed.

(** A rollback that fails answers with status 500, whatever the cause
    (no history row, several rows, a row already rolled back, a backup
    that cannot be copied), and changes nothing: not the files, not the
    tables, not the breaker. *)
Theorem rollback_failure_changes_nothing (issue_id : Z) (s s' : state)
    (e : exn) :
  rollback_patch issue_id s = (Raise e, s') ->
  e = HTTPException 500 /\ s' = s.
Proof.
  unfold rollback_patch, rollback_patch_body.
  destruct (filter _ (patch_history s)) as [|h [|h' rest]];
    try (intros [= <- <-]; done).
  destruct (h_rollback_available h); simpl; [|intros [= <- <-]; done].
  destruct (PatchEngine.rollback _ _ _) as [[] w] eqn:Hr; [done|].
  apply rollback_false_unchanged in Hr as ->.
  intros [= <- <-]. by rewrite state_eta.
Qed.

Lemma rollback_failure_changes_nothing_witness :
  (rollback_patch 7 js_state).2 = js_state.
Proof.
  refine (proj2 (rollback_failure_changes_nothing 7 js_state _
                   (HTTPException 500) _)).
  vm_compute. reflexivity.
Defined.

Lemma filter_history_map (f : PatchHistory -> PatchHistory) issue_id l :
  (forall h, h_issue_id (f h) = h_issue_id h) ->
  filter (fun h => h_issue_id h = issue_id) (map f l)
  = map f (filter (fun h => h_issue_id h = issue_id) l).
Proof.
  intros Hf. induction l as [|h l IH]; simpl; [done|].
  rewrite !filter_cons, Hf. case_decide; simpl; by rewrite IH.
Qed.

(** A rollback succeeds exactly when the issue has one history row,
    that row still allows a rollback, and its backup exists and is not
    the file itself.  Then the file gets the text of the backup, no
    other file changes, the issue goes back to pending, the row no
    longer allows a rollback, and the breaker is as before. *)
Theorem rollback_success (issue_id : Z) (s : state) :
  ((rollback_patch issue_id s).1 = Ok tt
   <-> exists h saved,
         history_of issue_id s = [h]
         /\ h_rollback_available h = true
         /\ content_of (h_backup_path h) s = Some saved
         /\ h_backup_path h ≠ h_file_path h)
  /\ forall h,
       (rollback_patch issue_id s).1 = Ok tt ->
       history_of issue_id s = [h] ->
       let s' := (rollback_patch issue_id s).2 in
       content_of (h_file_path h) s' = content_of (h_backup_path h) s
       /\ (forall p, p ≠ h_file_path h -> content_of p s' = content_of p s)
       /\ issues s' = alter (set_status PENDING) issue_id (issues s)
       /\ history_of issue_id s' = [set_rolled_back h]
       /\ length (patch_history s') = length (patch_history s)
       /\ breaker s' = breaker s.
Proof.
  unfold rollback_patch, rollback_patch_body, history_of, content_of.
  destruct (filter _ (patch_history s)) as [|h [|h' rest]] eqn:Hf.
  - split; [split; [done|by intros (? & ? & ? & _)] | done].
  - destruct (h_rollback_available h) eqn:Ha; simpl.
    2:{ split; [split; [done|]|done].
        intros (h0 & ? & [= <-] & ? & _). congruence. }
    pose proof (rollback_spec (h_file_path h) (h_backup_path h) (world s))
      as Hr. unfold file_text in Hr.
    destruct (FS.files (PatchEngine.fs (world s)) !! h_backup_path h)
      as [saved|] eqn:Hb.
    2:{ rewrite Hr. split; [split; [done|]|done].
        intros (h0 & ? & [= <-] & _ & ? & _). congruence. }
    destruct (decide (h_backup_path h = h_file_path h)) as [Heq|Hne].
    { rewrite Hr. split; [split; [done|]|done].
      intros (h0 & ? & [= <-] & _ & _ & ?). congruence. }
    rewrite Hr. simpl. split.
    + split; [|done]. intros _. exists h, saved. done.
    + intros h0 _ [= <-]. simpl.
      rewrite lookup_insert_eq. repeat split; try done.
      * intros p Hp. by rewrite lookup_insert_ne.
      * rewrite filter_history_map
          by (intros h0; case_decide; done).
        rewrite Hf. simpl. by rewrite decide_True.
      * by rewrite length_map.
  - split; [split; [done|by intros (? & ? & [=] & _)] | done].
Qed.

Lemma rollback_success_witness :
  (rollback_patch 7 (approve_issues routes_env [7] None js_state).2).1
  = Ok tt.
Proof.
  apply (proj1 (rollback_success 7
                  (approve_issues routes_env [7] None js_state).2)).
  eexists _, _. vm_compute. repeat split; try reflexivity. discriminate.
Defined.

(** The row a successful rollback leaves for the issue. *)
Lemma rolled_back_row issue_id s :
  (rollback_patch issue_id s).1 = Ok tt ->
  exists h,
    history_of issue_id (rollback_patch issue_id s).2 = [set_rolled_back h].
Proof.
  unfold rollback_patch, rollback_patch_body, history_of.
  destruct (filter _ (patch_history s)) as [|h [|h' rest]] eqn:Hf;
    [done| |done].
  destruct (h_rollback_available h); simpl; [|done].
  destruct (PatchEngine.rollback _ _ _) as [[] w]; [|done].
  intros _. exists h. simpl.
  rewrite filter_history_map by (intros h0; case_decide; done).
  rewrite Hf. simpl. by rewrite decide_True.
Qed.

(** A record is rolled back at most once: after a successful rollback
    of an issue, the next rollback of that issue fails and changes
    nothing. *)
Theorem rollback_only_once (issue_id : Z) (s : state) :
  (rollback_patch issue_id s).1 = Ok tt ->
  rollback_patch issue_id (rollback_patch issue_id s).2
  = (Raise (HTTPException 500), (rollback_patch issue_id s).2).
Proof.
  intros Hok.
  destruct (rolled_back_row issue_id s Hok) as (h & Hrow).
  set (s' := (rollback_patch issue_id s).2) in *.
  unfold history_of in Hrow.
  unfold rollback_patch, rollback_patch_body. rewrite Hrow. done.
Qed.

Lemma rollback_only_once_witness :
  rollback_patch 7 rolled_back_state
  = (Raise (HTTPException 500), rolled_back_state).
Proof.
  apply (rollback_only_once 7
           (approve_issues routes_env [7] None js_state).2).
  vm_compute. reflexivity.
Defined.

End rollback_route.

(** ** The approval route: what an entry of the result stands for *)

Section approval_entries.
Import Patches.

Variable E : env.

(** *** Writes only accumulate *)


Lemma grows_trans w1 w2 w3 : grows w1 w2 -> grows w2 w3 -> grows w1 w3.
Proof. unfold grows. intros. by etrans. Qed.

Lemma grows_write p text w :
  grows w (PatchEngine.with_fs w (FS.write p text (PatchEngine.fs w))).
Proof. unfold grows. simpl. by apply prefix_app_r. Qed.

Lemma grows_copy2 src dst w r f :
  FS.copy2 src dst (PatchEngine.fs w) = (r, f) ->
  grows w (PatchEngine.with_fs w f).
Proof.
  unfold FS.copy2.
  destruct (_ !! src); [|intros [= <- <-]; by unfold grows].
  case_decide; intros [= <- <-]; [by unfold grows | apply grows_write].
Qed.

Lemma grows_writes_to path w w' :
  grows w w' ->
  (FS.writes_to path (PatchEngine.fs w)
   <= FS.writes_to path (PatchEngine.fs w'))%nat.
Proof.
  intros [l Hl]. unfold FS.writes_to. rewrite Hl, filter_app, length_app. lia.
Qed.

Lemma grows_create_backup En file_path w :
  grows w (PatchEngine.create_backup En file_path w).2.
Proof.
  unfold PatchEngine.create_backup.
  destruct (FS.copy2 _ _ _) as [[u|e] f] eqn:Hc; simpl;
    apply (grows_copy2 _ _ {| PatchEngine.fs := PatchEngine.fs w;
                              PatchEngine.backups := S (PatchEngine.backups w) |}
             _ _) in Hc; exact Hc.
Qed.

Lemma grows_rollback file_path backup w :
  grows w (PatchEngine.rollback file_path backup w).2.
Proof.
  unfold PatchEngine.rollback.
  destruct (FS.copy2 _ _ _) as [[u|e] f] eqn:Hc; simpl;
    by apply grows_copy2 in Hc.
Qed.

Lemma grows_apply_patch En file_path line_number action code ft w :
  grows w (PatchEngine.apply_patch En file_path line_number action code ft w).2.
Proof.
  unfold PatchEngine.apply_patch.
  pose proof (grows_create_backup En file_path w) as H1.
  destruct (PatchEngine.create_backup En file_path w) as [[backup|e] w1];
    simpl in *; [|done].
  destruct (FS.read file_path (PatchEngine.fs w1)) as [text|e].
  - destruct (if bool_decide _ then _ else _) as [patched|e].
    + simpl. eapply grows_trans; [exact H1 | apply grows_write].
    + pose proof (grows_rollback file_path backup w1) as H2.
      destruct (PatchEngine.rollback file_path backup w1) as [b w2].
      simpl in *. by eapply grows_trans.
  - pose proof (grows_rollback file_path backup w1) as H2.
    destruct (PatchEngine.rollback file_path backup w1) as [b w2].
    simpl in *. by eapply grows_trans.
Qed.


(** The sandbox with the wrappers of the route: a success ends with a
    write of the original file. *)
Lemma sandbox_success_writes issue code original_path t err w w' :
  PatchSandbox.apply_and_validate (sandbox E) original_path
    (apply_patch_wrapper E issue code) (validate_wrapper E) w
  = ((true, t, err), w') ->
  (FS.writes_to original_path (PatchEngine.fs w)
   < FS.writes_to original_path (PatchEngine.fs w'))%nat.
Proof.
  unfold PatchSandbox.apply_and_validate, PatchSandbox.create_temp_copy.
  set (tmp := PatchSandbox.temp_path_of (sandbox E) original_path).
  destruct (FS.copy2 original_path tmp (PatchEngine.fs w)) as [[u|e] f] eqn:Hc;
    [|done].
  apply grows_copy2 in Hc.
  set (w1 := PatchEngine.with_fs w f) in *.
  unfold apply_patch_wrapper.
  pose proof (grows_apply_patch (engine E) tmp (line_number issue)
                (action issue) code None w1) as Hp.
  destruct (PatchEngine.apply_patch _ _ _ _ _ _ _) as [[[ok b] er] w2].
  simpl in Hp. destruct ok; simpl; [|done].
  unfold validate_wrapper.
  destruct (PatchEngine.validate_patch _ _ _ _) as [valid verr].
  destruct valid; simpl; [|done].
  destruct (FS.copy2 tmp original_path (PatchEngine.fs w2)) as [[u'|e] f'] eqn:Hc';
    [|done].
  apply copy2_ok in Hc' as (c & _ & _ & ->).
  intros [= _ _ <-]. simpl.
  rewrite writes_to_write, decide_True by done.
  pose proof (grows_writes_to original_path w w2
                (grows_trans _ _ _ Hc Hp)). simpl in *. lia.
Qed.




Lemma file_text_cleanup_temp p t w :
  t ≠ Some p ->
  file_text p (PatchSandbox.cleanup_temp t w) = file_text p w.
Proof.
  intros Hne. unfold PatchSandbox.cleanup_temp, file_text.
  destruct t as [q|]; [|done].
  destruct (FS.exists_ q (PatchEngine.fs w)); [|done].
  simpl. rewrite lookup_delete_ne; [done | congruence].
Qed.


(** A [transaction_failed] entry stands for this: the sandbox had
    already written the edit to the original file, yet the issue keeps
    its status, no row is added to the patch history, the breaker counts
    one more failure for the job, and the loop goes on. *)
Theorem transaction_failure_keeps_edit (edited : option string)
    (issue_id : Z) (s s' : state) (e : exn) (stop : bool) :
  approve_one E edited issue_id s = (TransactionFailed issue_id e, s', stop) ->
  stop = false
  /\ issues s' = issues s
  /\ patch_history s' = patch_history s
  /\ exists issue,
       issues s !! issue_id = Some issue
       /\ (FS.writes_to (file_path issue) (PatchEngine.fs (world s))
           < FS.writes_to (file_path issue) (PatchEngine.fs (world s')))%nat
       /\ CircuitBreaker.get_failure_count (breaker s') (job_id issue)
          = CircuitBreaker.get_failure_count (breaker s) (job_id issue) + 1.
Proof.
  unfold approve_one, transaction_failed.
  destruct (issues s !! issue_id) as [issue|]; [|done].
  destruct (CircuitBreaker.is_tripped _ _) eqn:Ht; [done|].
  destruct (PatchSandbox.apply_and_validate _ _ _ _ _) as [[[ok t] er] w]
    eqn:Hs.
  destruct ok.
  2:{ destruct (CircuitBreaker.record_failure _ _). done. }
  apply sandbox_success_writes in Hs.
  pose proof (grows_writes_to (file_path issue) _ _
                (grows_create_backup (engine E) (file_path issue) w)) as Hg.
  pose proof (count_record_failure (job_id issue) (job_id issue) (breaker s))
    as Hcount. rewrite decide_True in Hcount by done.
  destruct (PatchEngine.create_backup _ _ _) as [[b|err] w1]; simpl in Hg.
  - destruct (CircuitBreaker.record_failure _ _) as [should b'] eqn:Hrf.
    simpl in Hcount.
    repeat match goal with
      | |- context [match FS.read ?a ?f with _ => _ end] =>
          destruct (FS.read a f)
      | |- context [if commit_ok ?E0 ?i then _ else _] =>
          destruct (commit_ok E0 i)
      end;
      intros [= <- <- <-];
      (split; [done|]; split; [done|]; split; [done|];
       exists issue; split; [done|]; split; [simpl; lia | done]).
  - destruct (CircuitBreaker.record_failure _ _) as [should b'].
    simpl in Hcount. intros [= <- <- <-].
    split; [done|]. split; [done|]. split; [done|].
    exists issue. split; [done|]. split; [simpl; lia | done].
Qed.

End approval_entries.


Lemma transaction_failure_keeps_edit_witness :
  exists s' stop,
    Patches.approve_one failing_commit_env None 7 js_state
    = (Patches.TransactionFailed 7 DatabaseError, s', stop)
    /\ Patches.issues s' = Patches.issues js_state.
Proof.
  destruct (Patches.approve_one failing_commit_env None 7 js_state)
    as [[r s'] stop] eqn:Hr.
  assert (r = Patches.TransactionFailed 7 DatabaseError)
    as -> by (vm_compute in Hr; by injection Hr as <- _ _).
  exists s', stop. split; [done|].
  exact (proj1 (proj2 (transaction_failure_keeps_edit failing_commit_env
                         None 7 js_state s' _ stop Hr))).
Defined.

(** ** The approval route: the batch as a whole *)

Section approval_batch.
Import Patches.

Variable E : env.







End approval_batch.



(** ** Memory guard *)

Section memory_guard.
Import MemoryGuard.

Variable format_size : Z -> string.

Lemma directory_size_app a b :
  directory_size (a ++ b) = directory_size a + directory_size b.
Proof.
  induction a as [|i a IH]; simpl; [done|]. rewrite IH. lia.
Qed.

Lemma directory_size_nonneg items :
  sizes_nonneg items -> 0 <= directory_size items.
Proof.
  induction 1 as [|i l Hi _ IH]; simpl in *; lia.
Qed.

Lemma scan_spec items total :
  sizes_nonneg items -> total <= MAX_EXTRACTED_SIZE_BYTES ->
  let r := scan format_size items total in
  r.2 = format_size r.1.2
  /\ (r.1.1 = true ->
      total + directory_size items <= MAX_EXTRACTED_SIZE_BYTES
      /\ r.1.2 = total + directory_size items)
  /\ (r.1.1 = false ->
      exists seen rest,
        items = seen ++ rest
        /\ r.1.2 = total + directory_size seen
        /\ MAX_EXTRACTED_SIZE_BYTES < r.1.2).
Proof.
  intros Hn. revert total.
  induction Hn as [|i items Hi Hn IH]; intros total Ht0; simpl.
  - split; [done|]. split; [intros _; lia | done].
  - destruct i as [n|]; simpl in *.
    + destruct (MAX_EXTRACTED_SIZE_BYTES <? total + n) eqn:E; simpl.
      * apply Z.ltb_lt in E. repeat split; try done.
        intros _. exists [File n], items. simpl. split; [done|]. lia.
      * apply Z.ltb_ge in E.
        destruct (IH (total + n) E) as (H1 & H2 & H3).
        split; [done|]. split.
        -- intros Ht. destruct (H2 Ht). lia.
        -- intros Hf. destruct (H3 Hf) as (seen & rest & -> & Hs & Hm).
           exists (File n :: seen), rest. simpl. split; [done|]. lia.
    + destruct (IH total Ht0) as (H1 & H2 & H3).
      split; [done|]. split.
      * intros Ht. destruct (H2 Ht). lia.
      * intros Hf. destruct (H3 Hf) as (seen & rest & -> & Hs & Hm).
        exists (NotAFile :: seen), rest. simpl. split; [done|]. lia.
Qed.

(** For files of sizes that are not negative, the guard passes a
    directory exactly when its size is within the limit, and then
    reports that size.  When it does not pass, the size it reports is
    that of the files seen up to the one that crossed the limit: above
    the limit, and at most the size of the directory. *)
Theorem check_directory_size_verdict (items : list item) :
  sizes_nonneg items ->
  let r := check_directory_size format_size items in
  (r.1.1 = true <-> directory_size items <= MAX_EXTRACTED_SIZE_BYTES)
  /\ (r.1.1 = true -> r.1.2 = directory_size items)
  /\ (r.1.1 = false ->
      MAX_EXTRACTED_SIZE_BYTES < r.1.2 <= directory_size items
      /\ exists seen rest,
           items = seen ++ rest /\ r.1.2 = directory_size seen)
  /\ r.2 = format_size r.1.2.
Proof.
  intros Hn r. subst r. unfold check_directory_size.
  destruct (scan_spec items 0 Hn ltac:(done)) as (H1 & H2 & H3).
  assert ((scan format_size items 0).1.1 = false ->
          MAX_EXTRACTED_SIZE_BYTES < (scan format_size items 0).1.2
            <= directory_size items
          /\ exists seen rest,
               items = seen ++ rest
               /\ (scan format_size items 0).1.2 = directory_size seen)
    as Hfalse.
  { intros Hf. destruct (H3 Hf) as (seen & rest & Hi & Hs & Hm).
    split; [|by exists seen, rest].
    split; [done|]. rewrite Hs, Hi, directory_size_app.
    assert (0 <= directory_size rest); [|lia].
    apply directory_size_nonneg. rewrite Hi in Hn.
    by apply Forall_app in Hn as [_ ?]. }
  repeat split; try done.
  - intros Ht. destruct (H2 Ht). lia.
  - intros Hle. destruct ((scan format_size items 0).1.1) eqn:E; [done|].
    destruct (Hfalse eq_refl) as [? _]. lia.
  - intros Ht. destruct (H2 Ht). lia.
  - by apply Hfalse.
  - by apply Hfalse.
  - by apply Hfalse.
Qed.

End memory_guard.

Lemma check_directory_size_verdict_witness :
  (MemoryGuard.check_directory_size (fun _ => "")
     [MemoryGuard.File 400000000; MemoryGuard.NotAFile;
      MemoryGuard.File 200000000; MemoryGuard.File 7]).1
  = (false, 600000000)
  /\ 600000000
     <= directory_size
          [MemoryGuard.File 400000000; MemoryGuard.NotAFile;
           MemoryGuard.File 200000000; MemoryGuard.File 7].
Proof.
  split; [reflexivity|].
  refine (proj2 (proj1 (proj1 (proj2 (proj2
            (check_directory_size_verdict (fun _ => "")
               [MemoryGuard.File 400000000; MemoryGuard.NotAFile;
                MemoryGuard.File 200000000; MemoryGuard.File 7] _)))
            _))).
  - repeat constructor; simpl; lia.
  - reflexivity.
Defined.

(** ** The approval route does not read the status of an issue *)

Section approval_status.
Import Patches.

Variable E : env.

Lemma code_to_apply_status edited st issue :
  code_to_apply edited (set_status st issue) = code_to_apply edited issue.
Proof. by destruct edited. Qed.

(** Whatever status an issue has (pending, rejected, already applied),
    approving it gives the same entry, the same files, the same history
    and the same breaker, and stops the loop or not in the same way: the
    route never looks at the status. *)
Theorem approval_ignores_status (edited : option string) (issue_id : Z)
    (st : IssueStatus) (s : state) :
  let r := approve_one E edited issue_id s in
  let r' := approve_one E edited issue_id (with_status issue_id st s) in
  r'.1.1 = r.1.1
  /\ r'.2 = r.2
  /\ world r'.1.2 = world r.1.2
  /\ patch_history r'.1.2 = patch_history r.1.2
  /\ breaker r'.1.2 = breaker r.1.2.
Proof.
  unfold approve_one, transaction_failed, with_status. simpl.
  rewrite lookup_alter_eq.
  destruct (issues s !! issue_id) as [issue|]; simpl; [|done].
  rewrite code_to_apply_status.
  change (job_id (set_status st issue)) with (job_id issue).
  change (file_path (set_status st issue)) with (file_path issue).
  change (apply_patch_wrapper E (set_status st issue))
    with (apply_patch_wrapper E issue).
  destruct (CircuitBreaker.is_tripped _ _); [done|].
  destruct (PatchSandbox.apply_and_validate _ _ _ _ _) as [[[ok t] e] w].
  destruct ok.
  - destruct (PatchEngine.create_backup _ _ _) as [[b|err] w'];
      repeat match goal with
        | |- context [match FS.read ?a ?f with _ => _ end] =>
            destruct (FS.read a f)
        | |- context [if commit_ok ?E0 ?i then _ else _] =>
            destruct (commit_ok E0 i)
        | |- context [CircuitBreaker.record_failure ?j ?c] =>
            destruct (CircuitBreaker.record_failure j c)
        end; done.
  - destruct (CircuitBreaker.record_failure _ _). done.
Qed.

End approval_status.

Lemma approval_ignores_status_witness :
  (Patches.approve_one routes_env None 7 rejected_state).1.1
  = Patches.Applied 7 "/app/backups/app_20260101_120000.js.bak".
Proof.
  unfold rejected_state.
  rewrite (proj1 (approval_ignores_status routes_env None 7
                    Patches.REJECTED js_state)).
  vm_compute. reflexivity.
Defined.
